(** * gamegame: networking, replication and simulation core

    Shallow embedding of [network.py], [player.py] and [scope.py].

    Numbers that are Python [float]s (and the [float] components of pygame's
    [Vector2]) are Rocq's primitive IEEE-754 binary64 floats, the same format
    and the same correctly rounded [+ - * / sqrt] as CPython and pygame use.
    Python ints ([Id], sequence numbers, key codes) are [Z] or [nat].
    Python dicts are insertion-ordered association lists ([PyDict]); a Python
    exception is [None] in an [option]. *)

From Stdlib Require Import PrimFloat ZArith List Bool String Lia.
From Stdlib Require Import Strings.Byte.
Import ListNotations.
Set Warnings "-inexact-float".

Open Scope float_scope.

(** ** Python dicts *)
Module PyDict.
Section Ops.
Context {K V : Type} (keqb : K -> K -> bool).

(** [d[k]]; [None] is the [KeyError]. *)
Fixpoint get (d : list (K * V)) (k : K) : option V :=
  match d with
  | [] => None
  | (k', v) :: d' => if keqb k' k then Some v else get d' k
  end.

(** [d[k] = v]: a present key keeps its place, a new key is appended. *)
Fixpoint set (d : list (K * V)) (k : K) (v : V) : list (K * V) :=
  match d with
  | [] => [(k, v)]
  | (k', v') :: d' => if keqb k' k then (k', v) :: d' else (k', v') :: set d' k v
  end.

(** [del d[k]]; [None] is the [KeyError] on an absent key. *)
Fixpoint del (d : list (K * V)) (k : K) : option (list (K * V)) :=
  match d with
  | [] => None
  | (k', v') :: d' =>
      if keqb k' k then Some d' else option_map (cons (k', v')) (del d' k)
  end.

(** [k in d] *)
Definition mem (d : list (K * V)) (k : K) : bool :=
  match get d k with Some _ => true | None => false end.

End Ops.
End PyDict.

(** ** pygame's [Vector2] *)
Module Vec.

Record Vector2 := V2 { x : float; y : float }.

Definition zero : Vector2 := V2 0 0.
Definition add (a b : Vector2) : Vector2 := V2 (x a + x b) (y a + y b).
Definition sub (a b : Vector2) : Vector2 := V2 (x a - x b) (y a - y b).
(** [v * s] and [s * v] both compute [v[i] * s]. *)
Definition mul (v : Vector2) (s : float) : Vector2 := V2 (x v * s) (y v * s).
Definition div (v : Vector2) (s : float) : Vector2 := V2 (x v / s) (y v / s).
Definition length (v : Vector2) : float := sqrt (x v * x v + y v * y v).
(** pygame raises [ValueError] on a zero-length vector; every caller in
    [player.py] tests [length() != 0] first. *)
Definition normalize (v : Vector2) : Vector2 := div v (length v).
Definition distance_to (a b : Vector2) : float :=
  let dx := x a - x b in let dy := y a - y b in sqrt (dx * dx + dy * dy).

End Vec.

Abbreviation Vector2 := Vec.Vector2.

(** ** pygame key codes (pygame 2) *)
Definition K_SPACE : Z := 32.
Definition K_a : Z := 97.
Definition K_d : Z := 100.
Definition K_s : Z := 115.
Definition K_w : Z := 119.
Definition K_RIGHT : Z := 1073741903.
Definition K_LEFT : Z := 1073741904.
Definition K_DOWN : Z := 1073741905.
Definition K_UP : Z := 1073741906.

(** A Python [set] of key codes; only membership is observed. *)
Definition key_in (k : Z) (keys : list Z) : bool := existsb (Z.eqb k) keys.

(** ** [player.py] *)
Module Player.

(** The dataclass fields and [last_acceleration] (set in [__post_init__]);
    [name], [debug] and [font] only serve drawing and are left out. *)
Record Player := mkPlayer {
  id : Z;
  force : Vector2;
  acceleration : Vector2;
  velocity : Vector2;
  position : Vector2;
  input_force : float;
  radius : float;
  mass : float;
  drag : float;
  brake : float;
  incosistent_surface : float;
  braking : bool;
  last_acceleration : Vector2 }.

(** [Player(id)] *)
Definition new (i : Z) : Player :=
  mkPlayer i Vec.zero Vec.zero Vec.zero Vec.zero 325 0.5 50 4 25 0.002 false Vec.zero.

Definition set_kinematics (p : Player) (f a v pos : Vector2) : Player :=
  mkPlayer (id p) f a v pos (input_force p) (radius p) (mass p) (drag p)
    (brake p) (incosistent_surface p) (braking p) (last_acceleration p).

Definition set_force_braking (p : Player) (f : Vector2) (b : bool) : Player :=
  mkPlayer (id p) f (acceleration p) (velocity p) (position p) (input_force p)
    (radius p) (mass p) (drag p) (brake p) (incosistent_surface p) b
    (last_acceleration p).

Definition set_velocity (p : Player) (v : Vector2) : Player :=
  set_kinematics p (force p) (acceleration p) v (position p).

Definition input_vector (pressed_keys : list Z) : Vector2 :=
  let d0 := Vec.zero in
  let d1 := if key_in K_w pressed_keys || key_in K_UP pressed_keys
            then Vec.sub d0 (Vec.V2 0 1) else d0 in
  let d2 := if key_in K_a pressed_keys || key_in K_LEFT pressed_keys
            then Vec.sub d1 (Vec.V2 1 0) else d1 in
  let d3 := if key_in K_s pressed_keys || key_in K_DOWN pressed_keys
            then Vec.add d2 (Vec.V2 0 1) else d2 in
  let d4 := if key_in K_d pressed_keys || key_in K_RIGHT pressed_keys
            then Vec.add d3 (Vec.V2 1 0) else d3 in
  if negb (Vec.length d4 =? 0) then Vec.normalize d4 else Vec.V2 0 0.

Definition input (p : Player) (keys : list Z) : Player :=
  set_force_braking p
    (Vec.add (force p) (Vec.mul (input_vector keys) (input_force p)))
    (key_in K_SPACE keys).

(** [physics]; [x ** 2] is written [x * x]. *)
Definition physics (p : Player) (deltatime : float) : Player :=
  let v := velocity p in
  (* Drag *)
  let drag_force := Vec.length v * Vec.length v * drag p in
  let f1 := if negb (Vec.length v =? 0)
            then Vec.sub (force p) (Vec.mul (Vec.normalize v) drag_force)
            else force p in
  (* Brake *)
  let brake_force := Vec.length v * Vec.length v * brake p in
  let f2 := if braking p && negb (Vec.length v =? 0)
            then Vec.sub f1 (Vec.mul (Vec.normalize v) brake_force)
            else f1 in
  (* Inconsistent surface *)
  let v1 := if 0 <? incosistent_surface p then
              if incosistent_surface p <? Vec.length v
              then Vec.sub v (Vec.mul (Vec.normalize v) (incosistent_surface p))
              else Vec.sub v v
            else v in
  (* Acceleration, velocity and position *)
  let a := Vec.div f2 (mass p) in
  let v2 := Vec.add v1 (Vec.mul a deltatime) in
  let pos := Vec.add (position p) (Vec.mul v2 deltatime) in
  (* Reset force *)
  set_kinematics p (Vec.V2 0 0) a v2 pos.

Definition update (p : Player) (pressed_keys : list Z) (deltatime : float) : Player :=
  physics (input p pressed_keys) deltatime.

(** The body of the [if] in [collision]: [self] and [other] get their new
    velocities, both computed from the velocities before the exchange. *)
Definition exchange (self other : Player) : Player * Player :=
  let m := mass self in
  let M := mass other in
  let u := velocity self in
  let U := velocity other in
  (set_velocity self
     (Vec.div (Vec.add (Vec.sub (Vec.mul U (2 * M)) (Vec.mul u M)) (Vec.mul u m)) (M + m)),
   set_velocity other
     (Vec.div (Vec.add (Vec.sub (Vec.mul U M) (Vec.mul U m)) (Vec.mul u (2 * m))) (M + m))).

Definition collides (self other : Player) : bool :=
  (id other <? id self)%Z
  && (Vec.distance_to (position self) (position other) <? radius self + radius other).

(** [collision(others)] over the values of a players dict, in order; the
    dict comes back with the [other]s updated. *)
Fixpoint collision (self : Player) (others : list (Z * Player)) : Player * list (Z * Player) :=
  match others with
  | [] => (self, [])
  | (k, other) :: rest =>
      let '(self1, other1) := if collides self other then exchange self other else (self, other) in
      let '(self2, rest2) := collision self1 rest in
      (self2, (k, other1) :: rest2)
  end.

End Player.

Abbreviation Player := Player.Player.

(** ** [scope.py] *)
Record Scope := mkScope {
  id_ : option Z;
  circle_radius : float;
  players : list (Z * Player) }.

(** [Scope()] *)
Definition Scope_new : Scope := mkScope None 20 [].

Definition set_circle_radius (s : Scope) (r : float) : Scope := mkScope (id_ s) r (players s).
Definition set_players (s : Scope) (ps : list (Z * Player)) : Scope := mkScope (id_ s) (circle_radius s) ps.

(** ** Commands ([network.py]) *)
Module Commands.

(** The two [OnlyMostRecentCommand] subclasses carry the [_count] drawn from
    their class's [_global_counter] when they are constructed. *)
Inductive Command :=
| SetRadiusCommand (_count : nat) (radius : float)
| SetIdCommand (id_ : Z)
| RemovePlayerCommand (id_ : Z)
| SetPositionCommand (_count : nat) (id_ : Z) (position last_acceleration velocity : Vector2).

(** The class attributes [_global_counter] (as the next value [count()]
    yields) and [_max_count] of [SetRadiusCommand] and [SetPositionCommand]. *)
Record Counts := mkCounts {
  radius_counter : nat;
  radius_max_count : nat;
  position_counter : nat;
  position_max_count : nat }.

(** Both classes start with [count()] and [_max_count = 0]. *)
Definition Counts_init : Counts := mkCounts 0 0 0 0.

Definition set_radius_max (w : Counts) (n : nat) : Counts :=
  mkCounts (radius_counter w) n (position_counter w) (position_max_count w).
Definition set_position_max (w : Counts) (n : nat) : Counts :=
  mkCounts (radius_counter w) (radius_max_count w) (position_counter w) n.

(** [SetRadiusCommand(radius)]: [__post_init__] draws the next count. *)
Definition new_SetRadiusCommand (w : Counts) (r : float) : Counts * Command :=
  (mkCounts (S (radius_counter w)) (radius_max_count w) (position_counter w) (position_max_count w),
   SetRadiusCommand (radius_counter w) r).

(** [SetPositionCommand(id_, position, last_acceleration, velocity)] *)
Definition new_SetPositionCommand (w : Counts) (i : Z) (pos acc vel : Vector2) : Counts * Command :=
  (mkCounts (radius_counter w) (radius_max_count w) (S (position_counter w)) (position_max_count w),
   SetPositionCommand (position_counter w) i pos acc vel).

(** The [run] methods as written in each class body ([old_run] for the two
    latest-only classes); [None] is the [KeyError] of [del]. *)
Definition run_body (c : Command) (scope : Scope) : option Scope :=
  match c with
  | SetRadiusCommand _ r => Some (set_circle_radius scope r)
  | SetIdCommand i => Some (mkScope (Some i) (circle_radius scope) (players scope))
  | RemovePlayerCommand i =>
      option_map (set_players scope) (PyDict.del Z.eqb (players scope) i)
  | SetPositionCommand _ i pos acc vel =>
      (* player = scope.players.setdefault(self.id_, Player(self.id_)) *)
      let player := match PyDict.get Z.eqb (players scope) i with
                    | Some p => p
                    | None => Player.new i
                    end in
      let player' := Player.mkPlayer (Player.id player) (Player.force player)
                       (Player.acceleration player) vel pos (Player.input_force player)
                       (Player.radius player) (Player.mass player) (Player.drag player)
                       (Player.brake player) (Player.incosistent_surface player)
                       (Player.braking player) acc in
      Some (set_players scope (PyDict.set Z.eqb (players scope) i player'))
  end.

(** [command.run(scope)]: for the latest-only classes this is [new_run]
    installed by [OnlyMostRecentCommand.__init_subclass__]. *)
Definition run (w : Counts) (c : Command) (scope : Scope) : option (Counts * Scope) :=
  match c with
  | SetRadiusCommand n _ =>
      if Nat.leb (radius_max_count w) n
      then option_map (pair (set_radius_max w n)) (run_body c scope)
      else Some (w, scope)
  | SetPositionCommand n _ _ _ _ =>
      if Nat.leb (position_max_count w) n
      then option_map (pair (set_position_max w n)) (run_body c scope)
      else Some (w, scope)
  | _ => option_map (pair w) (run_body c scope)
  end.

Definition is_latest_only (c : Command) : bool :=
  match c with SetRadiusCommand _ _ | SetPositionCommand _ _ _ _ _ => true | _ => false end.

(** The sequence number of a latest-only command. *)
Definition count_of (c : Command) : nat :=
  match c with SetRadiusCommand n _ | SetPositionCommand n _ _ _ _ => n | _ => 0 end.

(** The [_max_count] of the command's class. *)
Definition max_count_of (w : Counts) (c : Command) : nat :=
  match c with
  | SetRadiusCommand _ _ => radius_max_count w
  | SetPositionCommand _ _ _ _ _ => position_max_count w
  | _ => 0
  end.

Definition set_max_count_of (w : Counts) (c : Command) (n : nat) : Counts :=
  match c with
  | SetRadiusCommand _ _ => set_radius_max w n
  | SetPositionCommand _ _ _ _ _ => set_position_max w n
  | _ => w
  end.

Definition same_class (c d : Command) : bool :=
  match c, d with
  | SetRadiusCommand _ _, SetRadiusCommand _ _ => true
  | SetIdCommand _, SetIdCommand _ => true
  | RemovePlayerCommand _, RemovePlayerCommand _ => true
  | SetPositionCommand _ _ _ _ _, SetPositionCommand _ _ _ _ _ => true
  | _, _ => false
  end.

End Commands.

(** ** Transport ([network.py]: [Client], [Server]) *)
Module Net.
Import Commands.

(** The payloads that travel over the wire (pickled). *)
Inductive Obj :=
| OCommand (c : Command)
| OAcknowledge (obj : Obj)
| OKeyUpInput (key : Z)
| OKeyDownInput (key : Z)
| OPing.

(** [isinstance(obj, Acknowledged)]: [SetIdCommand] and
    [RemovePlayerCommand] are the subclasses of [Acknowledged]. *)
Definition is_acknowledged (o : Obj) : bool :=
  match o with
  | OCommand (SetIdCommand _) | OCommand (RemovePlayerCommand _) => true
  | _ => false
  end.

(** [==] against an [Acknowledged] payload: both classes are frozen
    dataclasses whose [__eq__] compares the class and the field [id_]
    (and whose [__hash__] hashes [id_]). *)
Definition acked_eqb (a b : Obj) : bool :=
  match a, b with
  | OCommand (SetIdCommand i), OCommand (SetIdCommand j) => Z.eqb i j
  | OCommand (RemovePlayerCommand i), OCommand (RemovePlayerCommand j) => Z.eqb i j
  | _, _ => false
  end.

(** [tuple[str, int]] *)
Record Addr := mkAddr { ip : string; port : Z }.

Definition addr_eqb (a b : Addr) : bool := String.eqb (ip a) (ip b) && Z.eqb (port a) (port b).

Definition PORT : Z := 39311.

(** *** Wire codec *)

Definition PROTOCOL_ID : Z := 718420690.

Definition byte_of_Z (z : Z) : byte :=
  match Byte.of_N (Z.to_N (Z.land z 255)) with Some b => b | None => x00 end.

(** [n.to_bytes(len, byteorder='little')] for [0 <= n < 256 ^ len]. *)
Definition to_bytes_little (n : Z) (len : nat) : list byte :=
  map (fun i => byte_of_Z (Z.shiftr n (8 * Z.of_nat i))) (seq 0 len).

Definition PROTOCOL_HEADER : list byte := to_bytes_little PROTOCOL_ID 4.

(** [data.startswith(prefix)] *)
Fixpoint startswith (data prefix : list byte) : bool :=
  match prefix, data with
  | [], _ => true
  | p :: prefix', d :: data' => Byte.eqb d p && startswith data' prefix'
  | _ :: _, [] => false
  end.

(** [data.removeprefix(prefix)] *)
Definition removeprefix (data prefix : list byte) : list byte :=
  if startswith data prefix then skipn (List.length prefix) data else data.

Section Codec.

(** [pickle.loads] on a non-empty byte string: [Some] value, or [None] when
    it raises ([UnpicklingError] and the like). The pickle machine itself is
    not part of this repository and is left abstract. *)
Variable pickle_decode : list byte -> option Obj.

(** [pickle.loads]: on [b''] it raises [EOFError: Ran out of input]. *)
Definition pickle_loads (data : list byte) : option Obj :=
  match data with
  | [] => None
  | _ => pickle_decode data
  end.

(** *** Sockets *)

(** What [recvfrom(4096)] returns or raises, apart from [BlockingIOError]. *)
Inductive Recv :=
| Datagram (data : list byte) (address : Addr)
| ConnectionReset.

(** *** [Client] *)

Record Client := mkClient { host : string }.

(** What a call of [recive] ends with. *)
Inductive Received :=
| Returned (obj : Obj)
| ReturnedNone
| Raised.

(** [Client.recive]; [queued = None] is [recvfrom] raising [BlockingIOError]
    on the non-blocking socket. The list holds what the call sends back. *)
Definition recive (c : Client) (queued : option Recv) : Received * list Obj :=
  match queued with
  | None => (ReturnedNone, [])
  | Some ConnectionReset => (Raised, [])
  | Some (Datagram data address) =>
      if String.eqb (ip address) (host c) && startswith data PROTOCOL_HEADER then
        match pickle_loads (removeprefix data PROTOCOL_HEADER) with
        | None => (Raised, [])
        | Some obj =>
            (Returned obj, if is_acknowledged obj then [OAcknowledge obj] else [])
        end
      else (ReturnedNone, [])
  end.

(** *** [Server] *)

Record Server := mkServer {
  clients : list Addr;
  timeouts : list (Addr * float);
  client_timeout : float;
  not_acknoledged : list (Addr * Obj) }.

(** [Server(address)] with the default [client_timeout = 2]. *)
Definition Server_new : Server := mkServer [] [] 2 [].

(** What the server does, in order. *)
Inductive Event :=
| Sent (a : Addr) (o : Obj) (recorded : bool)  (* send_to; recorded: added to not_acknoledged *)
| Resent (a : Addr) (o : Obj)                  (* the resend loop of Server.update *)
| Connected (a : Addr)                         (* handle_connect hook *)
| Disconnected (a : Addr)                      (* handle_disconnect hook *)
| Handled (a : Addr) (o : Obj)                 (* handle hook *)
| Acked (a : Addr) (o : Obj).                  (* an entry removed by an Acknowledge *)

(** What a subclass hook asks for: [self.send_to(a, o)] or [self.send_to_all(o)]. *)
Inductive Action :=
| SendTo (a : Addr) (o : Obj)
| SendToAll (o : Obj).

Definition pending_eqb (e f : Addr * Obj) : bool :=
  addr_eqb (fst e) (fst f) && acked_eqb (snd e) (snd f).

(** [set.add] *)
Definition set_add (s : list (Addr * Obj)) (e : Addr * Obj) : list (Addr * Obj) :=
  if existsb (pending_eqb e) s then s else s ++ [e].

(** Whether [hash((address, obj))] succeeds. [Acknowledge] is a plain
    [@dataclass] (so [__hash__] is [None]) and [SetPositionCommand] is a
    frozen dataclass whose hash hashes its [Vector2] fields, which are
    unhashable: both raise [TypeError]. The other payloads hash. *)
Definition hashable (o : Obj) : bool :=
  match o with
  | OAcknowledge _ => false
  | OCommand (SetPositionCommand _ _ _ _ _) => false
  | _ => true
  end.

(** [set.remove] of an element that hashes; [None] is the [KeyError]. *)
Definition set_remove (s : list (Addr * Obj)) (e : Addr * Obj) : option (list (Addr * Obj)) :=
  if existsb (pending_eqb e) s then Some (filter (fun f => negb (pending_eqb e f)) s) else None.

(** [list.remove]; [None] is the [ValueError]. *)
Fixpoint list_remove (l : list Addr) (a : Addr) : option (list Addr) :=
  match l with
  | [] => None
  | b :: l' => if addr_eqb b a then Some l' else option_map (cons b) (list_remove l' a)
  end.

End Codec.
End Net.

(** ** [Server.step] and its parts *)
Module Srv.
Import Commands Net.

Section Step.
Variable pickle_decode : list byte -> option Obj.
Context {Sub : Type}.

(** The extension points a subclass overrides, over the subclass's own
    state: [handle_connect], [handle_disconnect], [handle] and what its
    [update] does after [super().update()]. [None] is an exception. *)
Record Hooks := mkHooks {
  on_connect : Sub -> Addr -> option (Sub * list Action);
  on_disconnect : Sub -> Addr -> option (Sub * list Action);
  on_handle : Sub -> Addr -> Obj -> option (Sub * list Action);
  on_update : Sub -> float -> option (Sub * list Action) }.

Variable hooks : Hooks.

Record St := mkSt { srv : Server; sub : Sub; trace : list Event }.

Definition with_srv (s : St) (v : Server) : St := mkSt v (sub s) (trace s).
Definition with_sub (s : St) (u : Sub) : St := mkSt (srv s) u (trace s).
Definition log (s : St) (e : Event) : St := mkSt (srv s) (sub s) (trace s ++ [e]).

Definition set_clients (v : Server) (c : list Addr) : Server :=
  mkServer c (timeouts v) (client_timeout v) (not_acknoledged v).
Definition set_timeouts (v : Server) (t : list (Addr * float)) : Server :=
  mkServer (clients v) t (client_timeout v) (not_acknoledged v).
Definition set_pending (v : Server) (p : list (Addr * Obj)) : Server :=
  mkServer (clients v) (timeouts v) (client_timeout v) p.

Definition bind (m : option St) (k : St -> option St) : option St :=
  match m with Some s => k s | None => None end.

Local Notation "'let*' s ':=' m 'in' k" := (bind m (fun s => k))
  (at level 200, s name, m at level 100, k at level 200).

(** [send_to(address, obj, acknoledge)] *)
Definition send_to (a : Addr) (o : Obj) (acknoledge : bool) (s : St) : St :=
  let r := is_acknowledged o && acknoledge in
  let v := srv s in
  let v' := if r then set_pending v (set_add (not_acknoledged v) (a, o)) else v in
  log (with_srv s v') (Sent a o r).

(** [send_to_all(obj)] *)
Definition send_to_all (o : Obj) (s : St) : St :=
  fold_left (fun s a => send_to a o true s) (clients (srv s)) s.

Definition perform (acts : list Action) (s : St) : St :=
  fold_left (fun s act =>
               match act with
               | SendTo a o => send_to a o true s
               | SendToAll o => send_to_all o s
               end) acts s.

(** A hook call: the subclass state it leaves, then its sends. *)
Definition run_hook (r : option (Sub * list Action)) (s : St) : option St :=
  match r with
  | Some (u, acts) => Some (perform acts (with_sub s u))
  | None => None
  end.

(** [_handle_message(address, data)] at time [now]. *)
Definition handle_message (a : Addr) (data : list byte) (now : float) (s : St) : option St :=
  let s1 := with_srv s (set_timeouts (srv s) (PyDict.set addr_eqb (timeouts (srv s)) a now)) in
  match pickle_loads pickle_decode data with
  | None => None
  | Some (OAcknowledge o) =>
      (* [set.remove] hashes [(address, obj.obj)] first: a [TypeError]
         there is not caught by [except KeyError]. *)
      if negb (hashable o) then None else
      match set_remove (not_acknoledged (srv s1)) (a, o) with
      | Some p => Some (log (with_srv s1 (set_pending (srv s1) p)) (Acked a o))
      | None => Some s1
      end
  | Some obj => run_hook (on_handle hooks (sub s1) a obj) (log s1 (Handled a obj))
  end.

(** [_handle_connect(address, data)] *)
Definition handle_connect (a : Addr) (data : list byte) (now : float) (s : St) : option St :=
  let s1 := with_srv s (set_clients (srv s) (clients (srv s) ++ [a])) in
  let* s2 := run_hook (on_connect hooks (sub s1) a) (log s1 (Connected a)) in
  handle_message a data now s2.

(** [_handle_messages()]: each queued datagram with the [time.time()] at
    which it is handled; the end of the list is [BlockingIOError]. *)
Fixpoint handle_messages (inbox : list (float * Recv)) (s : St) : option St :=
  match inbox with
  | [] => Some s
  | (_, ConnectionReset) :: rest => handle_messages rest s
  | (now, Datagram data a) :: rest =>
      if startswith data PROTOCOL_HEADER then
        let body := removeprefix data PROTOCOL_HEADER in
        let* s1 := (if existsb (addr_eqb a) (clients (srv s))
                    then handle_message a body now s
                    else handle_connect a body now s) in
        handle_messages rest s1
      else handle_messages rest s
  end.

(** [_handle_disconnect(address)] *)
Definition handle_disconnect (a : Addr) (s : St) : option St :=
  match list_remove (clients (srv s)) a with
  | None => None
  | Some cl =>
      match PyDict.del addr_eqb (timeouts (srv s)) a with
      | None => None
      | Some tm =>
          let s1 := with_srv s (set_timeouts (set_clients (srv s) cl) tm) in
          run_hook (on_disconnect hooks (sub s1) a) (log s1 (Disconnected a))
      end
  end.

(** The loop of [_check_disconnects] over [list(self.timeouts.items())]. *)
Fixpoint disconnect_expired (now : float) (entries : list (Addr * float)) (s : St) : option St :=
  match entries with
  | [] => Some s
  | (a, last_active) :: rest =>
      if client_timeout (srv s) <? now - last_active
      then let* s1 := handle_disconnect a s in disconnect_expired now rest s1
      else disconnect_expired now rest s
  end.

(** [_check_disconnects()], [time.time()] being [now]. *)
Definition check_disconnects (now : float) (s : St) : option St :=
  disconnect_expired now (timeouts (srv s)) s.

(** [Server.update()]: resend every pending entry with [acknoledge=False];
    then what the subclass's [update] adds after [super().update()]. *)
Definition update (deltatime : float) (s : St) : option St :=
  let s1 := fold_left (fun s e => log s (Resent (fst e) (snd e))) (not_acknoledged (srv s)) s in
  run_hook (on_update hooks (sub s1) deltatime) s1.

(** [step()] *)
Definition step (inbox : list (float * Recv)) (now deltatime : float) (s : St) : option St :=
  let* s1 := handle_messages inbox s in
  let* s2 := check_disconnects now s1 in
  update deltatime s2.

(** Successive [step()]s. *)
Fixpoint steps (inputs : list (list (float * Recv) * float * float)) (s : St) : option St :=
  match inputs with
  | [] => Some s
  | (inbox, now, dt) :: rest => let* s1 := step inbox now dt s in steps rest s1
  end.

End Step.

(** [EchoServer]: [handle] rebroadcasts, the other hooks are the defaults. *)
Definition echo_hooks : Hooks (Sub := unit) :=
  mkHooks (fun u _ => Some (u, [])) (fun u _ => Some (u, []))
    (fun u _ o => Some (u, [SendToAll o])) (fun u _ => Some (u, [])).

End Srv.

(** ** [GameServer] *)
Module Game.
Import Commands Net.

(** The attributes [GameServer] adds to [Server]; [counts] are the class
    attributes of the latest-only commands, shared by the whole process. *)
Record GameServer := mkGame {
  next_id : Z;
  address_to_id : list (Addr * Z);
  pressed_keys : list (Z * list Z);
  scope : Scope;
  counts : Counts }.

Definition GameServer_new : GameServer := mkGame 1 [] [] Scope_new Counts_init.

Definition set_scope (g : GameServer) (s : Scope) : GameServer :=
  mkGame (next_id g) (address_to_id g) (pressed_keys g) s (counts g).
Definition set_pressed_keys (g : GameServer) (pk : list (Z * list Z)) : GameServer :=
  mkGame (next_id g) (address_to_id g) pk (scope g) (counts g).
Definition set_counts (g : GameServer) (w : Counts) : GameServer :=
  mkGame (next_id g) (address_to_id g) (pressed_keys g) (scope g) w.

(** [id_of(address)]; [None] is the [KeyError]. *)
Definition id_of (g : GameServer) (a : Addr) : option Z := PyDict.get addr_eqb (address_to_id g) a.

(** [set.add] and [set.discard] on a set of key codes. *)
Definition key_add (ks : list Z) (k : Z) : list Z := if key_in k ks then ks else ks ++ [k].
Definition key_discard (ks : list Z) (k : Z) : list Z := filter (fun k' => negb (Z.eqb k' k)) ks.

(** [handle_connect(new_address)] *)
Definition handle_connect (g : GameServer) (new_address : Addr) : option (GameServer * list Action) :=
  let g1 := mkGame (next_id g + 1) (PyDict.set addr_eqb (address_to_id g) new_address (next_id g))
              (pressed_keys g) (scope g) (counts g) in
  match id_of g1 new_address with
  | None => None
  | Some i =>
      let g2 := set_scope g1 (set_players (scope g1) (PyDict.set Z.eqb (players (scope g1)) i (Player.new i))) in
      let g3 := set_pressed_keys g2 (PyDict.set Z.eqb (pressed_keys g2) i []) in
      Some (g3, [SendTo new_address (OCommand (SetIdCommand i))])
  end.

(** [handle_disconnect(address)]: the [try] stops at the first [KeyError]. *)
Definition handle_disconnect (g : GameServer) (a : Addr) : option (GameServer * list Action) :=
  match id_of g a with
  | None => None
  | Some i =>
      let g1 := match PyDict.del Z.eqb (players (scope g)) i with
                | None => g
                | Some ps =>
                    let g' := set_scope g (set_players (scope g) ps) in
                    match PyDict.del Z.eqb (pressed_keys g') i with
                    | None => g'
                    | Some pk => set_pressed_keys g' pk
                    end
                end in
      Some (g1, [SendToAll (OCommand (RemovePlayerCommand i))])
  end.

(** [handle(address, obj)]; an unknown object raises. *)
Definition handle (g : GameServer) (a : Addr) (obj : Obj) : option (GameServer * list Action) :=
  match id_of g a with
  | None => None
  | Some i =>
      match obj with
      | OKeyDownInput k =>
          match PyDict.get Z.eqb (pressed_keys g) i with
          | None => None
          | Some ks => Some (set_pressed_keys g (PyDict.set Z.eqb (pressed_keys g) i (key_add ks k)), [])
          end
      | OKeyUpInput k =>
          match PyDict.get Z.eqb (pressed_keys g) i with
          | None => None
          | Some ks => Some (set_pressed_keys g (PyDict.set Z.eqb (pressed_keys g) i (key_discard ks k)), [])
          end
      | OPing => Some (g, [])
      | _ => None
      end
  end.

(** "Decrease the size of the circle". *)
Definition shrink (g : GameServer) (deltatime : float) : GameServer * list Action :=
  if 2 <? circle_radius (scope g) then
    let r := circle_radius (scope g) - 0.4 * deltatime in
    let '(w, cmd) := new_SetRadiusCommand (counts g) r in
    (set_counts (set_scope g (set_circle_radius (scope g) r)) w, [SendToAll (OCommand cmd)])
  else (g, []).

(** One iteration of "Update the players" for [id_]. The snapshot
    [list(self.scope.players.items())] holds the player objects themselves,
    so [player] is the current value stored under [id_]. *)
Definition update_player (deltatime : float) (g : GameServer) (id_ : Z) : option (GameServer * list Action) :=
  match PyDict.get Z.eqb (players (scope g)) id_ with
  | None => None
  | Some player =>
      match PyDict.get Z.eqb (pressed_keys g) id_ with
      | None => None
      | Some keys =>
          let p1 := Player.update player keys deltatime in
          let '(p2, ps) := Player.collision p1 (PyDict.set Z.eqb (players (scope g)) id_ p1) in
          let ps' := PyDict.set Z.eqb ps id_ p2 in
          let '(w, cmd) := new_SetPositionCommand (counts g) id_ (Player.position p2)
                             (Player.last_acceleration p2) (Player.velocity p2) in
          let g1 := set_counts (set_scope g (set_players (scope g) ps')) w in
          if circle_radius (scope g1) <? Vec.length (Player.position p2) then
            match PyDict.del Z.eqb ps' id_ with
            | None => None
            | Some ps'' =>
                Some (set_scope g1 (set_players (scope g1) ps''),
                      [SendToAll (OCommand cmd); SendToAll (OCommand (RemovePlayerCommand id_))])
            end
          else Some (g1, [SendToAll (OCommand cmd)])
      end
  end.

Fixpoint update_players (deltatime : float) (ids : list Z) (g : GameServer) : option (GameServer * list Action) :=
  match ids with
  | [] => Some (g, [])
  | i :: rest =>
      match update_player deltatime g i with
      | None => None
      | Some (g1, a1) =>
          match update_players deltatime rest g1 with
          | None => None
          | Some (g2, a2) => Some (g2, a1 ++ a2)
          end
      end
  end.

(** [GameServer.update()] after [super().update()], with
    [deltatime = self.clock.tick() / 1000]. *)
Definition update (g : GameServer) (deltatime : float) : option (GameServer * list Action) :=
  let '(g1, a1) := shrink g deltatime in
  match update_players deltatime (map fst (players (scope g1))) g1 with
  | None => None
  | Some (g2, a2) => Some (g2, a1 ++ a2)
  end.

Definition hooks : Srv.Hooks (Sub := GameServer) :=
  Srv.mkHooks handle_connect handle_disconnect handle update.

End Game.

(** ** The client's receive loop ([main.py], [MainScene.start]) *)
Module ClientLoop.
Import Commands Net.

(** [while cmd := self.client.recive(): cmd.run(self.scope)] over the
    datagrams queued on the client's socket; the end of the list is
    [recvfrom] raising [BlockingIOError], so [recive] returns [None]. Every
    object [recive] returns is truthy (none of the classes defines
    [__bool__] or [__len__]); an object without [run] raises
    [AttributeError]. The result holds the datagrams left queued, the
    class attributes of the latest-only commands, the scope and what the
    loop sent back; [None] is an exception. *)
Fixpoint drain (decode : list byte -> option Obj) (c : Client) (queue : list Recv) (w : Counts) (scope : Scope)
  : option (list Recv * Counts * Scope * list Obj) :=
  match queue with
  | [] => Some ([], w, scope, [])
  | r :: rest =>
      match recive decode c (Some r) with
      | (Raised, _) => None
      | (ReturnedNone, _) => Some (rest, w, scope, [])
      | (Returned (OCommand cmd), sent) =>
          match run w cmd scope with
          | None => None
          | Some (w1, s1) =>
              match drain decode c rest w1 s1 with
              | None => None
              | Some (q, w2, s2, sent') => Some (q, w2, s2, sent ++ sent')
              end
          end
      | (Returned _, _) => None
      end
  end.

(** [cmd.run(scope)] for each command in turn. *)
Fixpoint run_all (w : Counts) (cmds : list Command) (scope : Scope) : option (Counts * Scope) :=
  match cmds with
  | [] => Some (w, scope)
  | cmd :: rest =>
      match run w cmd scope with
      | None => None
      | Some (w1, s1) => run_all w1 rest s1
      end
  end.

(** What [recive] sends back for each of these commands. *)
Definition acks_of (cmds : list Command) : list Obj :=
  flat_map (fun cmd => if is_acknowledged (OCommand cmd) then [OAcknowledge (OCommand cmd)] else []) cmds.

End ClientLoop.

(** The counts of the latest-only commands a list of sends broadcasts. *)
Definition position_counts (acts : list Net.Action) : list nat :=
  flat_map (fun act => match act with
                       | Net.SendToAll (Net.OCommand (Commands.SetPositionCommand n _ _ _ _)) => [n]
                       | _ => []
                       end) acts.

Definition radius_counts (acts : list Net.Action) : list nat :=
  flat_map (fun act => match act with
                       | Net.SendToAll (Net.OCommand (Commands.SetRadiusCommand n _)) => [n]
                       | _ => []
                       end) acts.

(** ** Concrete inputs of the scenarios *)
Module Scenario.
Import Commands Net Game.

(** [bytes == bytes] *)
Fixpoint bytes_eqb (a b : list byte) : bool :=
  match a, b with
  | [], [] => true
  | x :: a', y :: b' => Byte.eqb x y && bytes_eqb a' b'
  | _, _ => false
  end.

(** [pickle.dumps(network.Ping())] as produced by CPython 3.11 (protocol 4). *)
Definition ping_pickle : list byte :=
  map byte_of_Z [128; 4; 149; 23; 0; 0; 0; 0; 0; 0; 0; 140; 7; 110; 101; 116; 119; 111;
                 114; 107; 148; 140; 4; 80; 105; 110; 103; 148; 147; 148; 41; 129; 148; 46]%Z.

(** A [pickle.loads] on non-empty input that knows the pickle of a [Ping]
    and raises on anything else. *)
Definition decode_ping (data : list byte) : option Obj :=
  if bytes_eqb data ping_pickle then Some OPing else None.

(** [Player(i, radius=0.25, position=pos, velocity=vel)] *)
Definition ball (i : Z) (pos vel : Vector2) : Player :=
  Player.mkPlayer i Vec.zero Vec.zero vel pos 325 0.25 50 4 25 0.002 false Vec.zero.

(** Successive [GameServer.update()] ticks with the given [deltatime]s. *)
Fixpoint run_updates (g : GameServer) (dts : list float) : option (GameServer * list Action) :=
  match dts with
  | [] => Some (g, [])
  | dt :: rest =>
      match update g dt with
      | None => None
      | Some (g1, a1) =>
          match run_updates g1 rest with
          | None => None
          | Some (g2, a2) => Some (g2, a1 ++ a2)
          end
      end
  end.

(** The radii of the [SetRadiusCommand]s broadcast. *)
Definition radius_broadcasts (acts : list Action) : list float :=
  flat_map (fun a => match a with
                     | SendToAll (OCommand (SetRadiusCommand _ r)) => [r]
                     | _ => []
                     end) acts.

(** The last broadcast radius after the given ticks from a fresh server. *)
Definition last_radius_broadcast (dts : list float) : option float :=
  match run_updates GameServer_new dts with
  | Some (_, acts) => last (map Some (radius_broadcasts acts)) None
  | None => None
  end.

(** A server with two connected players: id 1 at the origin pressing [d],
    id 2 at (0.4, 0) pressing nothing, both at rest. *)
Definition two_players : GameServer :=
  mkGame 3 [(mkAddr "10.0.0.2" 5000, 1%Z); (mkAddr "10.0.0.3" 5000, 2%Z)]
    [(1%Z, [K_d]); (2%Z, [])]
    (mkScope None 20 [(1%Z, Player.new 1);
                      (2%Z, Player.set_kinematics (Player.new 2) Vec.zero Vec.zero Vec.zero (Vec.V2 0.4 0))])
    Counts_init.

End Scenario.

(** * Properties *)
Import Commands Net.

(** ** Latest-only commands *)

Lemma run_latest_only_skip (w : Counts) (c : Command) (scope : Scope) :
  is_latest_only c = true -> (count_of c < max_count_of w c)%nat -> run w c scope = Some (w, scope).
Proof.
  intros Hl Hlt; destruct c; try discriminate; simpl in *;
    replace (Nat.leb _ _) with false by (symmetry; apply Nat.leb_gt; lia); reflexivity.
Qed.

Lemma run_latest_only_apply (w : Counts) (c : Command) (scope : Scope) :
  is_latest_only c = true -> (max_count_of w c <= count_of c)%nat ->
  run w c scope = option_map (pair (set_max_count_of w c (count_of c))) (run_body c scope).
Proof.
  intros Hl Hle; destruct c; try discriminate; simpl in *;
    replace (Nat.leb _ _) with true by (symmetry; apply Nat.leb_le; lia); reflexivity.
Qed.

Lemma run_body_latest_only_total (c : Command) (scope : Scope) :
  is_latest_only c = true -> exists s', run_body c scope = Some s'.
Proof. destruct c; try discriminate; intros _; simpl; eauto. Qed.

(** C1: for a latest-only class ([SetRadiusCommand] or
    [SetPositionCommand]), applying the instance numbered 7 and then an
    instance of the same class numbered 5 leaves exactly the state the
    instance 7 alone produces (from a watermark at most 7); in general [run]
    does nothing when the number is below the class's watermark and
    otherwise raises the watermark to the number and runs the body. *)
Theorem latest_only_ordering (w : Counts) (c7 c5 : Command) (scope : Scope) :
  is_latest_only c7 = true -> same_class c7 c5 = true ->
  count_of c7 = 7%nat -> count_of c5 = 5%nat -> (max_count_of w c7 <= 7)%nat ->
  (exists s7, run_body c7 scope = Some s7 /\
     run w c7 scope = Some (set_max_count_of w c7 7, s7) /\
     (match run w c7 scope with Some (w1, s1) => run w1 c5 s1 | None => None end)
       = Some (set_max_count_of w c7 7, s7))
  /\ (forall w' c s, is_latest_only c = true ->
        ((count_of c < max_count_of w' c)%nat -> run w' c s = Some (w', s)) /\
        ((max_count_of w' c <= count_of c)%nat ->
           run w' c s = option_map (pair (set_max_count_of w' c (count_of c))) (run_body c s))).
Proof.
  intros Hl Hsame H7 H5 Hw. split.
  - destruct (run_body_latest_only_total c7 scope Hl) as [s7 Hs7].
    exists s7. split; [exact Hs7 |].
    assert (Hrun : run w c7 scope = Some (set_max_count_of w c7 7, s7)).
    { rewrite run_latest_only_apply by (auto; lia). rewrite Hs7, H7. reflexivity. }
    split; [exact Hrun |]. rewrite Hrun.
    apply run_latest_only_skip.
    + destruct c7, c5; try discriminate; reflexivity.
    + destruct c7, c5; try discriminate; simpl in *; lia.
  - intros w' c s Hc. split; intros; [apply run_latest_only_skip | apply run_latest_only_apply]; auto.
Qed.

Lemma latest_only_ordering_witness :
  (is_latest_only (SetRadiusCommand 7 3) = true
   /\ same_class (SetRadiusCommand 7 3) (SetRadiusCommand 5 4) = true
   /\ count_of (SetRadiusCommand 7 3) = 7%nat /\ count_of (SetRadiusCommand 5 4) = 5%nat
   /\ (max_count_of Counts_init (SetRadiusCommand 7 3) <= 7)%nat)
  /\ exists s7, run_body (SetRadiusCommand 7 3) Scope_new = Some s7
     /\ run Counts_init (SetRadiusCommand 7 3) Scope_new
        = Some (set_max_count_of Counts_init (SetRadiusCommand 7 3) 7, s7)
     /\ (match run Counts_init (SetRadiusCommand 7 3) Scope_new with
         | Some (w1, s1) => run w1 (SetRadiusCommand 5 4) s1 | None => None end)
        = Some (set_max_count_of Counts_init (SetRadiusCommand 7 3) 7, s7).
Proof.
  split; [repeat split; vm_compute; lia |].
  apply (latest_only_ordering Counts_init (SetRadiusCommand 7 3) (SetRadiusCommand 5 4) Scope_new);
    vm_compute; first [reflexivity | lia].
Defined.

(** ** [RemovePlayerCommand] *)

(** C4: [RemovePlayerCommand(id).run(scope)] deletes the player stored at
    [id] when there is one; when there is none it raises [KeyError]. *)
Theorem remove_player_absent_raises (w : Counts) (i : Z) (scope : Scope) :
  PyDict.mem Z.eqb (players scope) i = false ->
  run w (RemovePlayerCommand i) scope = None.
Proof.
  unfold PyDict.mem. destruct scope as [sid r ps]; simpl.
  induction ps as [| [k v] ps IH]; simpl; auto.
  destruct (Z.eqb k i); [discriminate |]. intros H. specialize (IH H).
  destruct (PyDict.del Z.eqb ps i); [discriminate | reflexivity].
Qed.

Lemma remove_player_absent_raises_witness :
  PyDict.mem Z.eqb (players Scope_new) 1%Z = false
  /\ run Counts_init (RemovePlayerCommand 1) Scope_new = None.
Proof.
  split; [vm_compute; reflexivity |].
  apply (remove_player_absent_raises Counts_init 1 Scope_new); vm_compute; reflexivity.
Defined.

(** ** Collision *)

(** C9: two balls of mass 50 and radius 0.25, the first at (0, 0) moving
    at (+2, 0), the second at (0.4, 0) moving at (-2, 0): the [collision]
    pass of the one with the larger id swaps the two velocities (both
    computed from the velocities before the exchange) while the pass of the
    one with the smaller id changes nothing. *)
Theorem collision_equal_mass_swap (a b : Z) :
  (a <> b)%Z ->
  let first := Scenario.ball a (Vec.V2 0 0) (Vec.V2 2 0) in
  let second := Scenario.ball b (Vec.V2 0.4 0) (Vec.V2 (-2) 0) in
  let dict := [(a, first); (b, second)] in
  ((a < b)%Z ->
     Player.collision second dict = (Player.set_velocity second (Vec.V2 2 0),
                                     [(a, Player.set_velocity first (Vec.V2 (-2) 0)); (b, second)])
     /\ Player.collision first dict = (first, dict))
  /\ ((b < a)%Z ->
     Player.collision first dict = (Player.set_velocity first (Vec.V2 (-2) 0),
                                    [(a, first); (b, Player.set_velocity second (Vec.V2 2 0))])
     /\ Player.collision second dict = (second, dict)).
Proof.
  intros Hne; cbv zeta.
  unfold Player.collision, Player.collides, Player.exchange, Player.set_velocity,
    Player.set_kinematics, Scenario.ball.
  split; intros Hlt.
  - assert (E1 : (a <? b)%Z = true) by (apply Z.ltb_lt; lia).
    assert (E2 : (b <? a)%Z = false) by (apply Z.ltb_ge; lia).
    do 3 (cbn -[Z.ltb]; rewrite ?E1, ?E2, ?Z.ltb_irrefl).
    split; reflexivity.
  - assert (E1 : (a <? b)%Z = false) by (apply Z.ltb_ge; lia).
    assert (E2 : (b <? a)%Z = true) by (apply Z.ltb_lt; lia).
    do 3 (cbn -[Z.ltb]; rewrite ?E1, ?E2, ?Z.ltb_irrefl).
    split; reflexivity.
Qed.

Lemma collision_equal_mass_swap_witness :
  (1 <> 2)%Z
  /\ Player.collision (Scenario.ball 2 (Vec.V2 0.4 0) (Vec.V2 (-2) 0))
       [(1%Z, Scenario.ball 1 (Vec.V2 0 0) (Vec.V2 2 0)); (2%Z, Scenario.ball 2 (Vec.V2 0.4 0) (Vec.V2 (-2) 0))]
     = (Player.set_velocity (Scenario.ball 2 (Vec.V2 0.4 0) (Vec.V2 (-2) 0)) (Vec.V2 2 0),
        [(1%Z, Player.set_velocity (Scenario.ball 1 (Vec.V2 0 0) (Vec.V2 2 0)) (Vec.V2 (-2) 0));
         (2%Z, Scenario.ball 2 (Vec.V2 0.4 0) (Vec.V2 (-2) 0))]).
Proof.
  split; [lia |].
  apply (proj1 (collision_equal_mass_swap 1 2 ltac:(lia))); lia.
Defined.

(** ** Arena shrink *)

Lemma update_player_keeps_radius (dt : float) (g g' : Game.GameServer) (i : Z) (acts : list Action) :
  Game.update_player dt g i = Some (g', acts) ->
  circle_radius (Game.scope g') = circle_radius (Game.scope g) /\ Scenario.radius_broadcasts acts = [].
Proof.
  unfold Game.update_player.
  destruct (PyDict.get Z.eqb (players (Game.scope g)) i) as [p |]; [| discriminate].
  destruct (PyDict.get Z.eqb (Game.pressed_keys g) i) as [ks |]; [| discriminate].
  destruct (Player.collision _ _) as [p2 ps].
  cbn [new_SetPositionCommand].
  destruct (_ <? _); [destruct (PyDict.del _ _ _) |]; intros H; inversion H; subst; auto.
Qed.

Lemma update_players_keeps_radius (dt : float) (ids : list Z) :
  forall g g' acts, Game.update_players dt ids g = Some (g', acts) ->
  circle_radius (Game.scope g') = circle_radius (Game.scope g) /\ Scenario.radius_broadcasts acts = [].
Proof.
  induction ids as [| i ids IH]; simpl; intros g g' acts H.
  - inversion H; subst; auto.
  - destruct (Game.update_player dt g i) as [[g1 a1] |] eqn:E1; [| discriminate].
    destruct (Game.update_players dt ids g1) as [[g2 a2] |] eqn:E2; [| discriminate].
    inversion H; subst.
    destruct (update_player_keeps_radius _ _ _ _ _ E1) as [R1 B1].
    destruct (IH _ _ _ E2) as [R2 B2].
    unfold Scenario.radius_broadcasts in *; rewrite flat_map_app, B1, B2.
    split; [congruence | reflexivity].
Qed.

Lemma update_below_floor (g g' : Game.GameServer) (dt : float) (acts : list Action) :
  (2 <? circle_radius (Game.scope g)) = false -> Game.update g dt = Some (g', acts) ->
  circle_radius (Game.scope g') = circle_radius (Game.scope g) /\ Scenario.radius_broadcasts acts = [].
Proof.
  intros Hr; unfold Game.update, Game.shrink; rewrite Hr.
  destruct (Game.update_players _ _ _) as [[g2 a2] |] eqn:E; [| discriminate].
  intros H; inversion H; subst. apply (update_players_keeps_radius _ _ _ _ _ E).
Qed.

Lemma run_updates_below_floor (dts : list float) :
  forall g g' acts, (2 <? circle_radius (Game.scope g)) = false ->
  Scenario.run_updates g dts = Some (g', acts) ->
  circle_radius (Game.scope g') = circle_radius (Game.scope g) /\ Scenario.radius_broadcasts acts = [].
Proof.
  induction dts as [| dt dts IH]; simpl; intros g g' acts Hr H.
  - inversion H; subst; auto.
  - destruct (Game.update g dt) as [[g1 a1] |] eqn:E1; [| discriminate].
    destruct (Scenario.run_updates g1 dts) as [[g2 a2] |] eqn:E2; [| discriminate].
    inversion H; subst.
    destruct (update_below_floor _ _ _ _ Hr E1) as [R1 B1].
    rewrite <- R1 in Hr. destruct (IH _ _ _ Hr E2) as [R2 B2].
    unfold Scenario.radius_broadcasts in *; rewrite flat_map_app, B1, B2.
    split; [congruence | reflexivity].
Qed.

(** C8 (counterexample): ten ticks of one second each, from the initial
    radius 20, broadcast 16.000000000000014 last, not 16. *)
Lemma arena_ten_one_second_ticks_not_16 :
  Scenario.last_radius_broadcast (repeat 1 10) = Some 16.000000000000014
  /\ Scenario.last_radius_broadcast (repeat 1 10) <> Some 16.
Proof.
  split; [vm_compute; reflexivity |].
  vm_compute. intros H; inversion H.
Qed.

(** C8 (amended): a tick whose radius is above 2 replaces it by
    [radius - 0.4 * deltatime], computed in binary64, and broadcasts a
    [SetRadiusCommand] with the new value; a tick whose radius is not above
    2 leaves it and broadcasts no radius, and so do all later ticks. From
    20, ticks totalling 10 seconds give 16 only up to rounding: ten 1-second
    ticks give 16.000000000000014, one 10-second tick gives 16. The last
    decrement is not clamped: one 46-second tick leaves 1.6 (below 2) and
    the next tick broadcasts nothing. *)
Theorem arena_shrink (g : Game.GameServer) (dt : float) :
  ((2 <? circle_radius (Game.scope g)) = true ->
     circle_radius (Game.scope (fst (Game.shrink g dt))) = circle_radius (Game.scope g) - 0.4 * dt
     /\ snd (Game.shrink g dt)
        = [SendToAll (OCommand (SetRadiusCommand (radius_counter (Game.counts g))
                                   (circle_radius (Game.scope g) - 0.4 * dt)))])
  /\ (forall dts g' acts, (2 <? circle_radius (Game.scope g)) = false ->
        Scenario.run_updates g dts = Some (g', acts) ->
        circle_radius (Game.scope g') = circle_radius (Game.scope g)
        /\ Scenario.radius_broadcasts acts = [])
  /\ Scenario.last_radius_broadcast (repeat 1 10) = Some 16.000000000000014
  /\ Scenario.last_radius_broadcast [10] = Some 16
  /\ Scenario.last_radius_broadcast [46] = Some 1.5999999999999979
  /\ Scenario.last_radius_broadcast [46; 1] = Some 1.5999999999999979.
Proof.
  split; [| split; [intros; eapply run_updates_below_floor; eauto |]].
  - intros Hr; unfold Game.shrink; rewrite Hr; split; reflexivity.
  - repeat split; vm_compute; reflexivity.
Qed.

(** ** Receive paths *)

Lemma handle_messages_skip_foreign {Sub : Type} (decode : list byte -> option Obj)
    (hooks : Srv.Hooks (Sub := Sub)) (s : Srv.St) (t : float) (data : list byte) (a : Addr)
    (rest : list (float * Recv)) :
  startswith data PROTOCOL_HEADER = false ->
  Srv.handle_messages decode hooks ((t, Datagram data a) :: rest) s
  = Srv.handle_messages decode hooks rest s.
Proof. intros H; simpl; rewrite H; reflexivity. Qed.

Lemma handle_message_undecodable {Sub : Type} (decode : list byte -> option Obj)
    (hooks : Srv.Hooks (Sub := Sub)) (s : Srv.St) (t : float) (body : list byte) (a : Addr) :
  pickle_loads decode body = None -> Srv.handle_message decode hooks a body t s = None.
Proof. intros H; unfold Srv.handle_message; rewrite H; reflexivity. Qed.

Lemma handle_messages_undecodable {Sub : Type} (decode : list byte -> option Obj)
    (hooks : Srv.Hooks (Sub := Sub)) (s : Srv.St) (t : float) (data : list byte) (a : Addr)
    (rest : list (float * Recv)) :
  startswith data PROTOCOL_HEADER = true ->
  pickle_loads decode (removeprefix data PROTOCOL_HEADER) = None ->
  Srv.handle_messages decode hooks ((t, Datagram data a) :: rest) s = None.
Proof.
  intros Hh Hd; simpl; rewrite Hh.
  destruct (existsb _ _).
  - rewrite handle_message_undecodable by exact Hd; reflexivity.
  - unfold Srv.handle_connect, Srv.bind.
    destruct (Srv.run_hook _ _) as [s2 |]; [| reflexivity].
    rewrite handle_message_undecodable by exact Hd; reflexivity.
Qed.

(** C5 (counterexample): the bare 4-byte header, from the expected peer:
    [pickle.loads(b'')] raises [EOFError] out of [Client.recive], and out of
    [Server.step] (here an [EchoServer]). *)
Lemma bare_header_raises :
  recive Scenario.decode_ping (mkClient "127.0.0.1")
    (Some (Datagram PROTOCOL_HEADER (mkAddr "127.0.0.1" PORT))) = (Raised, [])
  /\ Srv.step Scenario.decode_ping Srv.echo_hooks
       [(0, Datagram PROTOCOL_HEADER (mkAddr "127.0.0.1" 50000))] 0 0
       (Srv.mkSt Server_new tt []) = None.
Proof. split; vm_compute; reflexivity. Qed.

(** C5 (amended): a datagram that does not start with the 4-byte header is
    dropped without an exception: [Client.recive] returns [None] and sends
    nothing, and the server's drain loop goes on with the next datagram,
    state untouched. A datagram that does start with the header goes to
    [pickle.loads] with no exception handling: when the remainder does not
    unpickle, the exception leaves [recive] (from the expected host) and
    the server's drain loop. *)
Theorem foreign_datagrams_dropped {Sub : Type} (decode : list byte -> option Obj)
    (hooks : Srv.Hooks (Sub := Sub)) :
  (forall c data a, startswith data PROTOCOL_HEADER = false ->
     recive decode c (Some (Datagram data a)) = (ReturnedNone, []))
  /\ (forall s t data a rest, startswith data PROTOCOL_HEADER = false ->
     Srv.handle_messages decode hooks ((t, Datagram data a) :: rest) s
     = Srv.handle_messages decode hooks rest s)
  /\ (forall c data a, ip a = host c -> startswith data PROTOCOL_HEADER = true ->
     pickle_loads decode (removeprefix data PROTOCOL_HEADER) = None ->
     recive decode c (Some (Datagram data a)) = (Raised, []))
  /\ (forall s t data a rest, startswith data PROTOCOL_HEADER = true ->
     pickle_loads decode (removeprefix data PROTOCOL_HEADER) = None ->
     Srv.handle_messages decode hooks ((t, Datagram data a) :: rest) s = None).
Proof.
  split; [| split; [| split]].
  - intros c data a H; simpl; rewrite H, andb_false_r; reflexivity.
  - intros; apply handle_messages_skip_foreign; assumption.
  - intros c data a Hip Hh Hd; simpl; rewrite Hip, String.eqb_refl, Hh; simpl; rewrite Hd; reflexivity.
  - intros; apply handle_messages_undecodable; assumption.
Qed.

(** C7 (counterexample): a pickled [Ping] from the configured host but from
    port 40000, not the server's port 39311, is returned. *)
Lemma recive_accepts_other_port :
  recive Scenario.decode_ping (mkClient "10.0.0.5")
    (Some (Datagram (PROTOCOL_HEADER ++ Scenario.ping_pickle) (mkAddr "10.0.0.5" 40000)))
  = (Returned OPing, [])
  /\ PORT <> 40000%Z.
Proof. split; [vm_compute; reflexivity | discriminate]. Qed.

(** C7 (amended): [Client.recive] on its non-blocking socket returns a
    payload only for a queued datagram whose source IP string equals the
    configured host and which starts with the header, the payload being the
    unpickled remainder; the source port is not looked at. A datagram from
    another IP is dropped ([None]), and so is one without the header; with
    nothing queued it returns [None]. *)
Theorem recive_origin_check (decode : list byte -> option Obj) (c : Client) :
  (forall q o, fst (recive decode c q) = Returned o ->
     exists data a, q = Some (Datagram data a) /\ ip a = host c
       /\ startswith data PROTOCOL_HEADER = true
       /\ pickle_loads decode (removeprefix data PROTOCOL_HEADER) = Some o)
  /\ recive decode c None = (ReturnedNone, [])
  /\ (forall data a, ip a <> host c -> recive decode c (Some (Datagram data a)) = (ReturnedNone, []))
  /\ (forall data a, startswith data PROTOCOL_HEADER = false ->
        recive decode c (Some (Datagram data a)) = (ReturnedNone, []))
  /\ (forall data p1 p2, recive decode c (Some (Datagram data (mkAddr (host c) p1)))
                       = recive decode c (Some (Datagram data (mkAddr (host c) p2)))).
Proof.
  split; [| split; [reflexivity | split]].
  - intros [[data a |] |] o; simpl; try discriminate.
    destruct (String.eqb (ip a) (host c)) eqn:Eip; simpl; [| discriminate].
    destruct (startswith data PROTOCOL_HEADER) eqn:Eh; simpl; [| discriminate].
    destruct (pickle_loads decode (removeprefix data PROTOCOL_HEADER)) eqn:Ed; simpl; [| discriminate].
    intros H; inversion H; subst.
    exists data, a. apply String.eqb_eq in Eip. auto.
  - intros data a Hne; simpl.
    destruct (String.eqb (ip a) (host c)) eqn:Eip; [apply String.eqb_eq in Eip; contradiction | reflexivity].
  - split.
    + intros data a H; simpl; rewrite H, andb_false_r; reflexivity.
    + intros; reflexivity.
Qed.

(** ** Lemmas on the dict model *)
Module PyDictFacts.
Section Facts.
Context {K V : Type} (keqb : K -> K -> bool).
Hypothesis keqb_spec : forall a b, keqb a b = true <-> a = b.

Lemma keqb_refl (a : K) : keqb a a = true.
Proof. apply keqb_spec; reflexivity. Qed.

Lemma keqb_neq (a b : K) : a <> b -> keqb a b = false.
Proof. intros H; destruct (keqb a b) eqn:E; auto. apply keqb_spec in E; contradiction. Qed.

Lemma mem_in (d : list (K * V)) (k : K) : PyDict.mem keqb d k = true <-> In k (map fst d).
Proof.
  unfold PyDict.mem; induction d as [| [k' v] d IH]; simpl.
  - split; [discriminate | tauto].
  - destruct (keqb k' k) eqn:E.
    + apply keqb_spec in E; subst; tauto.
    + rewrite IH. split; [tauto |]. intros [H | H]; auto. subst; rewrite keqb_refl in E; discriminate.
Qed.

Lemma get_set_eq (d : list (K * V)) (k : K) (v : V) : PyDict.get keqb (PyDict.set keqb d k v) k = Some v.
Proof.
  induction d as [| [k' v'] d IH]; simpl.
  - rewrite keqb_refl; reflexivity.
  - destruct (keqb k' k) eqn:E; simpl; rewrite E; auto.
Qed.

Lemma get_set_ne (d : list (K * V)) (k j : K) (v : V) :
  k <> j -> PyDict.get keqb (PyDict.set keqb d k v) j = PyDict.get keqb d j.
Proof.
  intros Hne; induction d as [| [k' v'] d IH]; simpl.
  - rewrite keqb_neq by auto; reflexivity.
  - destruct (keqb k' k) eqn:E; simpl.
    + apply keqb_spec in E; subst. rewrite keqb_neq by auto. reflexivity.
    + destruct (keqb k' j); auto.
Qed.

Lemma keys_set (d : list (K * V)) (k : K) (v : V) :
  map fst (PyDict.set keqb d k v) = if PyDict.mem keqb d k then map fst d else map fst d ++ [k].
Proof.
  unfold PyDict.mem; induction d as [| [k' v'] d IH]; simpl; auto.
  destruct (keqb k' k) eqn:E; simpl.
  - apply keqb_spec in E; subst; reflexivity.
  - rewrite IH; destruct (PyDict.get keqb d k); reflexivity.
Qed.

Lemma get_del_ne (d d' : list (K * V)) (k j : K) :
  PyDict.del keqb d k = Some d' -> k <> j -> PyDict.get keqb d' j = PyDict.get keqb d j.
Proof.
  revert d'; induction d as [| [k' v'] d IH]; simpl; intros d' H Hne; [discriminate |].
  destruct (keqb k' k) eqn:E.
  - inversion H; subst. apply keqb_spec in E; subst. rewrite keqb_neq by auto. reflexivity.
  - destruct (PyDict.del keqb d k) as [d0 |] eqn:Ed; simpl in H; [| discriminate].
    inversion H; subst; simpl. destruct (keqb k' j); auto.
Qed.

Lemma del_keys (d d' : list (K * V)) (k : K) :
  PyDict.del keqb d k = Some d' ->
  exists l1 l2, map fst d = l1 ++ k :: l2 /\ map fst d' = l1 ++ l2.
Proof.
  revert d'; induction d as [| [k' v'] d IH]; simpl; intros d' H; [discriminate |].
  destruct (keqb k' k) eqn:E.
  - inversion H; subst. apply keqb_spec in E; subst. exists [], (map fst d'); auto.
  - destruct (PyDict.del keqb d k) as [d0 |] eqn:Ed; simpl in H; [| discriminate].
    inversion H; subst. destruct (IH d0 eq_refl) as (l1 & l2 & E1 & E2).
    exists (k' :: l1), l2; simpl; rewrite E1, E2; auto.
Qed.

Lemma del_nodup (d d' : list (K * V)) (k : K) :
  NoDup (map fst d) -> PyDict.del keqb d k = Some d' ->
  NoDup (map fst d') /\ PyDict.get keqb d' k = None
  /\ (forall j, In j (map fst d') <-> In j (map fst d) /\ j <> k).
Proof.
  intros Hnd Hd. destruct (del_keys d d' k Hd) as (l1 & l2 & E1 & E2).
  rewrite E1 in Hnd. rewrite E2.
  assert (Hk : ~ In k (l1 ++ l2)) by (apply NoDup_remove_2; exact Hnd).
  split; [apply NoDup_remove_1 in Hnd; exact Hnd |]. split.
  - destruct (PyDict.get keqb d' k) eqn:G; [| reflexivity].
    exfalso; apply Hk. rewrite <- E2. apply mem_in. unfold PyDict.mem; rewrite G; reflexivity.
  - intros j; rewrite E1; split.
    + intros H; split; [apply in_app_or in H; apply in_or_app; simpl; tauto |].
      intros ->; contradiction.
    + intros [H Hne]; apply in_app_or in H; apply in_or_app; simpl in H; intuition congruence.
Qed.

Lemma del_present (d : list (K * V)) (k : K) :
  PyDict.mem keqb d k = true -> exists d', PyDict.del keqb d k = Some d'.
Proof.
  unfold PyDict.mem; induction d as [| [k' v'] d IH]; simpl; [discriminate |].
  destruct (keqb k' k); [eauto |].
  intros H; destruct (IH H) as [d' E]; rewrite E; simpl; eauto.
Qed.

Lemma get_map_values {W : Type} (f : V -> W) (d : list (K * V)) (k : K) :
  PyDict.get keqb (map (fun kv => (fst kv, f (snd kv))) d) k = option_map f (PyDict.get keqb d k).
Proof. induction d as [| [k' v'] d IH]; simpl; auto. destruct (keqb k' k); auto. Qed.

End Facts.
End PyDictFacts.

Lemma Z_eqb_spec' (a b : Z) : Z.eqb a b = true <-> a = b.
Proof. apply Z.eqb_eq. Qed.

Lemma addr_eqb_spec (a b : Addr) : addr_eqb a b = true <-> a = b.
Proof.
  destruct a as [i1 p1], b as [i2 p2]; unfold addr_eqb; simpl.
  rewrite andb_true_iff, String.eqb_eq, Z.eqb_eq. split; [intros [-> ->] | intros H; inversion H]; auto.
Qed.

(** ** What one tick of [GameServer.update] does to positions *)
Module TickFacts.
Import Commands Net.

Abbreviation keys_of ps := (map fst ps).
Abbreviation pos_view ps := (map (fun kv => (fst kv, Player.position (snd kv))) ps).

Lemma exchange_positions (s o : Player) :
  Player.position (fst (Player.exchange s o)) = Player.position s
  /\ Player.position (snd (Player.exchange s o)) = Player.position o.
Proof. split; reflexivity. Qed.

Lemma collision_keys (self : Player) (l : list (Z * Player)) :
  keys_of (snd (Player.collision self l)) = keys_of l.
Proof.
  revert self; induction l as [| [k o] l IH]; intros self; simpl; auto.
  destruct (if Player.collides self o then Player.exchange self o else (self, o)) as [s1 o1].
  specialize (IH s1). destruct (Player.collision s1 l) as [s2 r2]; simpl in *; rewrite IH; auto.
Qed.

Lemma collision_positions (self : Player) (l : list (Z * Player)) :
  Player.position (fst (Player.collision self l)) = Player.position self
  /\ pos_view (snd (Player.collision self l)) = pos_view l.
Proof.
  revert self; induction l as [| [k o] l IH]; intros self; simpl; auto.
  destruct (Player.collides self o) eqn:C.
  - destruct (exchange_positions self o) as [E1 E2].
    destruct (Player.exchange self o) as [s1 o1] eqn:X; simpl in E1, E2.
    specialize (IH s1). destruct (Player.collision s1 l) as [s2 r2]; simpl in *.
    destruct IH as [IH1 IH2]; rewrite IH1, IH2, E1, E2; auto.
  - specialize (IH self). destruct (Player.collision self l) as [s2 r2]; simpl in *.
    destruct IH as [IH1 IH2]; rewrite IH1, IH2; auto.
Qed.

Lemma get_pos (ps : list (Z * Player)) (j : Z) :
  option_map Player.position (PyDict.get Z.eqb ps j) = PyDict.get Z.eqb (pos_view ps) j.
Proof. symmetry; apply (PyDictFacts.get_map_values Z.eqb Player.position). Qed.

Lemma mem_get (ps : list (Z * Player)) (i : Z) (p : Player) :
  PyDict.get Z.eqb ps i = Some p -> PyDict.mem Z.eqb ps i = true.
Proof. unfold PyDict.mem; intros ->; reflexivity. Qed.

(** The pieces of one iteration, named. *)
Lemma update_player_inv (dt : float) (g g1 : Game.GameServer) (i : Z) (a : list Action) :
  Game.update_player dt g i = Some (g1, a) ->
  exists player keys p2 ps,
    PyDict.get Z.eqb (players (Game.scope g)) i = Some player
    /\ PyDict.get Z.eqb (Game.pressed_keys g) i = Some keys
    /\ Player.collision (Player.update player keys dt)
         (PyDict.set Z.eqb (players (Game.scope g)) i (Player.update player keys dt)) = (p2, ps)
    /\ Game.pressed_keys g1 = Game.pressed_keys g
    /\ circle_radius (Game.scope g1) = circle_radius (Game.scope g)
    /\ ((players (Game.scope g1)) = PyDict.set Z.eqb ps i p2
        /\ a = [SendToAll (OCommand (SetPositionCommand (position_counter (Game.counts g)) i
                  (Player.position p2) (Player.last_acceleration p2) (Player.velocity p2)))]
        \/ PyDict.del Z.eqb (PyDict.set Z.eqb ps i p2) i = Some (players (Game.scope g1))
        /\ a = [SendToAll (OCommand (SetPositionCommand (position_counter (Game.counts g)) i
                  (Player.position p2) (Player.last_acceleration p2) (Player.velocity p2)));
                SendToAll (OCommand (RemovePlayerCommand i))]).
Proof.
  unfold Game.update_player.
  destruct (PyDict.get Z.eqb (players (Game.scope g)) i) as [player |]; [| discriminate].
  destruct (PyDict.get Z.eqb (Game.pressed_keys g) i) as [keys |]; [| discriminate].
  destruct (Player.collision _ _) as [p2 ps] eqn:C.
  unfold new_SetPositionCommand; cbn -[Vec.length PyDict.set PyDict.del].
  destruct (circle_radius (Game.scope g) <? Vec.length (Player.position p2)).
  - destruct (PyDict.del Z.eqb (PyDict.set Z.eqb ps i p2) i) as [ps'' |] eqn:D; [| discriminate].
    intros H; inversion H; subst. exists player, keys, p2, ps; repeat split; auto.
  - intros H; inversion H; subst. exists player, keys, p2, ps; repeat split; auto.
Qed.

Lemma update_player_keys (dt : float) (g g1 : Game.GameServer) (i : Z) (a : list Action) :
  NoDup (keys_of (players (Game.scope g))) -> Game.update_player dt g i = Some (g1, a) ->
  NoDup (keys_of (players (Game.scope g1)))
  /\ (forall j, In j (keys_of (players (Game.scope g1))) -> In j (keys_of (players (Game.scope g)))).
Proof.
  intros Hnd H.
  destruct (update_player_inv dt g g1 i a H) as (player & keys & p2 & ps & G & _ & C & _ & _ & Hcase).
  assert (Kps : keys_of ps = keys_of (players (Game.scope g))).
  { pose proof (collision_keys (Player.update player keys dt)
                  (PyDict.set Z.eqb (players (Game.scope g)) i (Player.update player keys dt))) as K.
    rewrite C in K; simpl in K; rewrite K.
    rewrite (PyDictFacts.keys_set Z.eqb Z_eqb_spec'), (mem_get _ _ _ G); reflexivity. }
  assert (Kps' : keys_of (PyDict.set Z.eqb ps i p2) = keys_of (players (Game.scope g))).
  { rewrite (PyDictFacts.keys_set Z.eqb Z_eqb_spec').
    assert (M : PyDict.mem Z.eqb ps i = true).
    { apply (PyDictFacts.mem_in Z.eqb Z_eqb_spec'); rewrite Kps.
      apply (PyDictFacts.mem_in Z.eqb Z_eqb_spec'); exact (mem_get _ _ _ G). }
    rewrite M; exact Kps. }
  destruct Hcase as [[E _] | [D _]].
  - rewrite E, Kps'; auto.
  - rewrite <- Kps' in Hnd.
    destruct (PyDictFacts.del_nodup Z.eqb Z_eqb_spec' _ _ _ Hnd D) as (N & _ & Hin).
    split; [exact N |]. intros j Hj; apply Hin in Hj; rewrite <- Kps'; tauto.
Qed.

(** Another player's iteration moves no one else. *)
Lemma update_player_other_positions (dt : float) (g g1 : Game.GameServer) (i j : Z) (a : list Action) :
  Game.update_player dt g i = Some (g1, a) -> i <> j ->
  option_map Player.position (PyDict.get Z.eqb (players (Game.scope g1)) j)
  = option_map Player.position (PyDict.get Z.eqb (players (Game.scope g)) j).
Proof.
  intros H Hne.
  destruct (update_player_inv dt g g1 i a H) as (player & keys & p2 & ps & G & _ & C & _ & _ & Hcase).
  assert (Eps : option_map Player.position (PyDict.get Z.eqb ps j)
                = option_map Player.position (PyDict.get Z.eqb (players (Game.scope g)) j)).
  { rewrite !get_pos.
    pose proof (collision_positions (Player.update player keys dt)
                  (PyDict.set Z.eqb (players (Game.scope g)) i (Player.update player keys dt))) as [_ P].
    rewrite C in P; simpl in P; rewrite P, <- get_pos, <- get_pos.
    rewrite (PyDictFacts.get_set_ne Z.eqb Z_eqb_spec') by exact Hne; reflexivity. }
  destruct Hcase as [[E _] | [D _]].
  - rewrite E, (PyDictFacts.get_set_ne Z.eqb Z_eqb_spec') by exact Hne; exact Eps.
  - rewrite (PyDictFacts.get_del_ne Z.eqb Z_eqb_spec' _ _ _ _ D Hne).
    rewrite (PyDictFacts.get_set_ne Z.eqb Z_eqb_spec') by exact Hne; exact Eps.
Qed.

(** The broadcast of an iteration is the state it leaves under [id_]. *)
Lemma update_player_broadcast (dt : float) (g g1 : Game.GameServer) (i : Z) (a : list Action) :
  NoDup (keys_of (players (Game.scope g))) -> Game.update_player dt g i = Some (g1, a) ->
  forall n j pos acc vel,
    In (SendToAll (OCommand (SetPositionCommand n j pos acc vel))) a ->
    j = i /\ forall p, PyDict.get Z.eqb (players (Game.scope g1)) i = Some p ->
                       Player.position p = pos /\ Player.velocity p = vel.
Proof.
  intros Hnd H n j pos acc vel Hin.
  pose proof (update_player_keys dt g g1 i a Hnd H) as [Hnd1 _].
  destruct (update_player_inv dt g g1 i a H) as (player & keys & p2 & ps & G & _ & C & _ & _ & Hcase).
  destruct Hcase as [[E A] | [D A]]; subst a.
  - destruct Hin as [Hin | []].
    assert (j = i /\ pos = Player.position p2 /\ vel = Player.velocity p2) as (-> & -> & ->)
      by (inversion Hin; auto).
    split; [reflexivity |]. intros p; rewrite E, (PyDictFacts.get_set_eq Z.eqb Z_eqb_spec').
    intros Hp; inversion Hp; auto.
  - assert (j = i) as -> by (destruct Hin as [Hin | [Hin | []]]; inversion Hin; auto).
    split; [reflexivity |]. intros p.
    assert (Kps : NoDup (keys_of (PyDict.set Z.eqb ps i p2))).
    { rewrite (PyDictFacts.keys_set Z.eqb Z_eqb_spec').
      pose proof (collision_keys (Player.update player keys dt)
                    (PyDict.set Z.eqb (players (Game.scope g)) i (Player.update player keys dt))) as K.
      rewrite C in K; simpl in K.
      assert (M : PyDict.mem Z.eqb ps i = true).
      { apply (PyDictFacts.mem_in Z.eqb Z_eqb_spec'); rewrite K.
        rewrite (PyDictFacts.keys_set Z.eqb Z_eqb_spec'), (mem_get _ _ _ G).
        apply (PyDictFacts.mem_in Z.eqb Z_eqb_spec'); exact (mem_get _ _ _ G). }
      rewrite M, K, (PyDictFacts.keys_set Z.eqb Z_eqb_spec'), (mem_get _ _ _ G); exact Hnd. }
    destruct (PyDictFacts.del_nodup Z.eqb Z_eqb_spec' _ _ _ Kps D) as (_ & N & _).
    rewrite N; discriminate.
Qed.

Lemma update_player_sends_only_own (dt : float) (g g1 : Game.GameServer) (i : Z) (a : list Action) :
  Game.update_player dt g i = Some (g1, a) ->
  forall n j pos acc vel, In (SendToAll (OCommand (SetPositionCommand n j pos acc vel))) a -> j = i.
Proof.
  intros H n j pos acc vel Hin.
  destruct (update_player_inv dt g g1 i a H) as (player & keys & p2 & ps & _ & _ & _ & _ & _ & Hcase).
  destruct Hcase as [[_ A] | [_ A]]; subst a; simpl in Hin;
    intuition (try discriminate); match goal with E : _ = _ |- _ => inversion E; auto end.
Qed.

Lemma update_players_other_positions (dt : float) (ids : list Z) (g g' : Game.GameServer)
      (a : list Action) (j : Z) :
  Game.update_players dt ids g = Some (g', a) -> ~ In j ids ->
  option_map Player.position (PyDict.get Z.eqb (players (Game.scope g')) j)
  = option_map Player.position (PyDict.get Z.eqb (players (Game.scope g)) j).
Proof.
  revert g a; induction ids as [| i ids IH]; simpl; intros g a H Hj.
  - inversion H; reflexivity.
  - destruct (Game.update_player dt g i) as [[g1 a1] |] eqn:U; [| discriminate].
    destruct (Game.update_players dt ids g1) as [[g2 a2] |] eqn:R; [| discriminate].
    inversion H; subst.
    rewrite (IH g1 a2 R (fun h => Hj (or_intror h))).
    apply (update_player_other_positions dt g g1 i j a1 U); intros ->; auto.
Qed.

Lemma update_players_broadcast (dt : float) (ids : list Z) (g g' : Game.GameServer) (a : list Action) :
  NoDup ids -> NoDup (keys_of (players (Game.scope g))) ->
  Game.update_players dt ids g = Some (g', a) ->
  forall n j pos acc vel,
    In (SendToAll (OCommand (SetPositionCommand n j pos acc vel))) a ->
    In j ids /\ forall p, PyDict.get Z.eqb (players (Game.scope g')) j = Some p -> Player.position p = pos.
Proof.
  revert g a; induction ids as [| i ids IH]; simpl; intros g a Hids Hnd H n j pos acc vel Hin.
  - inversion H; subst; destruct Hin.
  - destruct (Game.update_player dt g i) as [[g1 a1] |] eqn:U; [| discriminate].
    destruct (Game.update_players dt ids g1) as [[g2 a2] |] eqn:R; [| discriminate].
    inversion H; subst. inversion Hids as [| ? ? Hi Hids']; subst.
    pose proof (update_player_keys dt g g1 i a1 Hnd U) as [Hnd1 _].
    apply in_app_or in Hin; destruct Hin as [Hin | Hin].
    + destruct (update_player_broadcast dt g g1 i a1 Hnd U n j pos acc vel Hin) as [-> Hp].
      split; [auto |]. intros p Gp.
      pose proof (update_players_other_positions dt ids g1 g' a2 i R Hi) as E.
      rewrite Gp in E. destruct (PyDict.get Z.eqb (players (Game.scope g1)) i) as [q |] eqn:Gq;
        [| discriminate].
      inversion E as [E']; rewrite E'; apply (Hp q eq_refl).
    + destruct (IH g1 a2 Hids' Hnd1 R n j pos acc vel Hin) as [Hj Hp]; auto.
Qed.

Lemma shrink_sends_radius_only (g g1 : Game.GameServer) (dt : float) (a : list Action) :
  Game.shrink g dt = (g1, a) ->
  players (Game.scope g1) = players (Game.scope g)
  /\ forall n j pos acc vel, ~ In (SendToAll (OCommand (SetPositionCommand n j pos acc vel))) a.
Proof.
  unfold Game.shrink; destruct (2 <? circle_radius (Game.scope g)); intros H; inversion H; subst;
    split; auto; simpl; intros n j pos acc vel Hin; intuition discriminate.
Qed.
End TickFacts.

(** *** C6: what a [SetPositionCommand] broadcast carries *)

(** C6, counterexample. In [Scenario.two_players], player 1 (pressing [d])
    hits player 2 during its own iteration, so its broadcast carries the
    velocity (0.65, 0); player 2's iteration then swaps the velocities
    back, so player 1 ends the tick at rest. The acceleration field carries
    [last_acceleration] = (0, 0), while the acceleration computed in this
    tick is (6.5, 0): [physics] never writes [last_acceleration]. *)
Lemma broadcast_velocity_not_end_of_tick :
  match Game.update Scenario.two_players 0.1 with
  | Some (g', acts) =>
      In (SendToAll (OCommand (SetPositionCommand 0%nat 1%Z (Vec.V2 0.065000000000000002 0)
                                 (Vec.V2 0 0) (Vec.V2 0.65000000000000002 0)))) acts
      /\ option_map Player.velocity (PyDict.get Z.eqb (players (Game.scope g')) 1%Z)
         = Some (Vec.V2 0 0)
      /\ option_map Player.acceleration (PyDict.get Z.eqb (players (Game.scope g')) 1%Z)
         = Some (Vec.V2 6.5 0)
  | None => False
  end.
Proof. vm_compute. split; [right; left; reflexivity | split; reflexivity]. Qed.

(** C6 (amended). Over one tick [Game.update g dt] on a dict with distinct
    keys, every [SetPositionCommand] broadcast for player [i] carries the
    position [i] has at the end of the tick, if [i] is still present.
    Within [i]'s own iteration the broadcast position and velocity are
    those of [i] right after its own [Player.update] (physics) and its own
    [collision] pass, which is also what the dict then holds under [i]
    (nothing, when [i] was eliminated). The acceleration field is not
    characterised. *)
Theorem setposition_broadcast (dt : float) :
  (forall g g' acts,
     NoDup (map fst (players (Game.scope g))) ->
     Game.update g dt = Some (g', acts) ->
     forall n i pos acc vel,
       In (SendToAll (OCommand (SetPositionCommand n i pos acc vel))) acts ->
       forall p, PyDict.get Z.eqb (players (Game.scope g')) i = Some p -> Player.position p = pos)
  /\ (forall g i g1 a,
        NoDup (map fst (players (Game.scope g))) ->
        Game.update_player dt g i = Some (g1, a) ->
        forall n j pos acc vel,
          In (SendToAll (OCommand (SetPositionCommand n j pos acc vel))) a ->
          j = i
          /\ (exists player keys,
                PyDict.get Z.eqb (players (Game.scope g)) i = Some player
                /\ PyDict.get Z.eqb (Game.pressed_keys g) i = Some keys
                /\ let p1 := Player.update player keys dt in
                   let p2 := fst (Player.collision p1 (PyDict.set Z.eqb (players (Game.scope g)) i p1)) in
                   pos = Player.position p2 /\ vel = Player.velocity p2)
          /\ forall p, PyDict.get Z.eqb (players (Game.scope g1)) i = Some p ->
                       Player.position p = pos /\ Player.velocity p = vel).
Proof.
  split.
  - intros g g' acts Hnd H n i pos acc vel Hin p Gp.
    unfold Game.update in H.
    destruct (Game.shrink g dt) as [g1 a1] eqn:S.
    destruct (TickFacts.shrink_sends_radius_only g g1 dt a1 S) as [P1 No].
    destruct (Game.update_players dt (map fst (players (Game.scope g1))) g1) as [[g2 a2] |] eqn:U;
      [| discriminate].
    inversion H; subst.
    apply in_app_or in Hin; destruct Hin as [Hin | Hin]; [exfalso; exact (No _ _ _ _ _ Hin) |].
    rewrite <- P1 in Hnd.
    exact (proj2 (TickFacts.update_players_broadcast dt _ g1 g' a2 Hnd Hnd U n i pos acc vel Hin) p Gp).
  - intros g i g1 a Hnd H n j pos acc vel Hin.
    destruct (TickFacts.update_player_broadcast dt g g1 i a Hnd H n j pos acc vel Hin) as [-> Hp].
    split; [reflexivity |]. split; [| exact Hp].
    destruct (TickFacts.update_player_inv dt g g1 i a H)
      as (player & keys & p2 & ps & G & K & C & _ & _ & Hcase).
    exists player, keys; split; [exact G |]; split; [exact K |]; cbv zeta; rewrite C; simpl.
    destruct Hcase as [[_ A] | [_ A]]; subst a; simpl in Hin;
      destruct Hin as [Hin | Hin]; try (inversion Hin; auto; fail);
      destruct Hin as [Hin | []]; discriminate.
Qed.

(** C6, an instance: the two-player tick. *)
Lemma setposition_broadcast_witness :
  NoDup (map fst (players (Game.scope Scenario.two_players)))
  /\ match Game.update Scenario.two_players 0.1 with
     | Some (g', _) =>
         forall p, PyDict.get Z.eqb (players (Game.scope g')) 1%Z = Some p ->
                   Player.position p = Vec.V2 0.065000000000000002 0
     | None => False
     end.
Proof.
  assert (Hnd : NoDup (map fst (players (Game.scope Scenario.two_players)))).
  { vm_compute. constructor; [simpl; intuition discriminate | constructor; [simpl; tauto | constructor]]. }
  split; [exact Hnd |].
  destruct (Game.update Scenario.two_players 0.1) as [[g' acts] |] eqn:E;
    [| vm_compute in E; discriminate].
  intros p Gp.
  apply (proj1 (setposition_broadcast 0.1) Scenario.two_players g' acts Hnd E 0%nat 1%Z _
           (Vec.V2 0 0) (Vec.V2 0.65000000000000002 0)); [| exact Gp].
  vm_compute in E; inversion E; subst; simpl; tauto.
Defined.

(** ** A property of the subclass state kept by every hook is kept by [step] *)
Module SrvFacts.
Import Commands Net.
Section Preserve.
Variable decode : list byte -> option Obj.
Context {Sub : Type}.
Variable hooks : Srv.Hooks (Sub := Sub).
Variable R : Sub -> Prop.
Hypothesis R_connect : forall u a u' acts, R u -> Srv.on_connect hooks u a = Some (u', acts) -> R u'.
Hypothesis R_disconnect : forall u a u' acts, R u -> Srv.on_disconnect hooks u a = Some (u', acts) -> R u'.
Hypothesis R_handle : forall u a o u' acts, R u -> Srv.on_handle hooks u a o = Some (u', acts) -> R u'.
Hypothesis R_update : forall u dt u' acts, R u -> Srv.on_update hooks u dt = Some (u', acts) -> R u'.

Lemma send_to_all_sub (o : Obj) (l : list Addr) (s : @Srv.St Sub) :
  Srv.sub (fold_left (fun s a => Srv.send_to a o true s) l s) = Srv.sub s.
Proof. revert s; induction l as [| a l IH]; intros s; simpl; [reflexivity | rewrite IH; reflexivity]. Qed.

Lemma perform_sub (acts : list Action) (s : @Srv.St Sub) : Srv.sub (Srv.perform acts s) = Srv.sub s.
Proof.
  unfold Srv.perform; revert s; induction acts as [| [a o | o] acts IH]; intros s; simpl;
    [reflexivity | | ]; rewrite IH; [reflexivity |]; apply send_to_all_sub.
Qed.

Lemma run_hook_sub (r : option (Sub * list Action)) (s s' : @Srv.St Sub) :
  Srv.run_hook r s = Some s' -> exists u acts, r = Some (u, acts) /\ Srv.sub s' = u.
Proof.
  unfold Srv.run_hook; destruct r as [[u acts] |]; [| discriminate].
  intros H; inversion H; subst. exists u, acts; split; auto. rewrite perform_sub; reflexivity.
Qed.

Lemma handle_message_R (a : Addr) (data : list byte) (now : float) (s s' : @Srv.St Sub) :
  R (Srv.sub s) -> Srv.handle_message decode hooks a data now s = Some s' -> R (Srv.sub s').
Proof.
  unfold Srv.handle_message; intros HR.
  destruct (pickle_loads decode data) as [o |]; [| discriminate].
  destruct o as [c | o | k | k |];
    try (intros H; destruct (run_hook_sub _ _ _ H) as (u & acts & E & ->);
         exact (R_handle _ _ _ _ _ HR E)).
  destruct (negb (hashable o)); [first [discriminate | intros ?; discriminate] |].
  destruct (set_remove _ _); intros H; inversion H; subst; exact HR.
Qed.

Lemma handle_connect_R (a : Addr) (data : list byte) (now : float) (s s' : @Srv.St Sub) :
  R (Srv.sub s) -> Srv.handle_connect decode hooks a data now s = Some s' -> R (Srv.sub s').
Proof.
  unfold Srv.handle_connect, Srv.bind; intros HR.
  destruct (Srv.run_hook _ _) as [s2 |] eqn:E; [| discriminate].
  destruct (run_hook_sub _ _ _ E) as (u & acts & E' & Hu).
  apply handle_message_R; rewrite Hu; exact (R_connect _ _ _ _ HR E').
Qed.

Lemma handle_messages_R (inbox : list (float * Recv)) (s s' : @Srv.St Sub) :
  R (Srv.sub s) -> Srv.handle_messages decode hooks inbox s = Some s' -> R (Srv.sub s').
Proof.
  revert s; induction inbox as [| [now [data a |]] inbox IH]; intros s HR; simpl.
  - intros H; inversion H; subst; exact HR.
  - destruct (startswith data PROTOCOL_HEADER); [| apply IH; exact HR].
    unfold Srv.bind.
    destruct (if existsb (addr_eqb a) (clients (Srv.srv s)) then _ else _) as [s1 |] eqn:E;
      [| discriminate].
    apply IH. destruct (existsb (addr_eqb a) (clients (Srv.srv s))).
    + exact (handle_message_R _ _ _ _ _ HR E).
    + exact (handle_connect_R _ _ _ _ _ HR E).
  - apply IH; exact HR.
Qed.

Lemma handle_disconnect_R (a : Addr) (s s' : @Srv.St Sub) :
  R (Srv.sub s) -> Srv.handle_disconnect hooks a s = Some s' -> R (Srv.sub s').
Proof.
  unfold Srv.handle_disconnect; intros HR.
  destruct (list_remove _ _); [| discriminate].
  destruct (PyDict.del _ _ _); [| discriminate].
  intros H; destruct (run_hook_sub _ _ _ H) as (u & acts & E & ->).
  exact (R_disconnect _ _ _ _ HR E).
Qed.

Lemma disconnect_expired_R (now : float) (entries : list (Addr * float)) (s s' : @Srv.St Sub) :
  R (Srv.sub s) -> Srv.disconnect_expired hooks now entries s = Some s' -> R (Srv.sub s').
Proof.
  revert s; induction entries as [| [a t] entries IH]; intros s HR; simpl.
  - intros H; inversion H; subst; exact HR.
  - destruct (_ <? _); [| apply IH; exact HR].
    unfold Srv.bind; destruct (Srv.handle_disconnect hooks a s) as [s1 |] eqn:E; [| discriminate].
    apply IH; exact (handle_disconnect_R _ _ _ HR E).
Qed.

Lemma resend_sub (l : list (Addr * Obj)) (s : @Srv.St Sub) :
  Srv.sub (fold_left (fun s e => Srv.log s (Resent (fst e) (snd e))) l s) = Srv.sub s.
Proof. revert s; induction l as [| e l IH]; intros s; simpl; [reflexivity | rewrite IH; reflexivity]. Qed.

Lemma step_R (inbox : list (float * Recv)) (now dt : float) (s s' : @Srv.St Sub) :
  R (Srv.sub s) -> Srv.step decode hooks inbox now dt s = Some s' -> R (Srv.sub s').
Proof.
  unfold Srv.step, Srv.bind; intros HR.
  destruct (Srv.handle_messages decode hooks inbox s) as [s1 |] eqn:E1; [| discriminate].
  pose proof (handle_messages_R _ _ _ HR E1) as HR1.
  destruct (Srv.check_disconnects hooks now s1) as [s2 |] eqn:E2; [| discriminate].
  pose proof (disconnect_expired_R _ _ _ _ HR1 E2) as HR2.
  unfold Srv.update; intros H; destruct (run_hook_sub _ _ _ H) as (u & acts & E & ->).
  rewrite resend_sub in E; exact (R_update _ _ _ _ HR2 E).
Qed.

Lemma steps_R (inputs : list (list (float * Recv) * float * float)) (s s' : @Srv.St Sub) :
  R (Srv.sub s) -> Srv.steps decode hooks inputs s = Some s' -> R (Srv.sub s').
Proof.
  revert s; induction inputs as [| [[inbox now] dt] inputs IH]; intros s HR; simpl.
  - intros H; inversion H; subst; exact HR.
  - unfold Srv.bind; destruct (Srv.step decode hooks inbox now dt s) as [s1 |] eqn:E; [| discriminate].
    apply IH; exact (step_R _ _ _ _ _ HR E).
Qed.

End Preserve.
End SrvFacts.

(** ** Keys of the players dict and of the pressed-keys dict *)
Module KeyFacts.
Import Commands Net.

Section Dict.
Context {K V : Type} (keqb : K -> K -> bool).
Hypothesis keqb_spec : forall a b, keqb a b = true <-> a = b.

Lemma in_keys_set (d : list (K * V)) (k j : K) (v : V) :
  In j (map fst (PyDict.set keqb d k v)) <-> In j (map fst d) \/ j = k.
Proof.
  rewrite (PyDictFacts.keys_set keqb keqb_spec).
  destruct (PyDict.mem keqb d k) eqn:M.
  - apply (PyDictFacts.mem_in keqb keqb_spec) in M. split; [tauto |]. intros [H | ->]; auto.
  - rewrite in_app_iff; simpl. intuition.
Qed.

Lemma nodup_keys_set (d : list (K * V)) (k : K) (v : V) :
  NoDup (map fst d) -> NoDup (map fst (PyDict.set keqb d k v)).
Proof.
  intros Hnd; rewrite (PyDictFacts.keys_set keqb keqb_spec).
  destruct (PyDict.mem keqb d k) eqn:M; [exact Hnd |].
  assert (Hk : ~ In k (map fst d)) by (rewrite <- (PyDictFacts.mem_in keqb keqb_spec); congruence).
  clear M; induction Hnd as [| x l Hx Hl IH]; simpl; [constructor; [tauto | constructor] |].
  constructor.
  - rewrite in_app_iff; simpl; intros [H | [H | []]]; [contradiction | subst; apply Hk; left; auto].
  - apply IH; intros H; apply Hk; right; exact H.
Qed.

Lemma in_keys_del (d d' : list (K * V)) (k j : K) :
  PyDict.del keqb d k = Some d' ->
  (In j (map fst d') -> In j (map fst d)) /\ (In j (map fst d) -> j <> k -> In j (map fst d')).
Proof.
  intros D; destruct (PyDictFacts.del_keys keqb keqb_spec d d' k D) as (l1 & l2 & E1 & E2).
  rewrite E1, E2, !in_app_iff; simpl; split; [tauto |]. intros [H | [H | H]] Hne; auto. congruence.
Qed.

Lemma mem_of_in (d : list (K * V)) (k : K) :
  In k (map fst d) -> exists v, PyDict.get keqb d k = Some v.
Proof.
  rewrite <- (PyDictFacts.mem_in keqb keqb_spec); unfold PyDict.mem.
  destruct (PyDict.get keqb d k); [eauto | discriminate].
Qed.
End Dict.

(** The invariant of C10: the players dict has distinct keys (a dict), and
    each of them is a key of [pressed_keys]. *)
Definition game_inv (g : Game.GameServer) : Prop :=
  NoDup (map fst (players (Game.scope g)))
  /\ forall i, In i (map fst (players (Game.scope g))) -> In i (map fst (Game.pressed_keys g)).

Lemma inv_new : game_inv Game.GameServer_new.
Proof. split; [constructor | simpl; tauto]. Qed.

Lemma inv_connect (g g' : Game.GameServer) (a : Addr) (acts : list Action) :
  game_inv g -> Game.handle_connect g a = Some (g', acts) -> game_inv g'.
Proof.
  unfold Game.handle_connect; intros [Hnd Hsub].
  destruct (Game.id_of _ a) as [i |]; [| discriminate].
  intros H; inversion H; subst; clear H. unfold game_inv; simpl.
  split; [apply (nodup_keys_set Z.eqb Z_eqb_spec'); exact Hnd |].
  intros j Hj. apply (in_keys_set Z.eqb Z_eqb_spec') in Hj.
  apply (in_keys_set Z.eqb Z_eqb_spec'). destruct Hj as [Hj | ->]; auto.
Qed.

Lemma inv_disconnect (g g' : Game.GameServer) (a : Addr) (acts : list Action) :
  game_inv g -> Game.handle_disconnect g a = Some (g', acts) -> game_inv g'.
Proof.
  unfold Game.handle_disconnect; intros [Hnd Hsub].
  destruct (Game.id_of g a) as [i |]; [| discriminate].
  intros H; inversion H; subst; clear H.
  destruct (PyDict.del Z.eqb (players (Game.scope g)) i) as [ps |] eqn:D; [| split; auto].
  destruct (PyDictFacts.del_nodup Z.eqb Z_eqb_spec' _ _ _ Hnd D) as (N & _ & Hin).
  simpl. destruct (PyDict.del Z.eqb (Game.pressed_keys g) i) as [pk |] eqn:D'; split; simpl; auto.
  - intros j Hj. apply Hin in Hj; destruct Hj as [Hj Hne].
    apply (proj2 (in_keys_del Z.eqb Z_eqb_spec' _ _ i j D')); auto.
  - intros j Hj. apply Hin in Hj; apply Hsub; tauto.
Qed.

Lemma inv_handle (g g' : Game.GameServer) (a : Addr) (o : Obj) (acts : list Action) :
  game_inv g -> Game.handle g a o = Some (g', acts) -> game_inv g'.
Proof.
  unfold Game.handle; intros [Hnd Hsub].
  destruct (Game.id_of g a) as [i |]; [| discriminate].
  destruct o as [c | o | k | k |]; try discriminate;
    try (intros H; inversion H; subst; split; auto; fail);
    destruct (PyDict.get Z.eqb (Game.pressed_keys g) i); try discriminate;
    intros H; inversion H; subst; clear H; split; simpl; auto;
    intros j Hj; apply (in_keys_set Z.eqb Z_eqb_spec'); auto.
Qed.

(** An iteration of the players loop, in one piece. *)
Lemma update_player_shape (dt : float) (g g1 : Game.GameServer) (i : Z) (a : list Action) :
  Game.update_player dt g i = Some (g1, a) ->
  Game.pressed_keys g1 = Game.pressed_keys g
  /\ exists l, map fst l = map fst (players (Game.scope g))
               /\ (players (Game.scope g1) = l \/ PyDict.del Z.eqb l i = Some (players (Game.scope g1))).
Proof.
  intros H.
  destruct (TickFacts.update_player_inv dt g g1 i a H)
    as (player & keys & p2 & ps & G & _ & C & Pk & _ & Hcase).
  split; [exact Pk |]. exists (PyDict.set Z.eqb ps i p2).
  split; [| destruct Hcase as [[E _] | [D _]]; auto].
  assert (Kps : map fst ps = map fst (players (Game.scope g))).
  { pose proof (TickFacts.collision_keys (Player.update player keys dt)
                  (PyDict.set Z.eqb (players (Game.scope g)) i (Player.update player keys dt))) as K.
    rewrite C in K; simpl in K; rewrite K.
    rewrite (PyDictFacts.keys_set Z.eqb Z_eqb_spec'), (TickFacts.mem_get _ _ _ G); reflexivity. }
  rewrite (PyDictFacts.keys_set Z.eqb Z_eqb_spec').
  assert (M : PyDict.mem Z.eqb ps i = true).
  { apply (PyDictFacts.mem_in Z.eqb Z_eqb_spec'); rewrite Kps.
    apply (PyDictFacts.mem_in Z.eqb Z_eqb_spec'); exact (TickFacts.mem_get _ _ _ G). }
  rewrite M; exact Kps.
Qed.

Lemma update_player_total (dt : float) (g : Game.GameServer) (i : Z) :
  In i (map fst (players (Game.scope g))) -> In i (map fst (Game.pressed_keys g)) ->
  exists g1 a, Game.update_player dt g i = Some (g1, a).
Proof.
  intros Hp Hk. unfold Game.update_player.
  destruct (mem_of_in Z.eqb Z_eqb_spec' _ _ Hp) as [player ->].
  destruct (mem_of_in Z.eqb Z_eqb_spec' _ _ Hk) as [keys ->].
  destruct (Player.collision _ _) as [p2 ps] eqn:C.
  unfold new_SetPositionCommand; cbn -[Vec.length PyDict.set PyDict.del].
  destruct (_ <? _); [| eauto].
  assert (M : PyDict.mem Z.eqb (PyDict.set Z.eqb ps i p2) i = true).
  { unfold PyDict.mem; rewrite (PyDictFacts.get_set_eq Z.eqb Z_eqb_spec'); reflexivity. }
  destruct (PyDictFacts.del_present Z.eqb _ _ M) as [d' ->]; eauto.
Qed.

Lemma update_players_total (dt : float) (ids : list Z) (g : Game.GameServer) :
  NoDup ids -> game_inv g -> (forall i, In i ids -> In i (map fst (players (Game.scope g)))) ->
  exists g' a, Game.update_players dt ids g = Some (g', a) /\ game_inv g'.
Proof.
  revert g; induction ids as [| i ids IH]; intros g Hids [Hnd Hsub] Hin; simpl.
  - exists g, []; split; [reflexivity | split; auto].
  - inversion Hids as [| ? ? Hi Hids']; subst.
    assert (Hp : In i (map fst (players (Game.scope g)))) by (apply Hin; left; auto).
    destruct (update_player_total dt g i Hp (Hsub i Hp)) as (g1 & a1 & U); rewrite U.
    destruct (update_player_shape dt g g1 i a1 U) as [Pk (l & Kl & Hl)].
    destruct (TickFacts.update_player_keys dt g g1 i a1 Hnd U) as [Hnd1 Hsub1].
    assert (Hinv1 : game_inv g1) by (split; [exact Hnd1 | intros j Hj; rewrite Pk; auto]).
    assert (Hin1 : forall j, In j ids -> In j (map fst (players (Game.scope g1)))).
    { intros j Hj. assert (Hne : j <> i) by (intros ->; contradiction).
      assert (Hjl : In j (map fst l)) by (rewrite Kl; apply Hin; right; exact Hj).
      destruct Hl as [-> | D]; [exact Hjl |].
      exact (proj2 (in_keys_del Z.eqb Z_eqb_spec' _ _ i j D) Hjl Hne). }
    destruct (IH g1 Hids' Hinv1 Hin1) as (g2 & a2 & U2 & Hinv2); rewrite U2.
    exists g2, (a1 ++ a2); split; auto.
Qed.

Lemma shrink_keeps (g g1 : Game.GameServer) (dt : float) (a : list Action) :
  Game.shrink g dt = (g1, a) ->
  players (Game.scope g1) = players (Game.scope g) /\ Game.pressed_keys g1 = Game.pressed_keys g.
Proof.
  unfold Game.shrink; destruct (2 <? circle_radius (Game.scope g)); intros H; inversion H; auto.
Qed.

Lemma update_total_inv (g : Game.GameServer) (dt : float) :
  game_inv g -> exists g' a, Game.update g dt = Some (g', a) /\ game_inv g'.
Proof.
  intros [Hnd Hsub]. unfold Game.update.
  destruct (Game.shrink g dt) as [g1 a1] eqn:S.
  destruct (shrink_keeps g g1 dt a1 S) as [P1 K1].
  assert (Hinv1 : game_inv g1) by (split; rewrite P1; [exact Hnd | rewrite K1; exact Hsub]).
  destruct (update_players_total dt (map fst (players (Game.scope g1))) g1)
    as (g2 & a2 & U & Hinv2); [rewrite P1; exact Hnd | exact Hinv1 | tauto |].
  rewrite U; eauto.
Qed.

(** The states the [GameServer] hooks reach from [GameServer()]. *)
Inductive reachable : Game.GameServer -> Prop :=
| reach_new : reachable Game.GameServer_new
| reach_connect g a g' acts : reachable g -> Game.handle_connect g a = Some (g', acts) -> reachable g'
| reach_disconnect g a g' acts : reachable g -> Game.handle_disconnect g a = Some (g', acts) -> reachable g'
| reach_handle g a o g' acts : reachable g -> Game.handle g a o = Some (g', acts) -> reachable g'
| reach_update g dt g' acts : reachable g -> Game.update g dt = Some (g', acts) -> reachable g'.

Lemma reachable_inv (g : Game.GameServer) : reachable g -> game_inv g.
Proof.
  induction 1.
  - exact inv_new.
  - exact (inv_connect _ _ _ _ IHreachable H0).
  - exact (inv_disconnect _ _ _ _ IHreachable H0).
  - exact (inv_handle _ _ _ _ _ IHreachable H0).
  - destruct (update_total_inv g dt IHreachable) as (g1 & a1 & E & Hinv).
    rewrite H0 in E; inversion E; subst; exact Hinv.
Qed.

End KeyFacts.

(** *** C10: every player has a pressed-keys entry *)

(** C10. In every state the [GameServer] hooks reach from [GameServer()]
    (connect, disconnect, input handling, update ticks, in any order and on
    any addresses), each key of [scope.players] is a key of [pressed_keys];
    hence an update tick from such a state never fails (in particular its
    [self.pressed_keys[id_]] lookups succeed). Every state the server
    reaches through successive [Server.step()]s is such a state. *)
Theorem pressed_keys_cover_players :
  (forall g, KeyFacts.reachable g ->
     (forall i, In i (map fst (players (Game.scope g))) -> In i (map fst (Game.pressed_keys g)))
     /\ forall dt, exists g' acts, Game.update g dt = Some (g', acts))
  /\ (forall decode inputs s,
        Srv.steps decode Game.hooks inputs (Srv.mkSt Server_new Game.GameServer_new []) = Some s ->
        KeyFacts.reachable (Srv.sub s)).
Proof.
  split.
  - intros g Hr. pose proof (KeyFacts.reachable_inv g Hr) as Hinv.
    split; [exact (proj2 Hinv) |].
    intros dt; destruct (KeyFacts.update_total_inv g dt Hinv) as (g' & a & E & _); eauto.
  - intros decode inputs s H.
    refine (SrvFacts.steps_R decode Game.hooks KeyFacts.reachable _ _ _ _ inputs (Srv.mkSt Server_new Game.GameServer_new []) s KeyFacts.reach_new H).
    + intros u a u' acts Hu E; exact (KeyFacts.reach_connect u a u' acts Hu E).
    + intros u a u' acts Hu E; exact (KeyFacts.reach_disconnect u a u' acts Hu E).
    + intros u a o u' acts Hu E; exact (KeyFacts.reach_handle u a o u' acts Hu E).
    + intros u dt u' acts Hu E; exact (KeyFacts.reach_update u dt u' acts Hu E).
Qed.

(** C10, an instance: a client connects, then a tick runs. *)
Lemma pressed_keys_cover_players_witness :
  exists g0 a0, Game.handle_connect Game.GameServer_new (mkAddr "10.0.0.2" 5000) = Some (g0, a0)
  /\ exists g' acts, Game.update g0 0.1 = Some (g', acts).
Proof.
  destruct (Game.handle_connect Game.GameServer_new (mkAddr "10.0.0.2" 5000)) as [[g0 a0] |] eqn:E;
    [| vm_compute in E; discriminate].
  exists g0, a0; split; [reflexivity |].
  exact (proj2 (proj1 pressed_keys_cover_players g0
                  (KeyFacts.reach_connect _ _ _ _ KeyFacts.reach_new E)) 0.1).
Defined.

(** ** Properties of the whole server state kept by each primitive *)
Module StFacts.
Import Commands Net.
Section Preserve.
Variable decode : list byte -> option Obj.
Context {Sub : Type}.
Variable hooks : Srv.Hooks (Sub := Sub).
Variable P : @Srv.St Sub -> Prop.
Hypothesis P_send : forall s a o b, P s -> P (Srv.send_to a o b s).
Hypothesis P_sub : forall s u, P s -> P (Srv.with_sub s u).
Hypothesis P_log : forall s ev, P s -> (forall a o, ev <> Resent a o) -> (forall a o, ev <> Acked a o) ->
  (forall a o b, ev <> Sent a o b) -> P (Srv.log s ev).
Hypothesis P_srv : forall s v, P s -> not_acknoledged v = not_acknoledged (Srv.srv s) -> P (Srv.with_srv s v).
Hypothesis P_ack : forall s a o p, P s -> set_remove (not_acknoledged (Srv.srv s)) (a, o) = Some p ->
  P (Srv.log (Srv.with_srv s (Srv.set_pending (Srv.srv s) p)) (Acked a o)).
Hypothesis P_resend : forall s e, P s -> In e (not_acknoledged (Srv.srv s)) ->
  P (Srv.log s (Resent (fst e) (snd e))).

Lemma send_to_all_P (o : Obj) (l : list Addr) (s : @Srv.St Sub) :
  P s -> P (fold_left (fun s a => Srv.send_to a o true s) l s).
Proof. revert s; induction l as [| a l IH]; intros s H; simpl; auto. Qed.

Lemma perform_P (acts : list Action) (s : @Srv.St Sub) : P s -> P (Srv.perform acts s).
Proof.
  unfold Srv.perform; revert s; induction acts as [| [a o | o] acts IH]; intros s H; simpl; auto.
  apply IH; apply send_to_all_P; exact H.
Qed.

Lemma run_hook_P (r : option (Sub * list Action)) (s s' : @Srv.St Sub) :
  P s -> Srv.run_hook r s = Some s' -> P s'.
Proof.
  unfold Srv.run_hook; destruct r as [[u acts] |]; [| discriminate].
  intros H E; inversion E; subst; apply perform_P, P_sub, H.
Qed.

Lemma handle_message_P (a : Addr) (data : list byte) (now : float) (s s' : @Srv.St Sub) :
  P s -> Srv.handle_message decode hooks a data now s = Some s' -> P s'.
Proof.
  unfold Srv.handle_message; intros H.
  assert (H1 : P (Srv.with_srv s (Srv.set_timeouts (Srv.srv s)
                    (PyDict.set addr_eqb (timeouts (Srv.srv s)) a now)))) by (apply P_srv; auto).
  destruct (pickle_loads decode data) as [o |]; [| discriminate].
  destruct o as [c | o | k | k |];
    try (apply run_hook_P; apply P_log; auto; discriminate).
  destruct (negb (hashable o)); [first [discriminate | intros ?; discriminate] |].
  destruct (set_remove _ (a, o)) as [p |] eqn:R; intros E; inversion E; subst; auto.
Qed.

Lemma handle_connect_P (a : Addr) (data : list byte) (now : float) (s s' : @Srv.St Sub) :
  P s -> Srv.handle_connect decode hooks a data now s = Some s' -> P s'.
Proof.
  unfold Srv.handle_connect, Srv.bind; intros H.
  destruct (Srv.run_hook _ _) as [s2 |] eqn:E; [| discriminate].
  apply handle_message_P. refine (run_hook_P _ _ _ _ E).
  apply P_log; [apply P_srv; auto | intros; discriminate ..].
Qed.

Lemma handle_messages_P (inbox : list (float * Recv)) (s s' : @Srv.St Sub) :
  P s -> Srv.handle_messages decode hooks inbox s = Some s' -> P s'.
Proof.
  revert s; induction inbox as [| [now [data a |]] inbox IH]; intros s H; simpl.
  - intros E; inversion E; subst; exact H.
  - destruct (startswith data PROTOCOL_HEADER); [| apply IH; exact H].
    unfold Srv.bind.
    destruct (if existsb (addr_eqb a) (clients (Srv.srv s)) then _ else _) as [s1 |] eqn:E;
      [| discriminate].
    apply IH. destruct (existsb (addr_eqb a) (clients (Srv.srv s))).
    + exact (handle_message_P _ _ _ _ _ H E).
    + exact (handle_connect_P _ _ _ _ _ H E).
  - apply IH; exact H.
Qed.

Lemma handle_disconnect_P (a : Addr) (s s' : @Srv.St Sub) :
  P s -> Srv.handle_disconnect hooks a s = Some s' -> P s'.
Proof.
  unfold Srv.handle_disconnect; intros H.
  destruct (list_remove _ _); [| discriminate].
  destruct (PyDict.del _ _ _); [| discriminate].
  apply run_hook_P; apply P_log; [apply P_srv; auto | discriminate ..].
Qed.

Lemma disconnect_expired_P (now : float) (entries : list (Addr * float)) (s s' : @Srv.St Sub) :
  P s -> Srv.disconnect_expired hooks now entries s = Some s' -> P s'.
Proof.
  revert s; induction entries as [| [a t] entries IH]; intros s H; simpl.
  - intros E; inversion E; subst; exact H.
  - destruct (_ <? _); [| apply IH; exact H].
    unfold Srv.bind; destruct (Srv.handle_disconnect hooks a s) as [s1 |] eqn:E; [| discriminate].
    apply IH; exact (handle_disconnect_P _ _ _ H E).
Qed.

Lemma resend_pending (l : list (Addr * Obj)) (s : @Srv.St Sub) :
  not_acknoledged (Srv.srv (fold_left (fun s e => Srv.log s (Resent (fst e) (snd e))) l s))
  = not_acknoledged (Srv.srv s).
Proof. revert s; induction l as [| e l IH]; intros s; simpl; [reflexivity | rewrite IH; reflexivity]. Qed.

Lemma resend_P (l : list (Addr * Obj)) (s : @Srv.St Sub) :
  P s -> (forall e, In e l -> In e (not_acknoledged (Srv.srv s))) ->
  P (fold_left (fun s e => Srv.log s (Resent (fst e) (snd e))) l s).
Proof.
  revert s; induction l as [| e l IH]; intros s H Hl; simpl; auto.
  apply IH; [apply P_resend; auto; apply Hl; left; auto |].
  intros f Hf; apply Hl; right; exact Hf.
Qed.

Lemma update_P (dt : float) (s s' : @Srv.St Sub) :
  P s -> Srv.update hooks dt s = Some s' -> P s'.
Proof.
  unfold Srv.update; intros H. apply run_hook_P. apply resend_P; auto.
Qed.

Lemma step_P (inbox : list (float * Recv)) (now dt : float) (s s' : @Srv.St Sub) :
  P s -> Srv.step decode hooks inbox now dt s = Some s' -> P s'.
Proof.
  unfold Srv.step, Srv.bind; intros H.
  destruct (Srv.handle_messages decode hooks inbox s) as [s1 |] eqn:E1; [| discriminate].
  destruct (Srv.check_disconnects hooks now s1) as [s2 |] eqn:E2; [| discriminate].
  apply update_P. exact (disconnect_expired_P _ _ _ _ (handle_messages_P _ _ _ H E1) E2).
Qed.

Lemma steps_P (inputs : list (list (float * Recv) * float * float)) (s s' : @Srv.St Sub) :
  P s -> Srv.steps decode hooks inputs s = Some s' -> P s'.
Proof.
  revert s; induction inputs as [| [[inbox now] dt] inputs IH]; intros s H; simpl.
  - intros E; inversion E; subst; exact H.
  - unfold Srv.bind; destruct (Srv.step decode hooks inbox now dt s) as [s1 |] eqn:E; [| discriminate].
    apply IH; exact (step_P _ _ _ _ _ H E).
Qed.

End Preserve.
End StFacts.

(** ** The pending set and the trace *)
Module AckFacts.
Import Commands Net.

(** Whether the events of a trace leave [e] registered in
    [not_acknoledged]: a [Sent] with [acknoledge] recorded registers it, an
    [Acked] unregisters it. *)
Definition reg_event (e : Addr * Obj) (b : bool) (ev : Event) : bool :=
  match ev with
  | Sent a o true => if pending_eqb e (a, o) then true else b
  | Acked a o => if pending_eqb e (a, o) then false else b
  | _ => b
  end.

Definition reg (tr : list Event) (e : Addr * Obj) : bool := fold_left (reg_event e) tr false.

(** Every [Resent] happens while its entry is registered. *)
Definition resent_ok (tr : list Event) : Prop :=
  forall tr1 a o tr2, tr = tr1 ++ Resent a o :: tr2 -> reg tr1 (a, o) = true.

Definition pending_inv {Sub : Type} (s : @Srv.St Sub) : Prop :=
  (forall f, In f (not_acknoledged (Srv.srv s)) -> is_acknowledged (snd f) = true)
  /\ (forall e, is_acknowledged (snd e) = true ->
        existsb (pending_eqb e) (not_acknoledged (Srv.srv s)) = reg (Srv.trace s) e)
  /\ resent_ok (Srv.trace s).

Lemma acked_eqb_eq (o o' : Obj) : acked_eqb o o' = true -> o = o' /\ is_acknowledged o = true.
Proof.
  destruct o as [[] | | | |], o' as [[] | | | |]; simpl; try discriminate;
    intros H; apply Z.eqb_eq in H; subst; auto.
Qed.

Lemma pending_eqb_eq (e f : Addr * Obj) :
  pending_eqb e f = true -> e = f /\ is_acknowledged (snd e) = true.
Proof.
  destruct e as [a o], f as [b o']; unfold pending_eqb; simpl.
  rewrite andb_true_iff, addr_eqb_spec; intros [-> H]. apply acked_eqb_eq in H as [-> H]; auto.
Qed.

Lemma pending_eqb_refl (e : Addr * Obj) : is_acknowledged (snd e) = true -> pending_eqb e e = true.
Proof.
  destruct e as [a o]; unfold pending_eqb; simpl; intros H.
  rewrite (proj2 (addr_eqb_spec a a) eq_refl); simpl.
  destruct o as [[] | | | |]; simpl in *; try discriminate; apply Z.eqb_refl.
Qed.

Lemma existsb_pending (e : Addr * Obj) (l : list (Addr * Obj)) :
  existsb (pending_eqb e) l = true <-> In e l /\ is_acknowledged (snd e) = true.
Proof.
  rewrite existsb_exists; split.
  - intros (f & Hf & E); apply pending_eqb_eq in E as [<- H]; auto.
  - intros [Hin H]; exists e; split; auto; apply pending_eqb_refl; auto.
Qed.

Lemma reg_snoc (tr : list Event) (ev : Event) (e : Addr * Obj) :
  reg (tr ++ [ev]) e = reg_event e (reg tr e) ev.
Proof. unfold reg; rewrite fold_left_app; reflexivity. Qed.

Lemma reg_true_acked (tr : list Event) (e : Addr * Obj) :
  reg tr e = true -> is_acknowledged (snd e) = true.
Proof.
  assert (G : forall b, fold_left (reg_event e) tr b = true ->
                        b = true \/ is_acknowledged (snd e) = true).
  { induction tr as [| ev tr IH] using rev_ind; simpl; intros b; [auto |].
    rewrite fold_left_app; simpl. unfold reg_event at 1.
    destruct ev as [a o [] | a o | a | a | a o | a o]; auto;
      destruct (pending_eqb e (a, o)) eqn:E; auto; try discriminate;
      intros _; right; exact (proj2 (pending_eqb_eq _ _ E)). }
  intros H; destruct (G false H); [discriminate | auto].
Qed.

Lemma resent_ok_snoc (tr : list Event) (ev : Event) :
  resent_ok tr -> (forall a o, ev = Resent a o -> reg tr (a, o) = true) -> resent_ok (tr ++ [ev]).
Proof.
  intros H Hev tr1 a o tr2 E.
  destruct tr2 as [| x tr2'] using rev_ind.
  - apply app_inj_tail in E as [-> ->]; apply Hev; reflexivity.
  - rewrite app_comm_cons, app_assoc in E. apply app_inj_tail in E as [E _].
    exact (H tr1 a o tr2' E).
Qed.

Lemma inv_log {Sub : Type} (s : @Srv.St Sub) (ev : Event) :
  pending_inv s -> (forall a o, ev <> Resent a o) -> (forall a o, ev <> Acked a o) ->
  (forall a o b, ev <> Sent a o b) -> pending_inv (Srv.log s ev).
Proof.
  intros (H1 & H2 & H3) NR NA NS; repeat split; simpl; auto.
  - intros e He; rewrite reg_snoc, H2 by exact He.
    destruct ev as [a o b | a o | a | a | a o | a o]; simpl; auto.
    + exfalso; exact (NS a o b eq_refl).
    + exfalso; exact (NA a o eq_refl).
  - apply resent_ok_snoc; auto. intros a o ->; exfalso; exact (NR a o eq_refl).
Qed.

Lemma inv_send {Sub : Type} (s : @Srv.St Sub) (a : Addr) (o : Obj) (b : bool) :
  pending_inv s -> pending_inv (Srv.send_to a o b s).
Proof.
  intros (H1 & H2 & H3). unfold Srv.send_to, Srv.log, Srv.with_srv; simpl.
  destruct (is_acknowledged o) eqn:Ho; simpl;
    [destruct b; simpl |]; repeat split; simpl.
  - intros f Hf; unfold set_add in Hf.
    destruct (existsb _ _) in Hf; [auto |].
    apply in_app_or in Hf; destruct Hf as [Hf | [<- | []]]; auto.
  - intros e He; rewrite reg_snoc, <- H2 by exact He; simpl.
    unfold set_add. destruct (existsb (pending_eqb (a, o)) (not_acknoledged (Srv.srv s))) eqn:X.
    + destruct (pending_eqb e (a, o)) eqn:E; [| reflexivity].
      apply pending_eqb_eq in E as [-> _]; rewrite X; reflexivity.
    + rewrite existsb_app; simpl. rewrite orb_false_r.
      destruct (pending_eqb e (a, o)); [apply orb_true_r | apply orb_false_r].
  - apply resent_ok_snoc; [exact H3 | intros ? ? E; discriminate].
  - exact H1.
  - intros e He; rewrite reg_snoc, H2 by exact He; reflexivity.
  - apply resent_ok_snoc; [exact H3 | intros ? ? E; discriminate].
  - exact H1.
  - intros e He; rewrite reg_snoc, H2 by exact He; reflexivity.
  - apply resent_ok_snoc; [exact H3 | intros ? ? E; discriminate].
Qed.

Lemma existsb_filter_pending (e ao : Addr * Obj) (l : list (Addr * Obj)) :
  existsb (pending_eqb e) (filter (fun f => negb (pending_eqb ao f)) l)
  = if pending_eqb e ao then false else existsb (pending_eqb e) l.
Proof.
  destruct (pending_eqb e ao) eqn:E.
  - apply pending_eqb_eq in E as [<- _].
    induction l as [| f l IH]; simpl; auto.
    destruct (pending_eqb e f) eqn:F; simpl; auto. rewrite F; simpl; exact IH.
  - induction l as [| f l IH]; simpl; auto.
    destruct (pending_eqb e f) eqn:F.
    + apply pending_eqb_eq in F as [<- Ha].
      assert (G : pending_eqb ao e = false).
      { destruct (pending_eqb ao e) eqn:G; auto. apply pending_eqb_eq in G as [-> _].
        rewrite pending_eqb_refl in E by exact Ha; discriminate. }
      rewrite G; simpl; rewrite pending_eqb_refl by exact Ha; reflexivity.
    + destruct (pending_eqb ao f); simpl; rewrite ?F; auto.
Qed.

Lemma inv_ack {Sub : Type} (s : @Srv.St Sub) (a : Addr) (o : Obj) (p : list (Addr * Obj)) :
  pending_inv s -> set_remove (not_acknoledged (Srv.srv s)) (a, o) = Some p ->
  pending_inv (Srv.log (Srv.with_srv s (Srv.set_pending (Srv.srv s) p)) (Acked a o)).
Proof.
  intros (H1 & H2 & H3). unfold set_remove.
  destruct (existsb _ _) eqn:X; [| discriminate]. intros E; inversion E; subst p; clear E.
  repeat split; simpl.
  - intros f Hf; apply filter_In in Hf; apply H1; tauto.
  - intros e He; rewrite reg_snoc, <- H2 by exact He; simpl.
    apply existsb_filter_pending.
  - apply resent_ok_snoc; [exact H3 | intros ? ? E; discriminate].
Qed.

Lemma inv_resend {Sub : Type} (s : @Srv.St Sub) (e : Addr * Obj) :
  pending_inv s -> In e (not_acknoledged (Srv.srv s)) ->
  pending_inv (Srv.log s (Resent (fst e) (snd e))).
Proof.
  intros (H1 & H2 & H3) He. repeat split; simpl; auto.
  - intros f Hf; rewrite reg_snoc, H2 by exact Hf; reflexivity.
  - apply resent_ok_snoc; [exact H3 |]. intros a o E; inversion E; subst.
    rewrite <- surjective_pairing, <- H2 by (apply H1; exact He).
    apply existsb_pending; split; auto.
Qed.

Lemma inv_preserved {Sub : Type} : 
  (forall (s : @Srv.St Sub) a o b, pending_inv s -> pending_inv (Srv.send_to a o b s))
  /\ (forall (s : @Srv.St Sub) u, pending_inv s -> pending_inv (Srv.with_sub s u))
  /\ (forall (s : @Srv.St Sub) v, pending_inv s -> not_acknoledged v = not_acknoledged (Srv.srv s) ->
        pending_inv (Srv.with_srv s v)).
Proof.
  split; [intros; apply inv_send; auto |]. split.
  - intros s u H; exact H.
  - intros s v (H1 & H2 & H3) E; unfold pending_inv; simpl; rewrite E; auto.
Qed.

Lemma inv_init {Sub : Type} (u : Sub) : pending_inv (Srv.mkSt Server_new u []).
Proof.
  repeat split; simpl; try tauto.
  intros tr1 a o tr2 E; destruct tr1; discriminate.
Qed.

Lemma steps_inv {Sub : Type} (decode : list byte -> option Obj) (hooks : Srv.Hooks (Sub := Sub))
      (inputs : list (list (float * Recv) * float * float)) (s s' : @Srv.St Sub) :
  pending_inv s -> Srv.steps decode hooks inputs s = Some s' -> pending_inv s'.
Proof.
  destruct (@inv_preserved Sub) as (Ps & Pu & Pv).
  apply (StFacts.steps_P decode hooks pending_inv Ps Pu
           (fun s ev H NR NA NS => inv_log s ev H NR NA NS) Pv
           (fun s a o p H E => inv_ack s a o p H E) (fun s e H He => inv_resend s e H He)).
Qed.

Lemma reg_keep (t : list Event) (e : Addr * Obj) (b : bool) :
  b = true -> ~ In (Acked (fst e) (snd e)) t -> fold_left (reg_event e) t b = true.
Proof.
  revert b; induction t as [| ev t IH]; intros b Hb Ht; simpl; auto.
  apply IH; [| intros H; apply Ht; right; exact H]. subst b.
  destruct ev as [a o [] | a o | a | a | a o | a o]; simpl; auto;
    destruct (pending_eqb e (a, o)) eqn:E; auto.
  apply pending_eqb_eq in E as [-> _]. exfalso; apply Ht; left; reflexivity.
Qed.

Lemma reg_rise (t : list Event) (e : Addr * Obj) (b : bool) :
  fold_left (reg_event e) t b = true -> b = true \/ In (Sent (fst e) (snd e) true) t.
Proof.
  revert b; induction t as [| ev t IH]; intros b H; simpl in *; auto.
  destruct (IH _ H) as [H1 | H1]; [| right; right; exact H1].
  destruct ev as [a o [] | a o | a | a | a o | a o]; simpl in H1; auto;
    destruct (pending_eqb e (a, o)) eqn:E; auto; try discriminate.
  apply pending_eqb_eq in E as [-> _]. right; left; reflexivity.
Qed.

(** The trace only grows. *)
Definition extends {Sub : Type} (tr0 : list Event) (s : @Srv.St Sub) : Prop :=
  exists t, Srv.trace s = tr0 ++ t.

Lemma extends_step {Sub : Type} (decode : list byte -> option Obj) (hooks : Srv.Hooks (Sub := Sub))
      (tr0 : list Event) :
  let P := extends tr0 in
  (forall (s : @Srv.St Sub) a o b, P s -> P (Srv.send_to a o b s))
  /\ (forall (s : @Srv.St Sub) u, P s -> P (Srv.with_sub s u))
  /\ (forall (s : @Srv.St Sub) ev, P s -> P (Srv.log s ev))
  /\ (forall (s : @Srv.St Sub) v, P s -> P (Srv.with_srv s v)).
Proof.
  cbv zeta; unfold extends, Srv.send_to, Srv.log, Srv.with_srv, Srv.with_sub; simpl.
  repeat split; intros; match goal with H : exists _, _ |- _ => destruct H as [t E] end;
    simpl; rewrite E; first [exists t; reflexivity | eexists; rewrite <- app_assoc; reflexivity].
Qed.

Lemma inv_srv {Sub : Type} (s : @Srv.St Sub) (v : Server) :
  pending_inv s -> not_acknoledged v = not_acknoledged (Srv.srv s) -> pending_inv (Srv.with_srv s v).
Proof. intros (H1 & H2 & H3) E; unfold pending_inv; simpl; rewrite E; auto. Qed.

(** Discharges the side conditions of the [StFacts] lemmas for
    [pending_inv] and for [extends]. *)
Ltac frag_hyps :=
  intros;
  match goal with
  | |- pending_inv (Srv.send_to _ _ _ _) => apply inv_send; assumption
  | |- pending_inv (Srv.with_sub _ _) => assumption
  | |- pending_inv (Srv.log (Srv.with_srv _ _) (Acked _ _)) => apply inv_ack; assumption
  | |- pending_inv (Srv.log _ (Resent _ _)) => apply inv_resend; assumption
  | |- pending_inv (Srv.log _ _) => apply inv_log; assumption
  | |- pending_inv (Srv.with_srv _ _) => apply inv_srv; assumption
  | |- extends _ (Srv.send_to _ _ _ _) => apply extends_step; assumption
  | |- extends _ (Srv.with_sub _ _) => apply extends_step; assumption
  | |- extends _ (Srv.log (Srv.with_srv _ _) _) => do 2 apply extends_step; assumption
  | |- extends _ (Srv.log _ _) => apply extends_step; assumption
  | |- extends _ (Srv.with_srv _ _) => apply extends_step; assumption
  end.

Lemma extends_refl {Sub : Type} (s : @Srv.St Sub) : extends (Srv.trace s) s.
Proof. exists []; rewrite app_nil_r; reflexivity. Qed.

Lemma resend_trace {Sub : Type} (l : list (Addr * Obj)) (s : @Srv.St Sub) :
  Srv.trace (fold_left (fun s e => Srv.log s (Resent (fst e) (snd e))) l s)
  = Srv.trace s ++ map (fun e => Resent (fst e) (snd e)) l.
Proof.
  revert s; induction l as [| e l IH]; intros s; simpl; [rewrite app_nil_r; reflexivity |].
  rewrite IH; simpl; rewrite <- app_assoc; reflexivity.
Qed.

(** A step that completes resends every entry pending when it starts and
    not acknowledged during it, and the entry stays pending. *)
Lemma step_resends {Sub : Type} (decode : list byte -> option Obj) (hooks : Srv.Hooks (Sub := Sub))
      (inbox : list (float * Recv)) (now dt : float) (s s' : @Srv.St Sub) (e : Addr * Obj) :
  pending_inv s -> Srv.step decode hooks inbox now dt s = Some s' ->
  In e (not_acknoledged (Srv.srv s)) ->
  exists t, Srv.trace s' = Srv.trace s ++ t
    /\ (~ In (Acked (fst e) (snd e)) t ->
        In (Resent (fst e) (snd e)) t /\ In e (not_acknoledged (Srv.srv s'))).
Proof.
  intros Hinv H He.
  unfold Srv.step, Srv.bind in H.
  destruct (Srv.handle_messages decode hooks inbox s) as [s1 |] eqn:E1; [| discriminate].
  destruct (Srv.check_disconnects hooks now s1) as [s2 |] eqn:E2; [| discriminate].
  assert (I1 : pending_inv s1)
    by (eapply (StFacts.handle_messages_P decode hooks pending_inv);
        first [exact Hinv | exact E1 | frag_hyps]).
  assert (I2 : pending_inv s2)
    by (eapply (StFacts.disconnect_expired_P hooks pending_inv);
        first [exact I1 | exact E2 | frag_hyps]).
  assert (X1 : extends (Srv.trace s) s1)
    by (eapply (StFacts.handle_messages_P decode hooks (extends (Srv.trace s)));
        first [exact (extends_refl s) | exact E1 | frag_hyps]).
  assert (X2 : extends (Srv.trace s1) s2)
    by (eapply (StFacts.disconnect_expired_P hooks (extends (Srv.trace s1)));
        first [exact (extends_refl s1) | exact E2 | frag_hyps]).
  unfold Srv.update in H.
  set (s3 := fold_left (fun s e => Srv.log s (Resent (fst e) (snd e))) (not_acknoledged (Srv.srv s2)) s2) in H.
  assert (I3 : pending_inv s3)
    by (eapply (StFacts.resend_P pending_inv); first [exact I2 | exact (fun e H => H) | frag_hyps]).
  assert (X4 : extends (Srv.trace s3) s')
    by (eapply (StFacts.run_hook_P (extends (Srv.trace s3)));
        first [exact (extends_refl s3) | exact H | frag_hyps]).
  assert (I4 : pending_inv s')
    by (eapply (StFacts.run_hook_P pending_inv); first [exact I3 | exact H | frag_hyps]).
  destruct X1 as [t1 T1], X2 as [t2 T2], X4 as [t4 T4].
  assert (T3 : Srv.trace s3 = Srv.trace s2 ++ map (fun e => Resent (fst e) (snd e)) (not_acknoledged (Srv.srv s2)))
    by apply resend_trace.
  set (t3 := map (fun e => Resent (fst e) (snd e)) (not_acknoledged (Srv.srv s2))) in T3.
  exists (t1 ++ t2 ++ t3 ++ t4).
  split; [rewrite T4, T3, T2, T1, <- !app_assoc; reflexivity |].
  intros NA.
  destruct Hinv as (H1 & H2 & _).
  assert (Ha : is_acknowledged (snd e) = true) by (apply H1; exact He).
  assert (R0 : reg (Srv.trace s) e = true)
    by (rewrite <- H2 by exact Ha; apply existsb_pending; auto).
  assert (Rk : forall t, ~ In (Acked (fst e) (snd e)) t -> reg (Srv.trace s ++ t) e = true)
    by (intros t Nt; unfold reg; rewrite fold_left_app; apply reg_keep; auto).
  split.
  - assert (In2 : In e (not_acknoledged (Srv.srv s2))).
    { destruct I2 as (_ & H2' & _).
      enough (X : existsb (pending_eqb e) (not_acknoledged (Srv.srv s2)) = true)
        by (apply existsb_pending in X; tauto).
      rewrite H2' by exact Ha. rewrite T2, T1, <- app_assoc. apply Rk.
      intros Hin; apply NA; apply in_app_or in Hin; apply in_or_app; destruct Hin; auto.
      right; apply in_or_app; auto. }
    apply in_or_app; right; apply in_or_app; right; apply in_or_app; left.
    unfold t3; apply (in_map (fun e => Resent (fst e) (snd e))); exact In2.
  - destruct I4 as (_ & H2' & _).
    enough (X : existsb (pending_eqb e) (not_acknoledged (Srv.srv s')) = true)
      by (apply existsb_pending in X; tauto).
    rewrite H2' by exact Ha. rewrite T4, T3, T2, T1, <- !app_assoc. apply Rk; exact NA.
Qed.

End AckFacts.

(** *** C2: retransmission until acknowledged *)

(** C2 (counterexample): an [Acknowledge] whose payload cannot be hashed
    (an [Acknowledge], or a [SetPositionCommand] with its [Vector2] fields),
    with no pending entry to match, makes [set.remove] raise [TypeError];
    [except KeyError] does not catch it and it leaves [Server.step] (here an
    [EchoServer]). *)
Lemma unhashable_ack_raises :
  Srv.step (fun _ => Some (OAcknowledge (OAcknowledge (OCommand (SetIdCommand 1))))) Srv.echo_hooks
    [(0, Datagram (PROTOCOL_HEADER ++ [Byte.x01]) (mkAddr "10.0.0.2" 5000))] 0 0
    (Srv.mkSt Server_new tt []) = None
  /\ Srv.step (fun _ => Some (OAcknowledge (OCommand (SetPositionCommand 0 1 Vec.zero Vec.zero Vec.zero))))
       Srv.echo_hooks
       [(0, Datagram (PROTOCOL_HEADER ++ [Byte.x01]) (mkAddr "10.0.0.2" 5000))] 0 0
       (Srv.mkSt Server_new tt []) = None.
Proof. split; vm_compute; reflexivity. Qed.

(** C2 (amended). For any subclass hooks and any run of [Server.step()]s from a fresh
    [Server]: (1) a step that completes resends ([Resent], the resend loop
    of [Server.update]) every entry [(peer, payload)] pending when it starts,
    unless an [Acknowledge] naming that entry is processed during the step,
    and the entry is still pending after it; (2) after an [Acknowledge]
    naming [(peer, payload)] has removed the entry ([Acked]), it is never
    resent again unless a later [send_to] records the same pair anew
    ([Sent peer payload true]); (3) an [Acknowledge] from [peer] of a
    hashable payload with no matching pending entry only refreshes the
    peer's activity time: no exception, no hook, nothing sent, the pending
    set unchanged; (4) one that matches removes the entry; (5) an
    [Acknowledge] of a payload that cannot be hashed raises [TypeError]
    out of [_handle_message], matching entry or not. *)
Theorem retransmit_until_acked {Sub : Type} (decode : list byte -> option Obj)
        (hooks : Srv.Hooks (Sub := Sub)) (u0 : Sub) :
  (forall inputs s inbox now dt s' e,
     Srv.steps decode hooks inputs (Srv.mkSt Server_new u0 []) = Some s ->
     Srv.step decode hooks inbox now dt s = Some s' ->
     In e (not_acknoledged (Srv.srv s)) ->
     exists t, Srv.trace s' = Srv.trace s ++ t
       /\ (~ In (Acked (fst e) (snd e)) t ->
           In (Resent (fst e) (snd e)) t /\ In e (not_acknoledged (Srv.srv s'))))
  /\ (forall inputs s tr1 tr2 tr3 a o,
        Srv.steps decode hooks inputs (Srv.mkSt Server_new u0 []) = Some s ->
        Srv.trace s = tr1 ++ Acked a o :: tr2 ++ Resent a o :: tr3 ->
        In (Sent a o true) tr2)
  /\ (forall (s : @Srv.St Sub) a data now x,
        pickle_loads decode data = Some (OAcknowledge x) -> hashable x = true ->
        existsb (pending_eqb (a, x)) (not_acknoledged (Srv.srv s)) = false ->
        Srv.handle_message decode hooks a data now s
        = Some (Srv.with_srv s (Srv.set_timeouts (Srv.srv s)
                                  (PyDict.set addr_eqb (timeouts (Srv.srv s)) a now))))
  /\ (forall (s : @Srv.St Sub) a data now x,
        pickle_loads decode data = Some (OAcknowledge x) ->
        is_acknowledged x = true -> In (a, x) (not_acknoledged (Srv.srv s)) ->
        exists s', Srv.handle_message decode hooks a data now s = Some s'
          /\ ~ In (a, x) (not_acknoledged (Srv.srv s'))
          /\ Srv.trace s' = Srv.trace s ++ [Acked a x])
  /\ (forall (s : @Srv.St Sub) a data now x,
        pickle_loads decode data = Some (OAcknowledge x) -> hashable x = false ->
        Srv.handle_message decode hooks a data now s = None).
Proof.
  split; [| split; [| split; [| split]]].
  - intros inputs s inbox now dt s' e Hs H He.
    apply (AckFacts.step_resends decode hooks inbox now dt s s' e); auto.
    exact (AckFacts.steps_inv decode hooks inputs _ s (AckFacts.inv_init u0) Hs).
  - intros inputs s tr1 tr2 tr3 a o Hs E.
    destruct (AckFacts.steps_inv decode hooks inputs _ s (AckFacts.inv_init u0) Hs) as (_ & _ & H3).
    assert (R : AckFacts.reg (tr1 ++ Acked a o :: tr2) (a, o) = true).
    { apply (H3 _ a o tr3). rewrite E, <- app_assoc; reflexivity. }
    pose proof (AckFacts.reg_true_acked _ _ R) as Ha.
    unfold AckFacts.reg in R; rewrite fold_left_app in R; simpl in R.
    rewrite (AckFacts.pending_eqb_refl (a, o) Ha) in R.
    destruct (AckFacts.reg_rise _ _ _ R) as [F | F]; [discriminate | exact F].
  - intros s a data now x Hd Hh Hx. unfold Srv.handle_message; rewrite Hd, Hh; simpl.
    unfold set_remove; simpl; rewrite Hx; reflexivity.
  - intros s a data now x Hd Hx Hin.
    assert (Hh : hashable x = true) by (destruct x as [[] | | | |]; simpl in *; congruence).
    unfold Srv.handle_message; rewrite Hd, Hh; simpl.
    unfold set_remove; simpl.
    assert (X : existsb (pending_eqb (a, x)) (not_acknoledged (Srv.srv s)) = true)
      by (apply AckFacts.existsb_pending; auto).
    rewrite X. eexists; split; [reflexivity |]. simpl; split; [| reflexivity].
    intros F; apply filter_In in F as [_ F].
    rewrite (AckFacts.pending_eqb_refl (a, x) Hx) in F; discriminate.
  - intros s a data now x Hd Hh. unfold Srv.handle_message; rewrite Hd, Hh; reflexivity.
Qed.

Lemma retransmit_until_acked_witness :
  exists s s',
    Srv.steps (fun _ => Some (OCommand (SetIdCommand 1))) Srv.echo_hooks
      [([(0, Datagram (PROTOCOL_HEADER ++ [Byte.x01]) (mkAddr "10.0.0.2" 5000))], 0, 0)]
      (Srv.mkSt Server_new tt []) = Some s
    /\ Srv.step (fun _ => Some (OCommand (SetIdCommand 1))) Srv.echo_hooks [] 1 0 s = Some s'
    /\ In (mkAddr "10.0.0.2" 5000, OCommand (SetIdCommand 1)) (not_acknoledged (Srv.srv s))
    /\ exists t, Srv.trace s' = Srv.trace s ++ t
       /\ (~ In (Acked (mkAddr "10.0.0.2" 5000) (OCommand (SetIdCommand 1))) t ->
           In (Resent (mkAddr "10.0.0.2" 5000) (OCommand (SetIdCommand 1))) t
           /\ In (mkAddr "10.0.0.2" 5000, OCommand (SetIdCommand 1)) (not_acknoledged (Srv.srv s'))).
Proof.
  eexists; eexists.
  split; [cbv; reflexivity |].
  split; [cbv; reflexivity |].
  split; [simpl; auto |].
  apply (proj1 (retransmit_until_acked (fun _ => Some (OCommand (SetIdCommand 1))) Srv.echo_hooks tt)
           [([(0, Datagram (PROTOCOL_HEADER ++ [Byte.x01]) (mkAddr "10.0.0.2" 5000))], 0, 0)]
           _ [] 1 0 _ (mkAddr "10.0.0.2" 5000, OCommand (SetIdCommand 1)));
    [vm_compute; reflexivity | vm_compute; reflexivity | simpl; auto].
Defined.

(** ** Clients, activity times and the connect/disconnect events *)
Module PeerFacts.
Import Commands Net.

(** Events that are neither a connect nor a disconnect. *)
Definition quiet (t : list Event) : Prop :=
  forall ev, In ev t -> match ev with Connected _ | Disconnected _ => False | _ => True end.

(** [clients], [timeouts] and [client_timeout] unchanged. *)
Definition same_ct (v v' : Server) : Prop :=
  clients v' = clients v /\ timeouts v' = timeouts v /\ client_timeout v' = client_timeout v.

(** [clients] and [timeouts] are a list and a dict over the same addresses. *)
Definition srv_wf (v : Server) : Prop :=
  NoDup (clients v) /\ NoDup (map fst (timeouts v))
  /\ forall a, In a (clients v) <-> In a (map fst (timeouts v)).

Lemma quiet_app (t1 t2 : list Event) : quiet t1 -> quiet t2 -> quiet (t1 ++ t2).
Proof. intros H1 H2 ev H; apply in_app_or in H; destruct H as [H | H]; [exact (H1 ev H) | exact (H2 ev H)]. Qed.

Lemma quiet_nil : quiet [].
Proof. intros ev []. Qed.

Section Frag.
Variable decode : list byte -> option Obj.
Context {Sub : Type}.
Variable hooks : Srv.Hooks (Sub := Sub).

Lemma send_to_ct (a : Addr) (o : Obj) (b : bool) (s : @Srv.St Sub) :
  same_ct (Srv.srv s) (Srv.srv (Srv.send_to a o b s))
  /\ exists t, Srv.trace (Srv.send_to a o b s) = Srv.trace s ++ t /\ quiet t.
Proof.
  unfold Srv.send_to, Srv.log, Srv.with_srv, same_ct; simpl.
  split; [destruct (is_acknowledged o && b); simpl; auto |].
  eexists; split; [reflexivity |]. intros ev [<- | []]; exact I.
Qed.

Lemma send_to_all_ct (o : Obj) (l : list Addr) (s : @Srv.St Sub) :
  same_ct (Srv.srv s) (Srv.srv (fold_left (fun s a => Srv.send_to a o true s) l s))
  /\ exists t, Srv.trace (fold_left (fun s a => Srv.send_to a o true s) l s) = Srv.trace s ++ t /\ quiet t.
Proof.
  revert s; induction l as [| a l IH]; intros s; simpl.
  - split; [repeat split | exists []; rewrite app_nil_r; split; auto using quiet_nil].
  - destruct (send_to_ct a o true s) as [(C1 & T1 & K1) (t1 & E1 & Q1)].
    destruct (IH (Srv.send_to a o true s)) as [(C2 & T2 & K2) (t2 & E2 & Q2)].
    split; [repeat split; congruence |].
    exists (t1 ++ t2); rewrite E2, E1, app_assoc; split; auto using quiet_app.
Qed.

Lemma perform_ct (acts : list Action) (s : @Srv.St Sub) :
  same_ct (Srv.srv s) (Srv.srv (Srv.perform acts s))
  /\ exists t, Srv.trace (Srv.perform acts s) = Srv.trace s ++ t /\ quiet t.
Proof.
  unfold Srv.perform; revert s; induction acts as [| act acts IH]; intros s; simpl.
  - split; [repeat split | exists []; rewrite app_nil_r; split; auto using quiet_nil].
  - set (s1 := match act with SendTo a o => _ | SendToAll o => _ end).
    assert (H1 : same_ct (Srv.srv s) (Srv.srv s1)
                 /\ exists t, Srv.trace s1 = Srv.trace s ++ t /\ quiet t).
    { unfold s1; destruct act as [a o | o]; [apply send_to_ct |].
      unfold Srv.send_to_all; apply send_to_all_ct. }
    destruct H1 as [(C1 & T1 & K1) (t1 & E1 & Q1)].
    destruct (IH s1) as [(C2 & T2 & K2) (t2 & E2 & Q2)].
    split; [repeat split; congruence |].
    exists (t1 ++ t2); rewrite E2, E1, app_assoc; split; auto using quiet_app.
Qed.
Lemma run_hook_ct (r : option (Sub * list Action)) (s s' : @Srv.St Sub) :
  Srv.run_hook r s = Some s' ->
  same_ct (Srv.srv s) (Srv.srv s') /\ exists t, Srv.trace s' = Srv.trace s ++ t /\ quiet t.
Proof.
  unfold Srv.run_hook; destruct r as [[u acts] |]; [| discriminate].
  intros E; inversion E; subst. apply (perform_ct acts (Srv.with_sub s u)).
Qed.

Lemma handle_message_ct (a : Addr) (data : list byte) (now : float) (s s' : @Srv.St Sub) :
  Srv.handle_message decode hooks a data now s = Some s' ->
  clients (Srv.srv s') = clients (Srv.srv s)
  /\ timeouts (Srv.srv s') = PyDict.set addr_eqb (timeouts (Srv.srv s)) a now
  /\ client_timeout (Srv.srv s') = client_timeout (Srv.srv s)
  /\ exists t, Srv.trace s' = Srv.trace s ++ t /\ quiet t.
Proof.
  unfold Srv.handle_message.
  destruct (pickle_loads decode data) as [o |]; [| discriminate].
  destruct o as [c | o | k | k |];
    try (intros H; destruct (run_hook_ct _ _ _ H) as [(C & T & K) (t & E & Q)];
         simpl in C, T, K, E; rewrite C, T, K; split; [reflexivity |]; split; [reflexivity |];
         split; [reflexivity |];
         eexists; split; [rewrite E, <- app_assoc; reflexivity |];
         intros ev [<- | Hev]; [exact I | exact (Q ev Hev)]).
  destruct (negb (hashable o)); [first [discriminate | intros ?; discriminate] |].
  match goal with |- context [set_remove ?x ?y] => destruct (set_remove x y) end;
    intros H; inversion H; subst; simpl; repeat split; auto.
  - exists [Acked a o]; split; auto. intros ev [<- | []]; exact I.
  - exists []; rewrite app_nil_r; split; auto using quiet_nil.
Qed.

Lemma handle_connect_ct (a : Addr) (data : list byte) (now : float) (s s' : @Srv.St Sub) :
  Srv.handle_connect decode hooks a data now s = Some s' ->
  clients (Srv.srv s') = clients (Srv.srv s) ++ [a]
  /\ timeouts (Srv.srv s') = PyDict.set addr_eqb (timeouts (Srv.srv s)) a now
  /\ client_timeout (Srv.srv s') = client_timeout (Srv.srv s)
  /\ exists t, Srv.trace s' = Srv.trace s ++ Connected a :: t /\ quiet t.
Proof.
  unfold Srv.handle_connect, Srv.bind.
  destruct (Srv.run_hook _ _) as [s2 |] eqn:E; [| discriminate].
  destruct (run_hook_ct _ _ _ E) as [(C & T & K) (t & E1 & Q)]; simpl in C, T, K, E1.
  intros H; destruct (handle_message_ct _ _ _ _ _ H) as (C' & T' & K' & t' & E' & Q').
  rewrite C', T', K', C, T, K; repeat split; auto.
  exists (t ++ t'); split; [rewrite E', E1, <- !app_assoc; reflexivity | apply quiet_app; auto].
Qed.

Lemma existsb_addr (a : Addr) (l : list Addr) : existsb (addr_eqb a) l = true <-> In a l.
Proof.
  rewrite existsb_exists; split.
  - intros (b & Hb & E); apply addr_eqb_spec in E; subst; exact Hb.
  - intros H; exists a; split; auto; apply addr_eqb_spec; reflexivity.
Qed.

Lemma nodup_snoc {A : Type} (l : list A) (x : A) : NoDup l -> ~ In x l -> NoDup (l ++ [x]).
Proof.
  intros Hnd Hx; induction Hnd as [| y l Hy Hl IH]; simpl; [constructor; [tauto | constructor] |].
  constructor.
  - rewrite in_app_iff; simpl; intros [H | [H | []]]; [contradiction | subst; apply Hx; left; auto].
  - apply IH; intros H; apply Hx; right; exact H.
Qed.

Lemma wf_message (v v' : Server) (a : Addr) (now : float) :
  srv_wf v -> In a (clients v) -> clients v' = clients v ->
  timeouts v' = PyDict.set addr_eqb (timeouts v) a now -> srv_wf v'.
Proof.
  unfold srv_wf; intros (N1 & N2 & E) Ha -> ->. split; [exact N1 |]. split.
  - apply (KeyFacts.nodup_keys_set addr_eqb addr_eqb_spec); exact N2.
  - intros b; rewrite (KeyFacts.in_keys_set addr_eqb addr_eqb_spec), <- E.
    split; [auto | intros [H | ->]; auto].
Qed.

Lemma wf_connect (v v' : Server) (a : Addr) (now : float) :
  srv_wf v -> ~ In a (clients v) -> clients v' = clients v ++ [a] ->
  timeouts v' = PyDict.set addr_eqb (timeouts v) a now -> srv_wf v'.
Proof.
  unfold srv_wf; intros (N1 & N2 & E) Ha -> ->. split; [apply nodup_snoc; auto |]. split.
  - apply (KeyFacts.nodup_keys_set addr_eqb addr_eqb_spec); exact N2.
  - intros b; rewrite (KeyFacts.in_keys_set addr_eqb addr_eqb_spec), <- E, in_app_iff; simpl.
    intuition.
Qed.

(** No disconnect event among [t]. *)
Definition no_disc (t : list Event) : Prop := forall b, ~ In (Disconnected b) t.

Lemma handle_messages_wf (inbox : list (float * Recv)) (s s' : @Srv.St Sub) :
  srv_wf (Srv.srv s) -> Srv.handle_messages decode hooks inbox s = Some s' ->
  srv_wf (Srv.srv s') /\ client_timeout (Srv.srv s') = client_timeout (Srv.srv s)
  /\ exists t, Srv.trace s' = Srv.trace s ++ t /\ no_disc t.
Proof.
  revert s; induction inbox as [| [now [data a |]] inbox IH]; intros s Hwf; simpl.
  - intros E; inversion E; subst; split; auto; split; auto.
    exists []; rewrite app_nil_r; split; [reflexivity | intros b []].
  - destruct (startswith data PROTOCOL_HEADER); [| apply IH; exact Hwf].
    unfold Srv.bind.
    destruct (existsb (addr_eqb a) (clients (Srv.srv s))) eqn:X.
    + destruct (Srv.handle_message decode hooks a _ now s) as [s1 |] eqn:E; [| discriminate].
      destruct (handle_message_ct _ _ _ _ _ E) as (C & T & K & t1 & E1 & Q1).
      intros H; destruct (IH s1 (wf_message _ _ a now Hwf (proj1 (existsb_addr _ _) X) C T) H)
        as (W & K2 & t2 & E2 & D2).
      split; [exact W |]; split; [congruence |].
      exists (t1 ++ t2); rewrite E2, E1, app_assoc; split; [reflexivity |].
      intros b Hb; apply in_app_or in Hb; destruct Hb as [Hb | Hb]; [exact (Q1 _ Hb) | exact (D2 b Hb)].
    + destruct (Srv.handle_connect decode hooks a _ now s) as [s1 |] eqn:E; [| discriminate].
      destruct (handle_connect_ct _ _ _ _ _ E) as (C & T & K & t1 & E1 & Q1).
      assert (Na : ~ In a (clients (Srv.srv s))) by (rewrite <- existsb_addr; congruence).
      intros H; destruct (IH s1 (wf_connect _ _ a now Hwf Na C T) H) as (W & K2 & t2 & E2 & D2).
      split; [exact W |]; split; [congruence |].
      exists (Connected a :: t1 ++ t2); rewrite E2, E1, <- app_assoc; split; [reflexivity |].
      intros b [Hb | Hb]; [discriminate |].
      apply in_app_or in Hb; destruct Hb as [Hb | Hb]; [exact (Q1 _ Hb) | exact (D2 b Hb)].
  - apply IH; exact Hwf.
Qed.

(** Datagrams from other addresses leave [a]'s registration and activity
    time alone. *)
Lemma handle_messages_other (inbox : list (float * Recv)) (s s' : @Srv.St Sub) (a : Addr) :
  Srv.handle_messages decode hooks inbox s = Some s' ->
  (forall tm d, In (tm, Datagram d a) inbox -> startswith d PROTOCOL_HEADER = false) ->
  (In a (clients (Srv.srv s')) <-> In a (clients (Srv.srv s)))
  /\ PyDict.get addr_eqb (timeouts (Srv.srv s')) a = PyDict.get addr_eqb (timeouts (Srv.srv s)) a.
Proof.
  revert s; induction inbox as [| [now [data b |]] inbox IH]; intros s; simpl.
  - intros E _; inversion E; subst; tauto.
  - intros H Hin.
    assert (Hin' : forall tm d, In (tm, Datagram d a) inbox -> startswith d PROTOCOL_HEADER = false)
      by (intros tm d Hd; apply (Hin tm d); right; exact Hd).
    destruct (startswith data PROTOCOL_HEADER) eqn:Sw; [| exact (IH s H Hin')].
    assert (Hba : b <> a) by (intros ->; rewrite (Hin now data (or_introl eq_refl)) in Sw; discriminate).
    unfold Srv.bind in H.
    destruct (if existsb (addr_eqb b) (clients (Srv.srv s)) then _ else _) as [s1 |] eqn:E;
      [| discriminate].
    destruct (IH s1 H Hin') as [C2 T2]. rewrite C2, T2.
    destruct (existsb (addr_eqb b) (clients (Srv.srv s))).
    + destruct (handle_message_ct _ _ _ _ _ E) as (C & T & _). rewrite C, T.
      rewrite (PyDictFacts.get_set_ne addr_eqb addr_eqb_spec) by exact Hba; tauto.
    + destruct (handle_connect_ct _ _ _ _ _ E) as (C & T & _). rewrite C, T.
      rewrite (PyDictFacts.get_set_ne addr_eqb addr_eqb_spec) by exact Hba.
      rewrite in_app_iff; simpl; split; [| reflexivity]; split; [| tauto].
      intros [H1 | [H1 | []]]; [exact H1 | congruence].
  - intros H Hin; apply (IH s H); intros tm d Hd; apply (Hin tm d); right; exact Hd.
Qed.

Lemma list_remove_split (l l' : list Addr) (a : Addr) :
  list_remove l a = Some l' -> exists l1 l2, l = l1 ++ a :: l2 /\ l' = l1 ++ l2.
Proof.
  revert l'; induction l as [| b l IH]; simpl; intros l' H; [discriminate |].
  destruct (addr_eqb b a) eqn:E.
  - inversion H; subst. apply addr_eqb_spec in E; subst. exists [], l'; auto.
  - destruct (list_remove l a) as [l0 |]; [| discriminate]. simpl in H; inversion H; subst.
    destruct (IH l0 eq_refl) as (l1 & l2 & -> & ->). exists (b :: l1), l2; auto.
Qed.

(** [_handle_disconnect(a)] takes [a] out of [clients] and [timeouts] and
    logs exactly one disconnect, of [a]. *)
Lemma handle_disconnect_ct (a : Addr) (s s' : @Srv.St Sub) :
  srv_wf (Srv.srv s) -> Srv.handle_disconnect hooks a s = Some s' ->
  srv_wf (Srv.srv s') /\ client_timeout (Srv.srv s') = client_timeout (Srv.srv s)
  /\ (forall b, In b (clients (Srv.srv s')) <-> In b (clients (Srv.srv s)) /\ b <> a)
  /\ exists t, Srv.trace s' = Srv.trace s ++ Disconnected a :: t /\ quiet t.
Proof.
  intros (N1 & N2 & Ew). unfold Srv.handle_disconnect.
  destruct (list_remove (clients (Srv.srv s)) a) as [cl |] eqn:L; [| discriminate].
  destruct (PyDict.del addr_eqb (timeouts (Srv.srv s)) a) as [tm |] eqn:D; [| discriminate].
  intros H; destruct (run_hook_ct _ _ _ H) as [(C & T & K) (t & E & Q)]; simpl in C, T, K, E.
  destruct (list_remove_split _ _ _ L) as (l1 & l2 & El & ->).
  destruct (PyDictFacts.del_nodup addr_eqb addr_eqb_spec _ _ _ N2 D) as (N3 & _ & Ek).
  assert (Hcl : forall b, In b (l1 ++ l2) <-> In b (clients (Srv.srv s)) /\ b <> a).
  { rewrite El in N1 |- *. intros b; split.
    - intros Hb; split; [apply in_or_app; apply in_app_or in Hb; simpl; tauto |].
      intros ->; exact (NoDup_remove_2 _ _ _ N1 Hb).
    - intros [Hb Hne]; apply in_app_or in Hb; apply in_or_app; simpl in Hb.
      destruct Hb as [Hb | [Hb | Hb]]; [tauto | congruence | tauto]. }
  unfold srv_wf; rewrite C, T, K. split; [| split; [reflexivity | split]].
  - split; [rewrite El in N1; exact (NoDup_remove_1 _ _ _ N1) |]. split; [exact N3 |].
    intros b; rewrite Hcl, Ek, Ew; tauto.
  - exact Hcl.
  - exists t; rewrite E, <- app_assoc; split; [reflexivity | exact Q].
Qed.

(** Number of disconnects of [b] logged in [t]. *)
Definition disc_count (b : Addr) (t : list Event) : nat :=
  List.length (filter (fun ev => match ev with Disconnected c => addr_eqb c b | _ => false end) t).

Lemma disc_count_app (b : Addr) (t1 t2 : list Event) :
  disc_count b (t1 ++ t2) = (disc_count b t1 + disc_count b t2)%nat.
Proof. unfold disc_count; rewrite filter_app, length_app; reflexivity. Qed.

Lemma disc_count_quiet (b : Addr) (t : list Event) : quiet t -> disc_count b t = 0%nat.
Proof.
  unfold disc_count; induction t as [| ev t IH]; intros Q; simpl; [reflexivity |].
  assert (Q' : quiet t) by (intros e He; apply Q; right; exact He).
  specialize (Q ev (or_introl eq_refl)).
  destruct ev; try contradiction; apply IH; exact Q'.
Qed.

Lemma disc_count_no_disc (b : Addr) (t : list Event) : no_disc t -> disc_count b t = 0%nat.
Proof.
  unfold disc_count; induction t as [| ev t IH]; intros Q; simpl; [reflexivity |].
  assert (Q' : no_disc t) by (intros c Hc; apply (Q c); right; exact Hc).
  destruct ev; try (apply IH; exact Q'). exfalso; exact (Q _ (or_introl eq_refl)).
Qed.

(** The loop of [_check_disconnects] over a snapshot [entries] of
    [timeouts]: an address is disconnected once per expired entry of it. *)
Lemma disconnect_expired_ct (now : float) (entries : list (Addr * float)) (s s' : @Srv.St Sub) :
  srv_wf (Srv.srv s) -> Srv.disconnect_expired hooks now entries s = Some s' ->
  srv_wf (Srv.srv s') /\ client_timeout (Srv.srv s') = client_timeout (Srv.srv s)
  /\ (forall b, In b (clients (Srv.srv s')) -> In b (clients (Srv.srv s)))
  /\ (forall b tb, In (b, tb) entries -> (client_timeout (Srv.srv s) <? now - tb) = true ->
        ~ In b (clients (Srv.srv s')))
  /\ exists t, Srv.trace s' = Srv.trace s ++ t
     /\ forall b, disc_count b t
          = List.length (filter (fun e => addr_eqb (fst e) b && (client_timeout (Srv.srv s) <? now - snd e))
                       entries).
Proof.
  revert s; induction entries as [| [c tc] rest IH]; intros s Hwf; simpl.
  - intros E; inversion E; subst. split; [exact Hwf |]; split; [reflexivity |].
    split; [auto |]. split; [intros b tb [] |].
    exists []; rewrite app_nil_r; split; reflexivity.
  - destruct (client_timeout (Srv.srv s) <? now - tc) eqn:X.
    + unfold Srv.bind. destruct (Srv.handle_disconnect hooks c s) as [s1 |] eqn:H1; [| discriminate].
      destruct (handle_disconnect_ct _ _ _ Hwf H1) as (W1 & K1 & C1 & t1 & E1 & Q1).
      intros H; destruct (IH s1 W1 H) as (W2 & K2 & C2 & R2 & t2 & E2 & D2).
      rewrite K1 in R2, D2.
      split; [exact W2 |]; split; [congruence |]. split.
      { intros b Hb; apply C1, C2, Hb. }
      split.
      { intros b tb [Hb | Hb] Ht.
        - inversion Hb; subst. intros Hin; apply C2, C1 in Hin; tauto.
        - exact (R2 b tb Hb Ht). }
      exists (Disconnected c :: t1 ++ t2); split; [rewrite E2, E1, <- !app_assoc; reflexivity |].
      intros b. change (Disconnected c :: t1 ++ t2) with ([Disconnected c] ++ t1 ++ t2).
      rewrite !disc_count_app, (disc_count_quiet b t1 Q1), D2. simpl; rewrite andb_true_r.
      unfold disc_count; simpl. destruct (addr_eqb c b); reflexivity.
    + intros H; destruct (IH s Hwf H) as (W2 & K2 & C2 & R2 & t2 & E2 & D2).
      split; [exact W2 |]; split; [exact K2 |]; split; [exact C2 |]. split.
      { intros b tb [Hb | Hb] Ht; [inversion Hb; subst; congruence | exact (R2 b tb Hb Ht)]. }
      exists t2; split; [exact E2 |]. intros b; rewrite D2; simpl; rewrite andb_false_r; reflexivity.
Qed.

Lemma expired_none (ct now : float) (a : Addr) (entries : list (Addr * float)) :
  ~ In a (map fst entries) ->
  filter (fun e => addr_eqb (fst e) a && (ct <? now - snd e)) entries = [].
Proof.
  induction entries as [| [c tc] rest IH]; simpl; intros H; [reflexivity |].
  destruct (addr_eqb c a) eqn:E; [apply addr_eqb_spec in E; tauto |].
  simpl; apply IH; tauto.
Qed.

(** An address with one expired entry in a dict snapshot is counted once. *)
Lemma expired_once (ct now t0 : float) (a : Addr) (entries : list (Addr * float)) :
  NoDup (map fst entries) -> In (a, t0) entries -> (ct <? now - t0) = true ->
  List.length (filter (fun e => addr_eqb (fst e) a && (ct <? now - snd e)) entries) = 1%nat.
Proof.
  induction entries as [| [c tc] rest IH]; simpl; intros Hnd Hin X; [contradiction |].
  inversion Hnd as [| ? ? Hc Hnd']; subst.
  destruct Hin as [Hin | Hin].
  - inversion Hin; subst.
    rewrite (proj2 (addr_eqb_spec a a) eq_refl), X; simpl.
    rewrite expired_none by exact Hc; reflexivity.
  - assert (Hca : c <> a) by (intros ->; apply Hc; apply (in_map fst) in Hin; exact Hin).
    destruct (addr_eqb c a) eqn:E; [apply addr_eqb_spec in E; contradiction |].
    simpl; apply IH; assumption.
Qed.

Lemma resend_srv (l : list (Addr * Obj)) (s : @Srv.St Sub) :
  Srv.srv (fold_left (fun s e => Srv.log s (Resent (fst e) (snd e))) l s) = Srv.srv s.
Proof. revert s; induction l as [| e l IH]; intros s; simpl; [reflexivity | rewrite IH; reflexivity]. Qed.

(** [update()] changes neither [clients] nor [timeouts], and connects or
    disconnects nobody. *)
Lemma update_ct (dt : float) (s s' : @Srv.St Sub) :
  Srv.update hooks dt s = Some s' ->
  same_ct (Srv.srv s) (Srv.srv s') /\ exists t, Srv.trace s' = Srv.trace s ++ t /\ quiet t.
Proof.
  unfold Srv.update; intros H.
  destruct (run_hook_ct _ _ _ H) as [(C & T & K) (t & E & Q)].
  rewrite resend_srv in C, T, K. rewrite AckFacts.resend_trace in E.
  split; [repeat split; assumption |].
  eexists; split; [rewrite E, <- app_assoc; reflexivity |].
  apply quiet_app; [| exact Q].
  intros ev Hev; apply in_map_iff in Hev; destruct Hev as (e & <- & _); exact I.
Qed.

Lemma step_wf (inbox : list (float * Recv)) (now dt : float) (s s' : @Srv.St Sub) :
  srv_wf (Srv.srv s) -> Srv.step decode hooks inbox now dt s = Some s' -> srv_wf (Srv.srv s').
Proof.
  intros Hwf; unfold Srv.step, Srv.bind.
  destruct (Srv.handle_messages decode hooks inbox s) as [s1 |] eqn:E1; [| discriminate].
  destruct (handle_messages_wf _ _ _ Hwf E1) as (W1 & _).
  unfold Srv.check_disconnects.
  destruct (Srv.disconnect_expired hooks now _ s1) as [s2 |] eqn:E2; [| discriminate].
  destruct (disconnect_expired_ct _ _ _ _ W1 E2) as (W2 & _).
  intros H; destruct (update_ct _ _ _ H) as [(C & T & _) _].
  unfold srv_wf; rewrite C, T; exact W2.
Qed.

Lemma steps_wf (inputs : list (list (float * Recv) * float * float)) (s s' : @Srv.St Sub) :
  srv_wf (Srv.srv s) -> Srv.steps decode hooks inputs s = Some s' -> srv_wf (Srv.srv s').
Proof.
  revert s; induction inputs as [| [[inbox now] dt] inputs IH]; intros s Hwf; simpl.
  - intros E; inversion E; subst; exact Hwf.
  - unfold Srv.bind; destruct (Srv.step decode hooks inbox now dt s) as [s1 |] eqn:E; [| discriminate].
    apply IH; exact (step_wf _ _ _ _ _ Hwf E).
Qed.

Lemma wf_new : srv_wf Server_new.
Proof. split; [constructor |]; split; [constructor | simpl; tauto]. Qed.

Lemma handle_messages_app (l1 l2 : list (float * Recv)) (s : @Srv.St Sub) :
  Srv.handle_messages decode hooks (l1 ++ l2) s
  = Srv.bind (Srv.handle_messages decode hooks l1 s) (Srv.handle_messages decode hooks l2).
Proof.
  revert s; induction l1 as [| [now [data a |]] l1 IH]; intros s; simpl; [reflexivity | | apply IH].
  destruct (startswith data PROTOCOL_HEADER); [| apply IH].
  unfold Srv.bind at 1 3.
  destruct (if existsb (addr_eqb a) (clients (Srv.srv s)) then _ else _); [apply IH | reflexivity].
Qed.

Lemma get_in_addr {V : Type} (d : list (Addr * V)) (a : Addr) (v : V) :
  PyDict.get addr_eqb d a = Some v -> In (a, v) d.
Proof.
  induction d as [| [b w] d IH]; simpl; [discriminate |].
  destruct (addr_eqb b a) eqn:E; [intros H; inversion H; subst; apply addr_eqb_spec in E; subst; left; auto |].
  intros H; right; exact (IH H).
Qed.

Lemma get_none_addr {V : Type} (d : list (Addr * V)) (a : Addr) :
  ~ In a (map fst d) -> PyDict.get addr_eqb d a = None.
Proof.
  intros H; destruct (PyDict.get addr_eqb d a) eqn:E; [| reflexivity].
  exfalso; apply H, (PyDictFacts.mem_in addr_eqb addr_eqb_spec); unfold PyDict.mem; rewrite E; reflexivity.
Qed.

End Frag.
End PeerFacts.

(** C3. Take a server reached by successive [step()]s from [Server(...)],
    with a registered peer [a] whose last activity [t0] lies more than
    [client_timeout] before the time [now] of [_check_disconnects]. If no
    protocol datagram from [a] comes in during the next [step()] and that
    step completes, then it disconnects [a]: it logs exactly one disconnect
    of [a], and with it runs the disconnect hook exactly once for [a]. [a]
    is no longer in [clients] nor in [timeouts] after that step. Conversely,
    once [a] is not in [clients], a protocol datagram from [a] is handled as
    a new connection: [_handle_connect] logs a connect of [a] and runs the
    connect hook. *)
Theorem idle_peer_disconnected_once {Sub : Type} (decode : list byte -> option Obj)
        (hooks : Srv.Hooks (Sub := Sub)) (u0 : Sub) :
  (forall inputs s inbox now dt s' a t0,
     Srv.steps decode hooks inputs (Srv.mkSt Server_new u0 []) = Some s ->
     In a (clients (Srv.srv s)) ->
     PyDict.get addr_eqb (timeouts (Srv.srv s)) a = Some t0 ->
     (client_timeout (Srv.srv s) <? now - t0) = true ->
     (forall tm d, In (tm, Datagram d a) inbox -> startswith d PROTOCOL_HEADER = false) ->
     Srv.step decode hooks inbox now dt s = Some s' ->
     exists t, Srv.trace s' = Srv.trace s ++ t /\ PeerFacts.disc_count a t = 1%nat
       /\ ~ In a (clients (Srv.srv s')) /\ PyDict.get addr_eqb (timeouts (Srv.srv s')) a = None)
  /\ (forall inputs s pre tm d rest now dt s' a,
        Srv.steps decode hooks inputs (Srv.mkSt Server_new u0 []) = Some s ->
        ~ In a (clients (Srv.srv s)) ->
        (forall tm' d', In (tm', Datagram d' a) pre -> startswith d' PROTOCOL_HEADER = false) ->
        startswith d PROTOCOL_HEADER = true ->
        Srv.step decode hooks (pre ++ (tm, Datagram d a) :: rest) now dt s = Some s' ->
        exists t, Srv.trace s' = Srv.trace s ++ t /\ In (Connected a) t).
Proof.
  split.
  - intros inputs s inbox now dt s' a t0 Hs Ha Ht0 X Hin H.
    pose proof (PeerFacts.steps_wf decode hooks inputs (Srv.mkSt Server_new u0 []) s PeerFacts.wf_new Hs) as Hwf.
    revert H; unfold Srv.step, Srv.bind.
    destruct (Srv.handle_messages decode hooks inbox s) as [s1 |] eqn:E1; [| discriminate].
    destruct (PeerFacts.handle_messages_wf decode hooks _ _ _ Hwf E1) as (W1 & K1 & t1 & Tr1 & D1).
    destruct (PeerFacts.handle_messages_other decode hooks _ _ _ _ E1 Hin) as (_ & G1).
    unfold Srv.check_disconnects.
    destruct (Srv.disconnect_expired hooks now (timeouts (Srv.srv s1)) s1) as [s2 |] eqn:E2;
      [| discriminate].
    destruct (PeerFacts.disconnect_expired_ct hooks _ _ _ _ W1 E2) as (W2 & K2 & _ & R2 & t2 & Tr2 & D2).
    rewrite K1 in R2, D2.
    assert (Hin1 : In (a, t0) (timeouts (Srv.srv s1))) by (apply PeerFacts.get_in_addr; congruence).
    intros H; destruct (PeerFacts.update_ct hooks _ _ _ H) as [(C3 & T3 & _) (t3 & Tr3 & Q3)].
    assert (Na : ~ In a (clients (Srv.srv s'))) by (rewrite C3; exact (R2 a t0 Hin1 X)).
    exists (t1 ++ t2 ++ t3). split; [rewrite Tr3, Tr2, Tr1, <- !app_assoc; reflexivity |].
    split; [| split; [exact Na |]].
    + rewrite !PeerFacts.disc_count_app, (PeerFacts.disc_count_no_disc a t1 D1),
        (PeerFacts.disc_count_quiet a t3 Q3), D2.
      rewrite (PeerFacts.expired_once _ _ t0 a _ (proj1 (proj2 W1)) Hin1 X); reflexivity.
    + apply PeerFacts.get_none_addr. rewrite T3, <- (proj2 (proj2 W2)), <- C3; exact Na.
  - intros inputs s pre tm d rest now dt s' a Hs Na Hpre Sw H.
    pose proof (PeerFacts.steps_wf decode hooks inputs (Srv.mkSt Server_new u0 []) s PeerFacts.wf_new Hs) as Hwf.
    revert H; unfold Srv.step; rewrite PeerFacts.handle_messages_app; unfold Srv.bind at 2.
    destruct (Srv.handle_messages decode hooks pre s) as [sp |] eqn:Ep; [| discriminate].
    destruct (PeerFacts.handle_messages_wf decode hooks _ _ _ Hwf Ep) as (Wp & _ & tp & Trp & _).
    destruct (PeerFacts.handle_messages_other decode hooks _ _ _ _ Ep Hpre) as (Cp & _).
    assert (Nap : ~ In a (clients (Srv.srv sp))) by (rewrite Cp; exact Na).
    simpl; rewrite Sw.
    replace (existsb (addr_eqb a) (clients (Srv.srv sp))) with false
      by (symmetry; apply not_true_iff_false; rewrite PeerFacts.existsb_addr; exact Nap).
    unfold Srv.bind.
    destruct (Srv.handle_connect decode hooks a _ tm sp) as [sc |] eqn:Ec; [| discriminate].
    destruct (PeerFacts.handle_connect_ct decode hooks _ _ _ _ _ Ec) as (Cc & Tc & _ & tc & Trc & _).
    pose proof (PeerFacts.wf_connect _ _ a tm Wp Nap Cc Tc) as Wc.
    destruct (Srv.handle_messages decode hooks rest sc) as [s1 |] eqn:E1; [| discriminate].
    destruct (PeerFacts.handle_messages_wf decode hooks _ _ _ Wc E1) as (W1 & _ & t1 & Tr1 & _).
    unfold Srv.check_disconnects.
    destruct (Srv.disconnect_expired hooks now (timeouts (Srv.srv s1)) s1) as [s2 |] eqn:E2;
      [| discriminate].
    destruct (PeerFacts.disconnect_expired_ct hooks _ _ _ _ W1 E2) as (_ & _ & _ & _ & t2 & Tr2 & _).
    intros H; destruct (PeerFacts.update_ct hooks _ _ _ H) as [_ (t3 & Tr3 & _)].
    exists (tp ++ Connected a :: tc ++ t1 ++ t2 ++ t3).
    split; [rewrite Tr3, Tr2, Tr1, Trc, Trp, <- !app_assoc; reflexivity |].
    apply in_or_app; right; left; reflexivity.
Qed.

Lemma idle_peer_disconnected_once_witness :
  exists s s',
    Srv.steps Scenario.decode_ping Srv.echo_hooks
      [([(0, Datagram (PROTOCOL_HEADER ++ Scenario.ping_pickle) (mkAddr "10.0.0.2" 5000))], 0, 0)]
      (Srv.mkSt Server_new tt []) = Some s
    /\ In (mkAddr "10.0.0.2" 5000) (clients (Srv.srv s))
    /\ PyDict.get addr_eqb (timeouts (Srv.srv s)) (mkAddr "10.0.0.2" 5000) = Some 0
    /\ (client_timeout (Srv.srv s) <? 3 - 0) = true
    /\ Srv.step Scenario.decode_ping Srv.echo_hooks [] 3 0 s = Some s'
    /\ exists t, Srv.trace s' = Srv.trace s ++ t
       /\ PeerFacts.disc_count (mkAddr "10.0.0.2" 5000) t = 1%nat
       /\ ~ In (mkAddr "10.0.0.2" 5000) (clients (Srv.srv s'))
       /\ PyDict.get addr_eqb (timeouts (Srv.srv s')) (mkAddr "10.0.0.2" 5000) = None.
Proof.
  eexists; eexists.
  split; [cbv; reflexivity |].
  split; [simpl; auto |].
  split; [vm_compute; reflexivity |].
  split; [vm_compute; reflexivity |].
  split; [cbv; reflexivity |].
  apply (proj1 (idle_peer_disconnected_once Scenario.decode_ping Srv.echo_hooks tt)
           [([(0, Datagram (PROTOCOL_HEADER ++ Scenario.ping_pickle) (mkAddr "10.0.0.2" 5000))], 0, 0)]
           _ [] 3 0 _ (mkAddr "10.0.0.2" 5000) 0);
    [vm_compute; reflexivity | simpl; auto | vm_compute; reflexivity | vm_compute; reflexivity
    | intros tm d [] | vm_compute; reflexivity].
Defined.

(** ** Further properties of the code *)

Module WireFacts.
Import Commands Net.

Lemma byte_eqb_refl (b : byte) : Byte.eqb b b = true.
Proof. apply Byte.byte_dec_lb; reflexivity. Qed.

Lemma startswith_app (h d : list byte) : startswith (h ++ d) h = true.
Proof. induction h as [| b h IH]; [destruct d; reflexivity | simpl; rewrite byte_eqb_refl, IH; reflexivity]. Qed.

Lemma removeprefix_app (h d : list byte) : removeprefix (h ++ d) h = d.
Proof. unfold removeprefix; rewrite startswith_app. induction h as [| b h IH]; simpl; auto. Qed.

Lemma set_velocity_twice (p : Player) (v w : Vector2) :
  Player.set_velocity (Player.set_velocity p v) w = Player.set_velocity p w.
Proof. destruct p; reflexivity. Qed.

Lemma set_velocity_same (p : Player) : Player.set_velocity p (Player.velocity p) = p.
Proof. destruct p; reflexivity. Qed.

Lemma set_add_in (l : list (Addr * Obj)) (e f : Addr * Obj) : In f l -> In f (set_add l e).
Proof. unfold set_add; destruct (existsb (pending_eqb e) l); auto using in_or_app. Qed.

Lemma set_add_new (l : list (Addr * Obj)) (e : Addr * Obj) :
  is_acknowledged (snd e) = true -> In e (set_add l e).
Proof.
  unfold set_add; intros H; destruct (existsb (pending_eqb e) l) eqn:E.
  - apply AckFacts.existsb_pending in E; tauto.
  - apply in_or_app; right; left; reflexivity.
Qed.

Section Fold.
Context {Sub : Type}.

Lemma send_to_all_fold (o : Obj) (l : list Addr) (s : @Srv.St Sub) :
  let s' := fold_left (fun s a => Srv.send_to a o true s) l s in
  Srv.trace s' = Srv.trace s ++ map (fun a => Sent a o (is_acknowledged o)) l
  /\ clients (Srv.srv s') = clients (Srv.srv s) /\ timeouts (Srv.srv s') = timeouts (Srv.srv s)
  /\ (forall e, In e (not_acknoledged (Srv.srv s)) -> In e (not_acknoledged (Srv.srv s')))
  /\ (forall a, In a l -> is_acknowledged o = true -> In (a, o) (not_acknoledged (Srv.srv s')))
  /\ (is_acknowledged o = false -> not_acknoledged (Srv.srv s') = not_acknoledged (Srv.srv s)).
Proof.
  revert s; induction l as [| b l IH]; intros s; simpl.
  - rewrite app_nil_r; repeat split; auto. intros a [].
  - destruct (IH (Srv.send_to b o true s)) as (T & C & M & P & A & N).
    unfold Srv.send_to, Srv.log, Srv.with_srv in T, C, M, P, A, N |- *; simpl in *.
    rewrite andb_true_r in *.
    destruct (is_acknowledged o) eqn:Ack; simpl in *.
    + split; [rewrite T, <- app_assoc; reflexivity |].
      split; [exact C |]. split; [exact M |].
      split; [intros e He; apply P, set_add_in, He |].
      split; [| discriminate].
      intros a [<- | Ha] _; [apply P, set_add_new, Ack | exact (A a Ha eq_refl)].
    + split; [rewrite T, <- app_assoc; reflexivity |].
      split; [exact C |]. split; [exact M |].
      split; [intros e He; apply P, He |]. split; [intros a _ H; discriminate |].
      intros _; apply N; reflexivity.
Qed.

End Fold.
End WireFacts.

(** Extra property: the datagram [Server.send_to] builds (the 4-byte
    protocol header followed by [pickle.dumps(obj)]), arriving from the
    client's host, is decoded back by [Client.recive] to the object that
    [pickle.loads] gives for the pickled bytes; [recive] answers with
    [Acknowledge(obj)] exactly when [obj] is [Acknowledged]. *)
Theorem send_to_recive_roundtrip (decode : list byte -> option Obj) (c : Client) (a : Addr)
    (payload : list byte) (o : Obj) :
  ip a = host c -> pickle_loads decode payload = Some o ->
  recive decode c (Some (Datagram (PROTOCOL_HEADER ++ payload) a))
  = (Returned o, if is_acknowledged o then [OAcknowledge o] else []).
Proof.
  intros Hip Hd; unfold recive; cbv beta iota.
  rewrite Hip, String.eqb_refl, WireFacts.startswith_app, WireFacts.removeprefix_app, Hd.
  reflexivity.
Qed.

Lemma send_to_recive_roundtrip_witness :
  ip (mkAddr "127.0.0.1" PORT) = host (mkClient "127.0.0.1")
  /\ pickle_loads Scenario.decode_ping Scenario.ping_pickle = Some OPing
  /\ recive Scenario.decode_ping (mkClient "127.0.0.1")
       (Some (Datagram (PROTOCOL_HEADER ++ Scenario.ping_pickle) (mkAddr "127.0.0.1" PORT)))
     = (Returned OPing, []).
Proof.
  split; [reflexivity |]. split; [vm_compute; reflexivity |].
  apply (send_to_recive_roundtrip Scenario.decode_ping (mkClient "127.0.0.1") (mkAddr "127.0.0.1" PORT)
           Scenario.ping_pickle OPing); [reflexivity | vm_compute; reflexivity].
Defined.

(** Extra property: the datagram [Client.send] builds (the header followed by
    [pickle.dumps(obj)]), from a registered client, for an object that is not
    an [Acknowledge]: [_handle_messages] strips the header, records the time
    of handling as the client's last activity, and passes [obj] to the
    subclass's [handle], whose sends are performed before the next datagram
    is read. *)
Theorem client_datagram_handled {Sub : Type} (decode : list byte -> option Obj)
    (hooks : Srv.Hooks (Sub := Sub)) (s : @Srv.St Sub) (t : float) (payload : list byte)
    (a : Addr) (o : Obj) (rest : list (float * Recv)) (u' : Sub) (acts : list Action) :
  In a (clients (Srv.srv s)) -> pickle_loads decode payload = Some o ->
  (forall x, o <> OAcknowledge x) ->
  Srv.on_handle hooks (Srv.sub s) a o = Some (u', acts) ->
  Srv.handle_messages decode hooks ((t, Datagram (PROTOCOL_HEADER ++ payload) a) :: rest) s
  = Srv.handle_messages decode hooks rest
      (Srv.perform acts
         (Srv.mkSt (Srv.set_timeouts (Srv.srv s) (PyDict.set addr_eqb (timeouts (Srv.srv s)) a t))
                   u' (Srv.trace s ++ [Handled a o]))).
Proof.
  intros Ha Hd Hno Hh. cbn [Srv.handle_messages].
  rewrite WireFacts.startswith_app, WireFacts.removeprefix_app.
  replace (existsb (addr_eqb a) (clients (Srv.srv s))) with true
    by (symmetry; apply PeerFacts.existsb_addr; exact Ha).
  unfold Srv.bind, Srv.handle_message; rewrite Hd.
  destruct o as [c | x | k | k |]; [| exfalso; exact (Hno x eq_refl) | | |];
    unfold Srv.run_hook, Srv.log, Srv.with_srv, Srv.with_sub; simpl; rewrite Hh; reflexivity.
Qed.

Lemma client_datagram_handled_witness :
  In (mkAddr "10.0.0.2" 5000) (clients (Srv.srv (Srv.mkSt (mkServer [mkAddr "10.0.0.2" 5000] [(mkAddr "10.0.0.2" 5000, 0)] 2 []) tt [])))
  /\ Srv.handle_messages Scenario.decode_ping Srv.echo_hooks
       [(1, Datagram (PROTOCOL_HEADER ++ Scenario.ping_pickle) (mkAddr "10.0.0.2" 5000))]
       (Srv.mkSt (mkServer [mkAddr "10.0.0.2" 5000] [(mkAddr "10.0.0.2" 5000, 0)] 2 []) tt [])
     = Srv.handle_messages Scenario.decode_ping Srv.echo_hooks []
         (Srv.perform [SendToAll OPing]
            (Srv.mkSt (mkServer [mkAddr "10.0.0.2" 5000] [(mkAddr "10.0.0.2" 5000, 1)] 2 []) tt
                      [Handled (mkAddr "10.0.0.2" 5000) OPing])).
Proof.
  split; [simpl; auto |].
  apply (client_datagram_handled Scenario.decode_ping Srv.echo_hooks
           (Srv.mkSt (mkServer [mkAddr "10.0.0.2" 5000] [(mkAddr "10.0.0.2" 5000, 0)] 2 []) tt [])
           1 Scenario.ping_pickle (mkAddr "10.0.0.2" 5000) OPing [] tt [SendToAll OPing]);
    [simpl; auto | vm_compute; reflexivity | intros x; discriminate | reflexivity].
Defined.

(** Extra property: [Player.input_vector] depends only on which of the four
    directions are held (W or Up, A or Left, S or Down, D or Right).
    Opposite directions cancel; one net direction gives the exact unit
    vector of its axis (up is negative y); two give
    (+-0.7071067811865475, +-0.7071067811865475); none gives (0, 0). *)
Theorem input_vector_directions (keys : list Z) :
  let h := (Z.b2z (key_in K_d keys || key_in K_RIGHT keys)
            - Z.b2z (key_in K_a keys || key_in K_LEFT keys))%Z in
  let v := (Z.b2z (key_in K_s keys || key_in K_DOWN keys)
            - Z.b2z (key_in K_w keys || key_in K_UP keys))%Z in
  let c := 0.7071067811865475 in
  Player.input_vector keys
  = if (h =? 0)%Z then (if (v =? 0)%Z then Vec.V2 0 0 else Vec.V2 0 (if (v =? 1)%Z then 1 else -1))
    else if (v =? 0)%Z then Vec.V2 (if (h =? 1)%Z then 1 else -1) 0
    else Vec.V2 (if (h =? 1)%Z then c else - c) (if (v =? 1)%Z then c else - c).
Proof.
  cbv zeta; unfold Player.input_vector.
  destruct (key_in K_w keys || key_in K_UP keys), (key_in K_a keys || key_in K_LEFT keys),
    (key_in K_s keys || key_in K_DOWN keys), (key_in K_d keys || key_in K_RIGHT keys);
    vm_compute; reflexivity.
Qed.

(** Extra property: [Player.collision(others)] only ever changes velocities
    (never a position or any other attribute), and only those of [self] and
    of players whose id is smaller than [self]'s; every other entry of the
    dict, [self]'s own entry included, comes back unchanged. *)
Theorem collision_changes_only_velocities (self : Player) (ps : list (Z * Player)) :
  Player.id (fst (Player.collision self ps)) = Player.id self
  /\ (exists v, fst (Player.collision self ps) = Player.set_velocity self v)
  /\ Forall2 (fun kp kp' => fst kp' = fst kp
               /\ (exists v, snd kp' = Player.set_velocity (snd kp) v)
               /\ ((Player.id (snd kp) <? Player.id self)%Z = false -> kp' = kp))
       ps (snd (Player.collision self ps)).
Proof.
  revert self; induction ps as [| [k other] ps IH]; intros self; simpl.
  - split; [reflexivity |]. split; [exists (Player.velocity self); symmetry; apply WireFacts.set_velocity_same |].
    constructor.
  - destruct (Player.collides self other) eqn:C.
    + destruct (Player.exchange self other) as [s1 o1] eqn:X.
      assert (Hid : Player.id s1 = Player.id self)
        by (unfold Player.exchange in X; inversion X; destruct self; reflexivity).
      assert (Hs1 : exists v1, s1 = Player.set_velocity self v1)
        by (unfold Player.exchange in X; inversion X; eexists; reflexivity).
      assert (Ho1 : exists v1, o1 = Player.set_velocity other v1)
        by (unfold Player.exchange in X; inversion X; eexists; reflexivity).
      destruct (Player.collision s1 ps) as [s2 r2] eqn:E.
      destruct (IH s1) as (I1 & (v & V) & F).
      rewrite E in I1, V, F; simpl in I1, V, F |- *.
      split; [congruence |]. split.
      { destruct Hs1 as [v1 ->]; exists v; rewrite V; apply WireFacts.set_velocity_twice. }
      constructor.
      * simpl; split; [reflexivity |]. split; [exact Ho1 |].
        unfold Player.collides in C; apply andb_true_iff in C; destruct C as [C _]; intros H; congruence.
      * rewrite Hid in F; exact F.
    + destruct (Player.collision self ps) as [s2 r2] eqn:E.
      destruct (IH self) as (I1 & V & F); rewrite E in I1, V, F; simpl in I1, V, F.
      split; [exact I1 |]. split; [exact V |].
      constructor; [| exact F].
      simpl; split; [reflexivity |]. split; [exists (Player.velocity other); symmetry; apply WireFacts.set_velocity_same |].
      reflexivity.
Qed.

(** Extra property: a [SetPositionCommand] that passes the latest-only check
    upserts the player [i] of the scope: the stored player ([Player(i)],
    appended at the end of the dict, when there is none, as [setdefault]
    does) gets the command's position, velocity and last_acceleration and
    keeps its id and radius; every other player, the scope's [id_] and its
    radius stay as they were. *)
Theorem set_position_upsert (w : Counts) (n : nat) (i : Z) (pos acc vel : Vector2) (scope : Scope) :
  (position_max_count w <= n)%nat ->
  exists scope', run w (SetPositionCommand n i pos acc vel) scope = Some (set_position_max w n, scope')
  /\ id_ scope' = id_ scope /\ circle_radius scope' = circle_radius scope
  /\ (forall j, j <> i -> PyDict.get Z.eqb (players scope') j = PyDict.get Z.eqb (players scope) j)
  /\ map fst (players scope')
     = (if PyDict.mem Z.eqb (players scope) i then map fst (players scope) else map fst (players scope) ++ [i])
  /\ exists p, PyDict.get Z.eqb (players scope') i = Some p
     /\ Player.position p = pos /\ Player.velocity p = vel /\ Player.last_acceleration p = acc
     /\ Player.id p = Player.id (match PyDict.get Z.eqb (players scope) i with Some q => q | None => Player.new i end)
     /\ Player.radius p = Player.radius (match PyDict.get Z.eqb (players scope) i with Some q => q | None => Player.new i end).
Proof.
  intros Hle; simpl. replace (Nat.leb (position_max_count w) n) with true by (symmetry; apply Nat.leb_le; exact Hle).
  eexists; split; [reflexivity |]. simpl.
  split; [reflexivity |]. split; [reflexivity |]. split.
  { intros j Hj; apply (PyDictFacts.get_set_ne Z.eqb Z_eqb_spec'); congruence. }
  split; [apply (PyDictFacts.keys_set Z.eqb Z_eqb_spec') |].
  eexists; split; [apply (PyDictFacts.get_set_eq Z.eqb Z_eqb_spec') |].
  repeat split; reflexivity.
Qed.

Lemma set_position_upsert_witness :
  (position_max_count Counts_init <= 0)%nat
  /\ exists scope', run Counts_init (SetPositionCommand 0 1 (Vec.V2 1 2) Vec.zero (Vec.V2 3 4)) Scope_new
                    = Some (set_position_max Counts_init 0, scope')
  /\ id_ scope' = id_ Scope_new /\ circle_radius scope' = circle_radius Scope_new
  /\ (forall j, j <> 1%Z -> PyDict.get Z.eqb (players scope') j = PyDict.get Z.eqb (players Scope_new) j)
  /\ map fst (players scope')
     = (if PyDict.mem Z.eqb (players Scope_new) 1%Z then map fst (players Scope_new) else map fst (players Scope_new) ++ [1%Z])
  /\ exists p, PyDict.get Z.eqb (players scope') 1%Z = Some p
     /\ Player.position p = Vec.V2 1 2 /\ Player.velocity p = Vec.V2 3 4 /\ Player.last_acceleration p = Vec.zero
     /\ Player.id p = Player.id (match PyDict.get Z.eqb (players Scope_new) 1%Z with Some q => q | None => Player.new 1 end)
     /\ Player.radius p = Player.radius (match PyDict.get Z.eqb (players Scope_new) 1%Z with Some q => q | None => Player.new 1 end).
Proof. split; [simpl; lia | apply (set_position_upsert Counts_init 0 1 (Vec.V2 1 2) Vec.zero (Vec.V2 3 4) Scope_new); simpl; lia]. Defined.

(** Extra property: [send_to_all(obj)] sends [obj] once to each registered
    client, in the order of [clients], recording each send in
    [not_acknoledged] exactly when [obj] is [Acknowledged]; it keeps every
    entry already pending and changes neither [clients] nor [timeouts]. *)
Theorem send_to_all_each_client {Sub : Type} (o : Obj) (s : @Srv.St Sub) :
  Srv.trace (Srv.send_to_all o s)
  = Srv.trace s ++ map (fun a => Sent a o (is_acknowledged o)) (clients (Srv.srv s))
  /\ clients (Srv.srv (Srv.send_to_all o s)) = clients (Srv.srv s)
  /\ timeouts (Srv.srv (Srv.send_to_all o s)) = timeouts (Srv.srv s)
  /\ (forall e, In e (not_acknoledged (Srv.srv s)) -> In e (not_acknoledged (Srv.srv (Srv.send_to_all o s))))
  /\ (is_acknowledged o = true ->
      forall a, In a (clients (Srv.srv s)) -> In (a, o) (not_acknoledged (Srv.srv (Srv.send_to_all o s))))
  /\ (is_acknowledged o = false ->
      not_acknoledged (Srv.srv (Srv.send_to_all o s)) = not_acknoledged (Srv.srv s)).
Proof.
  unfold Srv.send_to_all.
  destruct (WireFacts.send_to_all_fold o (clients (Srv.srv s)) s) as (T & C & M & P & A & N).
  repeat split; auto.
Qed.

(** Extra property: in every state reached by completed [step()]s from a
    fresh [Server], whatever the subclass, [clients] has no duplicates,
    [timeouts] has no duplicate keys, and the registered clients are exactly
    the keys of [timeouts]. *)
Theorem registry_consistent {Sub : Type} (decode : list byte -> option Obj)
    (hooks : Srv.Hooks (Sub := Sub)) (u0 : Sub) inputs (s : @Srv.St Sub) :
  Srv.steps decode hooks inputs (Srv.mkSt Server_new u0 []) = Some s ->
  NoDup (clients (Srv.srv s)) /\ NoDup (map fst (timeouts (Srv.srv s)))
  /\ forall a, In a (clients (Srv.srv s)) <-> In a (map fst (timeouts (Srv.srv s))).
Proof.
  intros Hs. exact (PeerFacts.steps_wf decode hooks inputs (Srv.mkSt Server_new u0 []) s PeerFacts.wf_new Hs).
Qed.

Lemma registry_consistent_witness :
  exists s, Srv.steps Scenario.decode_ping Srv.echo_hooks
      [([(0, Datagram (PROTOCOL_HEADER ++ Scenario.ping_pickle) (mkAddr "10.0.0.2" 5000))], 0, 0)]
      (Srv.mkSt Server_new tt []) = Some s
    /\ NoDup (clients (Srv.srv s)) /\ NoDup (map fst (timeouts (Srv.srv s)))
    /\ forall a, In a (clients (Srv.srv s)) <-> In a (map fst (timeouts (Srv.srv s))).
Proof.
  eexists; split; [cbv; reflexivity |].
  apply (registry_consistent Scenario.decode_ping Srv.echo_hooks tt
           [([(0, Datagram (PROTOCOL_HEADER ++ Scenario.ping_pickle) (mkAddr "10.0.0.2" 5000))], 0, 0)]);
    vm_compute; reflexivity.
Defined.

Module GameFacts.
Import Commands Net.

Section Vals.
Context {K V : Type} (keqb : K -> K -> bool).
Hypothesis keqb_spec : forall a b, keqb a b = true <-> a = b.

Lemma get_in (d : list (K * V)) (k : K) (v : V) : PyDict.get keqb d k = Some v -> In (k, v) d.
Proof.
  induction d as [| [k' v'] d IH]; simpl; [discriminate |].
  destruct (keqb k' k) eqn:E; [| intros H; right; exact (IH H)].
  intros H; inversion H; subst; apply keqb_spec in E; subst; left; reflexivity.
Qed.

Lemma in_set (d : list (K * V)) (k : K) (v : V) (x : K * V) :
  In x (PyDict.set keqb d k v) -> In x d \/ x = (k, v).
Proof.
  induction d as [| [k' v'] d IH]; simpl.
  - intros [<- | []]; right; reflexivity.
  - destruct (keqb k' k) eqn:E; simpl.
    + apply keqb_spec in E; subst. intros [<- | H]; [right; reflexivity | left; right; exact H].
    + intros [<- | H]; [left; left; reflexivity |].
      destruct (IH H) as [H1 | H1]; [left; right; exact H1 | right; exact H1].
Qed.

Lemma vals_set (d : list (K * V)) (k : K) (v x : V) :
  In x (map snd (PyDict.set keqb d k v)) -> In x (map snd d) \/ x = v.
Proof.
  rewrite in_map_iff; intros [[k1 v1] [<- Hin]].
  destruct (in_set d k v _ Hin) as [H | H];
    [left; apply in_map_iff; exists (k1, v1); auto | inversion H; right; reflexivity].
Qed.

Lemma nodup_vals_set (d : list (K * V)) (k : K) (v : V) :
  NoDup (map snd d) -> ~ In v (map snd d) -> NoDup (map snd (PyDict.set keqb d k v)).
Proof.
  induction d as [| [k' v'] d IH]; simpl; intros Hnd Hv.
  - constructor; [tauto | constructor].
  - inversion Hnd as [| ? ? Hv' Hnd']; subst.
    destruct (keqb k' k); simpl; constructor.
    + intros H; apply Hv; right; exact H.
    + exact Hnd'.
    + intros H; destruct (vals_set d k v v' H) as [H1 | H1]; [contradiction | apply Hv; left; auto].
    + apply IH; [exact Hnd' | intros H; apply Hv; right; exact H].
Qed.

Lemma in_pairs_inj (d : list (K * V)) (a b : K) (v : V) :
  NoDup (map snd d) -> In (a, v) d -> In (b, v) d -> a = b.
Proof.
  induction d as [| [k w] d IH]; simpl; intros Hnd Ha Hb; [destruct Ha |].
  inversion Hnd as [| ? ? Hw Hnd']; subst.
  destruct Ha as [Ha | Ha], Hb as [Hb | Hb].
  - inversion Ha; inversion Hb; subst; reflexivity.
  - inversion Ha; subst. exfalso; apply Hw, in_map_iff; exists (b, v); auto.
  - inversion Hb; subst. exfalso; apply Hw, in_map_iff; exists (a, v); auto.
  - exact (IH Hnd' Ha Hb).
Qed.

Lemma set_fresh (d : list (K * V)) (k : K) (v : V) :
  ~ In k (map fst d) -> PyDict.set keqb d k v = d ++ [(k, v)].
Proof.
  induction d as [| [k' v'] d IH]; simpl; intros H; [reflexivity |].
  rewrite (PyDictFacts.keqb_neq keqb keqb_spec k' k) by (intros ->; apply H; left; reflexivity).
  rewrite IH by tauto; reflexivity.
Qed.

Lemma del_in (d d' : list (K * V)) (k : K) (x : K * V) :
  PyDict.del keqb d k = Some d' -> In x d' -> In x d.
Proof.
  revert d'; induction d as [| [k' v'] d IH]; simpl; intros d' H; [discriminate |].
  destruct (keqb k' k); [inversion H; subst; intros Hx; right; exact Hx |].
  destruct (PyDict.del keqb d k) as [d0 |]; simpl in H; [| discriminate].
  inversion H; subst. intros [<- | Hx]; [left; reflexivity | right; exact (IH d0 eq_refl Hx)].
Qed.

Lemma in_get_nodup (d : list (K * V)) (k : K) (v : V) :
  NoDup (map fst d) -> In (k, v) d -> PyDict.get keqb d k = Some v.
Proof.
  induction d as [| [k' v'] d IH]; simpl; intros Hnd H; [destruct H |].
  inversion Hnd as [| ? ? Hk Hnd']; subst.
  destruct H as [H | H].
  - inversion H; subst; rewrite (PyDictFacts.keqb_refl keqb keqb_spec); reflexivity.
  - rewrite (PyDictFacts.keqb_neq keqb keqb_spec k' k); [exact (IH Hnd' H) |].
    intros ->; apply Hk, in_map_iff; exists (k, v); auto.
Qed.

Lemma del_none_mem (d : list (K * V)) (k : K) :
  PyDict.del keqb d k = None -> PyDict.mem keqb d k = false.
Proof.
  intros D; destruct (PyDict.mem keqb d k) eqn:M; [| reflexivity].
  destruct (PyDictFacts.del_present keqb d k M) as [d' E]; congruence.
Qed.

Lemma del_some_mem (d d' : list (K * V)) (k : K) :
  PyDict.del keqb d k = Some d' -> PyDict.mem keqb d k = true.
Proof.
  intros D; apply (PyDictFacts.mem_in keqb keqb_spec).
  destruct (PyDictFacts.del_keys keqb keqb_spec d d' k D) as (l1 & l2 & -> & _).
  apply in_or_app; right; left; reflexivity.
Qed.

Lemma mem_false_get (d : list (K * V)) (k : K) :
  PyDict.mem keqb d k = false -> PyDict.get keqb d k = None.
Proof. unfold PyDict.mem; destruct (PyDict.get keqb d k); [discriminate | reflexivity]. Qed.
End Vals.

(** [k in s] after [s.add(k0)] and after [s.discard(k0)]. *)
Lemma key_in_add (ks : list Z) (k k' : Z) : key_in k' (Game.key_add ks k) = (Z.eqb k' k || key_in k' ks).
Proof.
  unfold Game.key_add. destruct (key_in k ks) eqn:E.
  - destruct (Z.eqb k' k) eqn:E'; simpl; [apply Z.eqb_eq in E'; subst; exact E | reflexivity].
  - unfold key_in; rewrite existsb_app; simpl. rewrite orb_false_r. apply orb_comm.
Qed.

Lemma key_in_discard (ks : list Z) (k k' : Z) :
  key_in k' (Game.key_discard ks k) = negb (Z.eqb k' k) && key_in k' ks.
Proof.
  unfold Game.key_discard, key_in; induction ks as [| x ks IH]; simpl; [rewrite andb_false_r; reflexivity |].
  destruct (Z.eqb x k) eqn:Ex; simpl.
  - rewrite IH. apply Z.eqb_eq in Ex; subst. destruct (Z.eqb k' k); reflexivity.
  - rewrite IH. destruct (Z.eqb k' x) eqn:E1; [| reflexivity].
    apply Z.eqb_eq in E1; subst. rewrite Ex; reflexivity.
Qed.

(** [handle_connect] never fails, and what it does. *)
Lemma connect_shape (g : Game.GameServer) (a : Addr) :
  Game.handle_connect g a
  = Some (Game.mkGame (Game.next_id g + 1) (PyDict.set addr_eqb (Game.address_to_id g) a (Game.next_id g))
            (PyDict.set Z.eqb (Game.pressed_keys g) (Game.next_id g) [])
            (set_players (Game.scope g)
               (PyDict.set Z.eqb (players (Game.scope g)) (Game.next_id g) (Player.new (Game.next_id g))))
            (Game.counts g),
          [SendTo a (OCommand (SetIdCommand (Game.next_id g)))]).
Proof.
  unfold Game.handle_connect, Game.id_of; simpl.
  rewrite (PyDictFacts.get_set_eq addr_eqb addr_eqb_spec); reflexivity.
Qed.

(** What an update tick leaves of the state: the id bookkeeping and the
    pressed keys as they were, and no new player. *)
Definition keeps (g g' : Game.GameServer) : Prop :=
  Game.next_id g' = Game.next_id g /\ Game.address_to_id g' = Game.address_to_id g
  /\ Game.pressed_keys g' = Game.pressed_keys g
  /\ forall j, In j (map fst (players (Game.scope g'))) -> In j (map fst (players (Game.scope g))).

Lemma update_player_ids (dt : float) (g g1 : Game.GameServer) (i : Z) (a : list Action) :
  Game.update_player dt g i = Some (g1, a) ->
  Game.next_id g1 = Game.next_id g /\ Game.address_to_id g1 = Game.address_to_id g.
Proof.
  unfold Game.update_player.
  destruct (PyDict.get Z.eqb (players (Game.scope g)) i); [| discriminate].
  destruct (PyDict.get Z.eqb (Game.pressed_keys g) i); [| discriminate].
  destruct (Player.collision _ _) as [p2 ps].
  unfold new_SetPositionCommand; cbn -[Vec.length PyDict.set PyDict.del].
  destruct (_ <? _); [destruct (PyDict.del _ _ _); [| discriminate] |];
    intros H; inversion H; subst; split; reflexivity.
Qed.

Lemma update_player_keeps (dt : float) (g g1 : Game.GameServer) (i : Z) (a : list Action) :
  Game.update_player dt g i = Some (g1, a) -> keeps g g1.
Proof.
  intros H. destruct (update_player_ids dt g g1 i a H) as [N A].
  destruct (KeyFacts.update_player_shape dt g g1 i a H) as [Pk (l & Kl & Hl)].
  split; [exact N |]. split; [exact A |]. split; [exact Pk |].
  intros j Hj. rewrite <- Kl. destruct Hl as [<- | D]; [exact Hj |].
  exact (proj1 (KeyFacts.in_keys_del Z.eqb Z_eqb_spec' _ _ i j D) Hj).
Qed.

Lemma keeps_trans (g1 g2 g3 : Game.GameServer) : keeps g1 g2 -> keeps g2 g3 -> keeps g1 g3.
Proof. intros (N1 & A1 & P1 & K1) (N2 & A2 & P2 & K2); repeat split; auto; congruence. Qed.

Lemma keeps_refl (g : Game.GameServer) : keeps g g.
Proof. repeat split; auto. Qed.

Lemma update_players_keeps (dt : float) (ids : list Z) (g g' : Game.GameServer) (a : list Action) :
  Game.update_players dt ids g = Some (g', a) -> keeps g g'.
Proof.
  revert g a; induction ids as [| i ids IH]; intros g a; simpl.
  - intros H; inversion H; subst; apply keeps_refl.
  - destruct (Game.update_player dt g i) as [[g1 a1] |] eqn:U; [| discriminate].
    destruct (Game.update_players dt ids g1) as [[g2 a2] |] eqn:U2; [| discriminate].
    intros H; inversion H; subst.
    exact (keeps_trans _ _ _ (update_player_keeps dt g g1 i a1 U) (IH g1 a2 U2)).
Qed.

Lemma shrink_ids (g g1 : Game.GameServer) (dt : float) (a : list Action) :
  Game.shrink g dt = (g1, a) -> keeps g g1.
Proof.
  unfold Game.shrink; destruct (2 <? circle_radius (Game.scope g)); intros H; inversion H; subst;
    [| apply keeps_refl].
  repeat split; auto.
Qed.

Lemma update_keeps (g g' : Game.GameServer) (dt : float) (a : list Action) :
  Game.update g dt = Some (g', a) -> keeps g g'.
Proof.
  unfold Game.update. destruct (Game.shrink g dt) as [g1 a1] eqn:S.
  destruct (Game.update_players dt _ g1) as [[g2 a2] |] eqn:U; [| discriminate].
  intros H; inversion H; subst.
  exact (keeps_trans _ _ _ (shrink_ids g g1 dt a1 S) (update_players_keeps dt _ g1 g' a2 U)).
Qed.

(** Ids are handed out from [next_id] and never twice. *)
Definition ids_inv (g : Game.GameServer) : Prop :=
  NoDup (map snd (Game.address_to_id g))
  /\ (forall i, In i (map snd (Game.address_to_id g)) -> (i < Game.next_id g)%Z)
  /\ (forall i, In i (map fst (players (Game.scope g))) -> (i < Game.next_id g)%Z)
  /\ (forall i, In i (map fst (Game.pressed_keys g)) -> (i < Game.next_id g)%Z).

Lemma ids_new : ids_inv Game.GameServer_new.
Proof. repeat split; simpl; try tauto; constructor. Qed.

Lemma ids_connect (g g' : Game.GameServer) (a : Addr) (acts : list Action) :
  ids_inv g -> Game.handle_connect g a = Some (g', acts) -> ids_inv g'.
Proof.
  rewrite connect_shape; intros (N & Va & Vp & Vk) H; inversion H; subst; clear H.
  unfold ids_inv; simpl. split; [| split; [| split]].
  - apply (nodup_vals_set addr_eqb addr_eqb_spec); [exact N |]. intros Hin; specialize (Va _ Hin); lia.
  - intros i Hi; destruct (vals_set addr_eqb addr_eqb_spec _ _ _ _ Hi) as [Hi' | ->]; [specialize (Va _ Hi') |]; lia.
  - intros i Hi; apply (KeyFacts.in_keys_set Z.eqb Z_eqb_spec') in Hi.
    destruct Hi as [Hi | ->]; [specialize (Vp _ Hi) |]; lia.
  - intros i Hi; apply (KeyFacts.in_keys_set Z.eqb Z_eqb_spec') in Hi.
    destruct Hi as [Hi | ->]; [specialize (Vk _ Hi) |]; lia.
Qed.

Lemma ids_disconnect (g g' : Game.GameServer) (a : Addr) (acts : list Action) :
  ids_inv g -> Game.handle_disconnect g a = Some (g', acts) -> ids_inv g'.
Proof.
  unfold Game.handle_disconnect; intros (N & Va & Vp & Vk).
  destruct (Game.id_of g a) as [i |]; [| discriminate].
  intros H; inversion H; subst; clear H.
  destruct (PyDict.del Z.eqb (players (Game.scope g)) i) as [ps |] eqn:D; [| repeat split; auto].
  simpl. destruct (PyDict.del Z.eqb (Game.pressed_keys g) i) as [pk |] eqn:D';
    repeat split; simpl; auto; intros j Hj.
  - apply Vp, (proj1 (KeyFacts.in_keys_del Z.eqb Z_eqb_spec' _ _ i j D) Hj).
  - apply Vk, (proj1 (KeyFacts.in_keys_del Z.eqb Z_eqb_spec' _ _ i j D') Hj).
  - apply Vp, (proj1 (KeyFacts.in_keys_del Z.eqb Z_eqb_spec' _ _ i j D) Hj).
Qed.

Lemma ids_handle (g g' : Game.GameServer) (a : Addr) (o : Obj) (acts : list Action) :
  ids_inv g -> Game.handle g a o = Some (g', acts) -> ids_inv g'.
Proof.
  unfold Game.handle; intros (N & Va & Vp & Vk).
  destruct (Game.id_of g a) as [i |] eqn:Hi; [| discriminate].
  assert (Hlt : (i < Game.next_id g)%Z).
  { apply Va, in_map_iff; exists (a, i); split; [reflexivity |].
    exact (get_in addr_eqb addr_eqb_spec _ _ _ Hi). }
  destruct o as [c | o | k | k |]; try discriminate;
    try (intros H; inversion H; subst; repeat split; auto; fail);
    destruct (PyDict.get Z.eqb (Game.pressed_keys g) i); try discriminate;
    intros H; inversion H; subst; clear H; repeat split; simpl; auto;
    intros j Hj; apply (KeyFacts.in_keys_set Z.eqb Z_eqb_spec') in Hj;
    destruct Hj as [Hj | ->]; auto.
Qed.

Lemma ids_update (g g' : Game.GameServer) (dt : float) (acts : list Action) :
  ids_inv g -> Game.update g dt = Some (g', acts) -> ids_inv g'.
Proof.
  intros (N & Va & Vp & Vk) H. destruct (update_keeps g g' dt acts H) as (Nx & A & P & Kp).
  unfold ids_inv; rewrite Nx, A, P. repeat split; auto.
Qed.

Lemma reachable_ids (g : Game.GameServer) : KeyFacts.reachable g -> ids_inv g.
Proof.
  induction 1.
  - exact ids_new.
  - exact (ids_connect _ _ _ _ IHreachable H0).
  - exact (ids_disconnect _ _ _ _ IHreachable H0).
  - exact (ids_handle _ _ _ _ _ IHreachable H0).
  - exact (ids_update _ _ _ _ IHreachable H0).
Qed.

(** The position of a player after its own iteration of the players loop
    lies inside the circle, or the player is gone. *)
Definition inside (g : Game.GameServer) (j : Z) : Prop :=
  forall p, PyDict.get Z.eqb (players (Game.scope g)) j = Some p ->
            (circle_radius (Game.scope g) <? Vec.length (Player.position p)) = false.

Lemma update_player_kept (dt : float) (g g1 : Game.GameServer) (i : Z) (a : list Action) :
  NoDup (map fst (players (Game.scope g))) -> Game.update_player dt g i = Some (g1, a) -> inside g1 i.
Proof.
  intros Hnd H. unfold Game.update_player in H.
  destruct (PyDict.get Z.eqb (players (Game.scope g)) i) as [player |] eqn:G; [| discriminate].
  destruct (PyDict.get Z.eqb (Game.pressed_keys g) i) as [keys |]; [| discriminate].
  destruct (Player.collision _ _) as [p2 ps] eqn:C.
  assert (Kps : map fst (PyDict.set Z.eqb ps i p2) = map fst (players (Game.scope g))).
  { pose proof (TickFacts.collision_keys (Player.update player keys dt)
                  (PyDict.set Z.eqb (players (Game.scope g)) i (Player.update player keys dt))) as K.
    rewrite C in K; simpl in K.
    assert (M : PyDict.mem Z.eqb ps i = true).
    { apply (PyDictFacts.mem_in Z.eqb Z_eqb_spec'); rewrite K.
      apply (PyDictFacts.mem_in Z.eqb Z_eqb_spec'). unfold PyDict.mem.
      rewrite (PyDictFacts.get_set_eq Z.eqb Z_eqb_spec'); reflexivity. }
    rewrite (PyDictFacts.keys_set Z.eqb Z_eqb_spec'), M, K.
    rewrite (PyDictFacts.keys_set Z.eqb Z_eqb_spec'), (TickFacts.mem_get _ _ _ G); reflexivity. }
  unfold new_SetPositionCommand in H; cbn -[Vec.length PyDict.set PyDict.del] in H.
  destruct (circle_radius (Game.scope g) <? Vec.length (Player.position p2)) eqn:R.
  - destruct (PyDict.del Z.eqb (PyDict.set Z.eqb ps i p2) i) as [l |] eqn:D; [| discriminate].
    inversion H; subst; clear H. intros p; simpl.
    rewrite <- Kps in Hnd.
    destruct (PyDictFacts.del_nodup Z.eqb Z_eqb_spec' _ _ _ Hnd D) as (_ & Gn & _).
    rewrite Gn; discriminate.
  - inversion H; subst; clear H. intros p; simpl.
    rewrite (PyDictFacts.get_set_eq Z.eqb Z_eqb_spec'). intros E; inversion E; subst; exact R.
Qed.

Lemma update_players_inside (dt : float) (ids : list Z) (g g' : Game.GameServer) (a : list Action) :
  Game.update_players dt ids g = Some (g', a) ->
  NoDup (map fst (players (Game.scope g))) ->
  (forall j, In j (map fst (players (Game.scope g))) -> In j ids \/ inside g j) ->
  forall j, inside g' j.
Proof.
  revert g a; induction ids as [| i ids IH]; intros g a; simpl.
  - intros H; inversion H; subst; clear H. intros _ Hall j p Gp.
    assert (Hj : In j (map fst (players (Game.scope g')))).
    { apply in_map_iff; exists (j, p); split; [reflexivity | exact (get_in Z.eqb Z_eqb_spec' _ _ _ Gp)]. }
    destruct (Hall j Hj) as [[] | Hin]; exact (Hin p Gp).
  - destruct (Game.update_player dt g i) as [[g1 a1] |] eqn:U; [| discriminate].
    destruct (Game.update_players dt ids g1) as [[g2 a2] |] eqn:U2; [| discriminate].
    intros H Hnd Hall; inversion H; subst; clear H.
    destruct (TickFacts.update_player_keys dt g g1 i a1 Hnd U) as [Hnd1 Hsub1].
    destruct (TickFacts.update_player_inv dt g g1 i a1 U) as (pl & ks & p2 & ps & _ & _ & _ & _ & Cr & _).
    apply (IH g1 a2 U2 Hnd1). intros j Hj.
    destruct (Z.eq_dec j i) as [-> | Hne]; [right; exact (update_player_kept dt g g1 i a1 Hnd U) |].
    destruct (Hall j (Hsub1 j Hj)) as [[-> | Hin] | Hok]; [congruence | left; exact Hin |].
    right; intros p Gp.
    pose proof (TickFacts.update_player_other_positions dt g g1 i j a1 U (not_eq_sym Hne)) as Po.
    rewrite Gp in Po. destruct (PyDict.get Z.eqb (players (Game.scope g)) j) as [q |] eqn:Gq;
      simpl in Po; inversion Po.
    rewrite Cr, H0; exact (Hok q Gq).
Qed.

(** [last_acceleration] of the players of a dict. *)
Definition la_zero (ps : list (Z * Player)) : Prop :=
  forall x, In x ps -> Player.last_acceleration (snd x) = Vec.zero.

Lemma la_update (p : Player) (keys : list Z) (dt : float) :
  Player.last_acceleration (Player.update p keys dt) = Player.last_acceleration p.
Proof. destruct p; reflexivity. Qed.

Lemma la_collision (self : Player) (l : list (Z * Player)) :
  Player.last_acceleration self = Vec.zero -> la_zero l ->
  Player.last_acceleration (fst (Player.collision self l)) = Vec.zero /\ la_zero (snd (Player.collision self l)).
Proof.
  revert self; induction l as [| [k other] l IH]; intros self Hs Hl; simpl.
  - split; [exact Hs | intros x []].
  - assert (Ho : Player.last_acceleration other = Vec.zero) by exact (Hl (k, other) (or_introl eq_refl)).
    assert (Hl' : la_zero l) by (intros x Hx; exact (Hl x (or_intror Hx))).
    destruct (if Player.collides self other then Player.exchange self other else (self, other))
      as [s1 o1] eqn:X.
    assert (H1 : Player.last_acceleration s1 = Vec.zero /\ Player.last_acceleration o1 = Vec.zero).
    { destruct (Player.collides self other); inversion X; subst; [destruct self, other |]; auto. }
    destruct H1 as [H1 H2].
    destruct (Player.collision s1 l) as [s2 r2] eqn:E.
    destruct (IH s1 H1 Hl') as [I1 I2]; rewrite E in I1, I2; simpl in I1, I2 |- *.
    split; [exact I1 |]. intros x [<- | Hx]; [exact H2 | exact (I2 x Hx)].
Qed.

Lemma la_set (ps : list (Z * Player)) (k : Z) (p : Player) :
  la_zero ps -> Player.last_acceleration p = Vec.zero -> la_zero (PyDict.set Z.eqb ps k p).
Proof.
  intros H Hp x Hx; destruct (in_set Z.eqb Z_eqb_spec' _ _ _ _ Hx) as [Hx' | ->]; [exact (H x Hx') | exact Hp].
Qed.

Lemma la_update_player (dt : float) (g g1 : Game.GameServer) (i : Z) (a : list Action) :
  la_zero (players (Game.scope g)) -> Game.update_player dt g i = Some (g1, a) ->
  la_zero (players (Game.scope g1))
  /\ forall n j pos acc vel, In (SendToAll (OCommand (SetPositionCommand n j pos acc vel))) a -> acc = Vec.zero.
Proof.
  intros Hla H.
  destruct (TickFacts.update_player_inv dt g g1 i a H)
    as (player & keys & p2 & ps & G & _ & C & _ & _ & Hcase).
  assert (Hp : Player.last_acceleration player = Vec.zero)
    by exact (Hla (i, player) (get_in Z.eqb Z_eqb_spec' _ _ _ G)).
  destruct (la_collision (Player.update player keys dt)
              (PyDict.set Z.eqb (players (Game.scope g)) i (Player.update player keys dt)))
    as [L1 L2]; [rewrite la_update; exact Hp | apply la_set; [exact Hla | rewrite la_update; exact Hp] |].
  rewrite C in L1, L2; simpl in L1, L2.
  assert (Hset : la_zero (PyDict.set Z.eqb ps i p2)) by (apply la_set; assumption).
  destruct Hcase as [[E A] | [D A]]; subst a; split.
  - rewrite E; exact Hset.
  - intros n j pos acc vel [Hin | []]; inversion Hin; subst; exact L1.
  - intros x Hx; exact (Hset x (del_in Z.eqb _ _ _ _ D Hx)).
  - intros n j pos acc vel [Hin | [Hin | []]]; inversion Hin; subst; exact L1.
Qed.

Lemma la_update_players (dt : float) (ids : list Z) (g g' : Game.GameServer) (a : list Action) :
  la_zero (players (Game.scope g)) -> Game.update_players dt ids g = Some (g', a) ->
  la_zero (players (Game.scope g'))
  /\ forall n j pos acc vel, In (SendToAll (OCommand (SetPositionCommand n j pos acc vel))) a -> acc = Vec.zero.
Proof.
  revert g a; induction ids as [| i ids IH]; intros g a Hla; simpl.
  - intros H; inversion H; subst; split; [exact Hla | intros n j pos acc vel []].
  - destruct (Game.update_player dt g i) as [[g1 a1] |] eqn:U; [| discriminate].
    destruct (Game.update_players dt ids g1) as [[g2 a2] |] eqn:U2; [| discriminate].
    intros H; inversion H; subst; clear H.
    destruct (la_update_player dt g g1 i a1 Hla U) as [L1 B1].
    destruct (IH g1 a2 L1 U2) as [L2 B2].
    split; [exact L2 |]. intros n j pos acc vel Hin; apply in_app_or in Hin.
    destruct Hin as [Hin | Hin]; [exact (B1 _ _ _ _ _ Hin) | exact (B2 _ _ _ _ _ Hin)].
Qed.

Lemma la_game_update (g g' : Game.GameServer) (dt : float) (a : list Action) :
  la_zero (players (Game.scope g)) -> Game.update g dt = Some (g', a) ->
  la_zero (players (Game.scope g'))
  /\ forall n j pos acc vel, In (SendToAll (OCommand (SetPositionCommand n j pos acc vel))) a -> acc = Vec.zero.
Proof.
  intros Hla. unfold Game.update. destruct (Game.shrink g dt) as [g1 a1] eqn:S.
  destruct (TickFacts.shrink_sends_radius_only g g1 dt a1 S) as [P1 N1].
  destruct (Game.update_players dt _ g1) as [[g2 a2] |] eqn:U; [| discriminate].
  intros H; inversion H; subst; clear H.
  destruct (la_update_players dt _ g1 g' a2 (ltac:(rewrite P1; exact Hla)) U) as [L2 B2].
  split; [exact L2 |]. intros n j pos acc vel Hin; apply in_app_or in Hin.
  destruct Hin as [Hin | Hin]; [exfalso; exact (N1 _ _ _ _ _ Hin) | exact (B2 _ _ _ _ _ Hin)].
Qed.

Lemma la_reachable (g : Game.GameServer) : KeyFacts.reachable g -> la_zero (players (Game.scope g)).
Proof.
  induction 1.
  - intros x [].
  - rewrite connect_shape in H0; inversion H0; subst; simpl.
    apply la_set; [exact IHreachable | reflexivity].
  - unfold Game.handle_disconnect in H0.
    destruct (Game.id_of g a) as [i |]; [| discriminate]. inversion H0; subst; clear H0.
    destruct (PyDict.del Z.eqb (players (Game.scope g)) i) as [ps |] eqn:D; [| exact IHreachable].
    destruct (PyDict.del Z.eqb (Game.pressed_keys g) i); simpl;
      intros x Hx; exact (IHreachable x (del_in Z.eqb _ _ _ _ D Hx)).
  - unfold Game.handle in H0.
    destruct (Game.id_of g a) as [i |]; [| discriminate].
    destruct o; try discriminate; try (inversion H0; subst; exact IHreachable);
      destruct (PyDict.get Z.eqb (Game.pressed_keys g) i); inversion H0; subst; exact IHreachable.
  - exact (proj1 (la_game_update g g' dt acts IHreachable H0)).
Qed.

Section Expiry.
Context {Sub : Type}.
Variable hooks : Srv.Hooks (Sub := Sub).

Lemma handle_disconnect_other (c a : Addr) (s s' : @Srv.St Sub) :
  Srv.handle_disconnect hooks c s = Some s' -> c <> a ->
  PyDict.get addr_eqb (timeouts (Srv.srv s')) a = PyDict.get addr_eqb (timeouts (Srv.srv s)) a
  /\ client_timeout (Srv.srv s') = client_timeout (Srv.srv s)
  /\ (In a (clients (Srv.srv s)) -> In a (clients (Srv.srv s'))).
Proof.
  unfold Srv.handle_disconnect.
  destruct (list_remove (clients (Srv.srv s)) c) as [cl |] eqn:L; [| discriminate].
  destruct (PyDict.del addr_eqb (timeouts (Srv.srv s)) c) as [tm |] eqn:D; [| discriminate].
  intros H Hne; destruct (PeerFacts.run_hook_ct _ _ _ H) as [(C & T & K) _]; simpl in C, T, K.
  rewrite C, T, K. split; [exact (PyDictFacts.get_del_ne addr_eqb addr_eqb_spec _ _ _ _ D Hne) |].
  split; [reflexivity |].
  destruct (PeerFacts.list_remove_split _ _ _ L) as (l1 & l2 & -> & ->).
  intros Ha; apply in_app_or in Ha; apply in_or_app; simpl in Ha.
  destruct Ha as [Ha | [Ha | Ha]]; [left; exact Ha | congruence | right; exact Ha].
Qed.

Lemma expired_keep (now t0 : float) (a : Addr) (entries : list (Addr * float)) (s s' : @Srv.St Sub) :
  Srv.disconnect_expired hooks now entries s = Some s' ->
  (forall t, In (a, t) entries -> (client_timeout (Srv.srv s) <? now - t) = false) ->
  PyDict.get addr_eqb (timeouts (Srv.srv s)) a = Some t0 -> In a (clients (Srv.srv s)) ->
  In a (clients (Srv.srv s')) /\ PyDict.get addr_eqb (timeouts (Srv.srv s')) a = Some t0.
Proof.
  revert s; induction entries as [| [c t] entries IH]; intros s; simpl.
  - intros H; inversion H; subst; auto.
  - intros H Hok Ht Ha.
    destruct (client_timeout (Srv.srv s) <? now - t) eqn:E.
    + unfold Srv.bind in H. destruct (Srv.handle_disconnect hooks c s) as [s1 |] eqn:D; [| discriminate].
      assert (Hne : c <> a) by (intros ->; rewrite (Hok t (or_introl eq_refl)) in E; discriminate).
      destruct (handle_disconnect_other c a s s1 D Hne) as (G1 & K1 & C1).
      apply (IH s1 H); [intros t' Ht'; rewrite K1; exact (Hok t' (or_intror Ht')) | congruence | auto].
    + apply (IH s H); auto.
Qed.
End Expiry.

End GameFacts.

(** Extra property: for a client [a] with id [i] and a pressed-keys entry
    [ks], and an integer key [k] (the [int] the annotation of
    [KeyDownInput.key] and [KeyUpInput.key] names, a pygame key code as the
    client sends it; a payload whose key cannot be hashed would make
    [set.add] raise [TypeError] and lies outside this model's integer
    keys), [GameServer.handle] treats [KeyDownInput(k)] and [KeyUpInput(k)]
    as set insertion and removal on the entry of [i] alone: afterwards [k']
    is pressed iff [k' = k] or [k'] was pressed (down), iff [k' <> k] and
    [k'] was pressed (up). It sends nothing and changes neither the scope
    nor the id bookkeeping. *)
Theorem key_input_set_semantics (g : Game.GameServer) (a : Addr) (i : Z) (ks : list Z) (k : Z) :
  Game.id_of g a = Some i -> PyDict.get Z.eqb (Game.pressed_keys g) i = Some ks ->
  (exists g', Game.handle g a (OKeyDownInput k) = Some (g', [])
     /\ Game.scope g' = Game.scope g /\ Game.address_to_id g' = Game.address_to_id g
     /\ Game.next_id g' = Game.next_id g
     /\ map fst (Game.pressed_keys g') = map fst (Game.pressed_keys g)
     /\ (forall j, j <> i -> PyDict.get Z.eqb (Game.pressed_keys g') j = PyDict.get Z.eqb (Game.pressed_keys g) j)
     /\ exists ks', PyDict.get Z.eqb (Game.pressed_keys g') i = Some ks'
                    /\ forall k', key_in k' ks' = (Z.eqb k' k || key_in k' ks))
  /\ (exists g', Game.handle g a (OKeyUpInput k) = Some (g', [])
     /\ Game.scope g' = Game.scope g /\ Game.address_to_id g' = Game.address_to_id g
     /\ Game.next_id g' = Game.next_id g
     /\ map fst (Game.pressed_keys g') = map fst (Game.pressed_keys g)
     /\ (forall j, j <> i -> PyDict.get Z.eqb (Game.pressed_keys g') j = PyDict.get Z.eqb (Game.pressed_keys g) j)
     /\ exists ks', PyDict.get Z.eqb (Game.pressed_keys g') i = Some ks'
                    /\ forall k', key_in k' ks' = (negb (Z.eqb k' k) && key_in k' ks)).
Proof.
  intros Ha Hk.
  assert (Mk : PyDict.mem Z.eqb (Game.pressed_keys g) i = true) by (unfold PyDict.mem; rewrite Hk; reflexivity).
  unfold Game.handle; rewrite Ha, Hk.
  split; eexists; (split; [reflexivity |]); simpl;
    (split; [reflexivity |]); (split; [reflexivity |]); (split; [reflexivity |]);
    (split; [rewrite (PyDictFacts.keys_set Z.eqb Z_eqb_spec'), Mk; reflexivity |]);
    (split; [intros j Hj; apply (PyDictFacts.get_set_ne Z.eqb Z_eqb_spec'); congruence |]);
    (eexists; split; [apply (PyDictFacts.get_set_eq Z.eqb Z_eqb_spec') |]);
    intros k'; first [apply GameFacts.key_in_add | apply GameFacts.key_in_discard].
Qed.

Lemma key_input_set_semantics_witness :
  Game.id_of Scenario.two_players (mkAddr "10.0.0.2" 5000) = Some 1%Z
  /\ PyDict.get Z.eqb (Game.pressed_keys Scenario.two_players) 1%Z = Some [K_d]
  /\ exists g', Game.handle Scenario.two_players (mkAddr "10.0.0.2" 5000) (OKeyDownInput K_w) = Some (g', [])
     /\ Game.scope g' = Game.scope Scenario.two_players
     /\ Game.address_to_id g' = Game.address_to_id Scenario.two_players
     /\ Game.next_id g' = Game.next_id Scenario.two_players
     /\ map fst (Game.pressed_keys g') = map fst (Game.pressed_keys Scenario.two_players)
     /\ (forall j, j <> 1%Z -> PyDict.get Z.eqb (Game.pressed_keys g') j
                             = PyDict.get Z.eqb (Game.pressed_keys Scenario.two_players) j)
     /\ exists ks', PyDict.get Z.eqb (Game.pressed_keys g') 1%Z = Some ks'
                    /\ forall k', key_in k' ks' = (Z.eqb k' K_w || key_in k' [K_d]).
Proof.
  split; [vm_compute; reflexivity |]. split; [vm_compute; reflexivity |].
  apply (proj1 (key_input_set_semantics Scenario.two_players (mkAddr "10.0.0.2" 5000) 1 [K_d] K_w
                  (ltac:(vm_compute; reflexivity)) (ltac:(vm_compute; reflexivity)))).
Defined.

(** Extra property: [GameServer.handle_disconnect] of a client with id [i]
    always broadcasts [RemovePlayerCommand(i)] and keeps the id bookkeeping.
    If the player [i] is still in the scope it is removed, with its
    pressed-keys entry, and every other player and entry is kept; if it was
    already eliminated, the [try] stops at the first [KeyError] and the
    state is left exactly as it was (the pressed-keys entry stays). *)
Theorem game_disconnect_effect (g : Game.GameServer) (a : Addr) (i : Z) :
  NoDup (map fst (players (Game.scope g))) -> NoDup (map fst (Game.pressed_keys g)) ->
  Game.id_of g a = Some i ->
  exists g', Game.handle_disconnect g a = Some (g', [SendToAll (OCommand (RemovePlayerCommand i))])
  /\ Game.next_id g' = Game.next_id g /\ Game.address_to_id g' = Game.address_to_id g
  /\ Game.counts g' = Game.counts g
  /\ circle_radius (Game.scope g') = circle_radius (Game.scope g) /\ id_ (Game.scope g') = id_ (Game.scope g)
  /\ (PyDict.mem Z.eqb (players (Game.scope g)) i = false -> g' = g)
  /\ (PyDict.mem Z.eqb (players (Game.scope g)) i = true ->
      PyDict.get Z.eqb (players (Game.scope g')) i = None
      /\ PyDict.get Z.eqb (Game.pressed_keys g') i = None
      /\ forall j, j <> i ->
           PyDict.get Z.eqb (players (Game.scope g')) j = PyDict.get Z.eqb (players (Game.scope g)) j
           /\ PyDict.get Z.eqb (Game.pressed_keys g') j = PyDict.get Z.eqb (Game.pressed_keys g) j).
Proof.
  intros Hp Hk Ha; unfold Game.handle_disconnect; rewrite Ha.
  destruct (PyDict.del Z.eqb (players (Game.scope g)) i) as [ps |] eqn:D.
  - pose proof (GameFacts.del_some_mem Z.eqb Z_eqb_spec' _ _ _ D) as M.
    destruct (PyDictFacts.del_nodup Z.eqb Z_eqb_spec' _ _ _ Hp D) as (_ & Gp & _).
    simpl; destruct (PyDict.del Z.eqb (Game.pressed_keys g) i) as [pk |] eqn:D';
      (eexists; split; [reflexivity |]); simpl;
      (split; [reflexivity |]); (split; [reflexivity |]); (split; [reflexivity |]);
      (split; [reflexivity |]); (split; [reflexivity |]);
      (split; [rewrite M; discriminate |]); intros _; (split; [exact Gp |]).
    + destruct (PyDictFacts.del_nodup Z.eqb Z_eqb_spec' _ _ _ Hk D') as (_ & Gk & _).
      split; [exact Gk |]. intros j Hj.
      split; [exact (PyDictFacts.get_del_ne Z.eqb Z_eqb_spec' _ _ _ _ D (not_eq_sym Hj)) |].
      exact (PyDictFacts.get_del_ne Z.eqb Z_eqb_spec' _ _ _ _ D' (not_eq_sym Hj)).
    + split; [exact (GameFacts.mem_false_get Z.eqb _ _ (GameFacts.del_none_mem Z.eqb _ _ D')) |].
      intros j Hj. split; [| reflexivity].
      exact (PyDictFacts.get_del_ne Z.eqb Z_eqb_spec' _ _ _ _ D (not_eq_sym Hj)).
  - pose proof (GameFacts.del_none_mem Z.eqb _ _ D) as M.
    eexists; split; [reflexivity |].
    do 5 (split; [reflexivity |]). split; [intros _; reflexivity |].
    intros H; rewrite M in H; discriminate.
Qed.

Lemma game_disconnect_effect_witness :
  NoDup (map fst (players (Game.scope Scenario.two_players)))
  /\ NoDup (map fst (Game.pressed_keys Scenario.two_players))
  /\ Game.id_of Scenario.two_players (mkAddr "10.0.0.3" 5000) = Some 2%Z
  /\ exists g', Game.handle_disconnect Scenario.two_players (mkAddr "10.0.0.3" 5000)
                = Some (g', [SendToAll (OCommand (RemovePlayerCommand 2))])
     /\ PyDict.get Z.eqb (players (Game.scope g')) 2%Z = None
     /\ PyDict.get Z.eqb (Game.pressed_keys g') 2%Z = None.
Proof.
  assert (H1 : NoDup (map fst (players (Game.scope Scenario.two_players)))).
  { vm_compute. constructor; [simpl; intuition discriminate | constructor; [simpl; tauto | constructor]]. }
  assert (H2 : NoDup (map fst (Game.pressed_keys Scenario.two_players))).
  { vm_compute. constructor; [simpl; intuition discriminate | constructor; [simpl; tauto | constructor]]. }
  split; [exact H1 |]. split; [exact H2 |]. split; [vm_compute; reflexivity |].
  destruct (game_disconnect_effect Scenario.two_players (mkAddr "10.0.0.3" 5000) 2 H1 H2
              (ltac:(vm_compute; reflexivity)))
    as (g' & E & _ & _ & _ & _ & _ & _ & Hin).
  exists g'; split; [exact E |]. destruct (Hin (ltac:(vm_compute; reflexivity))) as (G1 & G2 & _).
  split; [exact G1 | exact G2].
Defined.

(** Extra property: in [_check_disconnects], a registered peer whose last
    activity is not more than [client_timeout] before [now] stays
    registered, with the same last-activity time, whatever other peers the
    loop disconnects (for a server whose [clients] and [timeouts] agree). *)
Theorem active_peer_kept {Sub : Type} (hooks : Srv.Hooks (Sub := Sub)) (s s' : @Srv.St Sub)
    (a : Addr) (t0 now : float) :
  PeerFacts.srv_wf (Srv.srv s) -> PyDict.get addr_eqb (timeouts (Srv.srv s)) a = Some t0 ->
  (client_timeout (Srv.srv s) <? now - t0) = false ->
  Srv.check_disconnects hooks now s = Some s' ->
  In a (clients (Srv.srv s')) /\ PyDict.get addr_eqb (timeouts (Srv.srv s')) a = Some t0.
Proof.
  intros (N1 & N2 & Ew) Ht Hc H. unfold Srv.check_disconnects in H.
  apply (GameFacts.expired_keep hooks now t0 a _ s s' H); [| exact Ht |].
  - intros t Hin. rewrite (GameFacts.in_get_nodup addr_eqb addr_eqb_spec _ _ _ N2 Hin) in Ht.
    inversion Ht; subst; exact Hc.
  - apply Ew, in_map_iff; exists (a, t0); split; [reflexivity |].
    exact (GameFacts.get_in addr_eqb addr_eqb_spec _ _ _ Ht).
Qed.

Lemma active_peer_kept_witness :
  exists s', Srv.check_disconnects Srv.echo_hooks 1 (Srv.mkSt (mkServer [mkAddr "10.0.0.2" 5000] [(mkAddr "10.0.0.2" 5000, 0)] 2 []) tt []) = Some s'
  /\ In (mkAddr "10.0.0.2" 5000) (clients (Srv.srv s'))
  /\ PyDict.get addr_eqb (timeouts (Srv.srv s')) (mkAddr "10.0.0.2" 5000) = Some 0.
Proof.
  eexists; split; [cbv; reflexivity |].
  apply (active_peer_kept Srv.echo_hooks (Srv.mkSt (mkServer [mkAddr "10.0.0.2" 5000] [(mkAddr "10.0.0.2" 5000, 0)] 2 []) tt [])
           _ (mkAddr "10.0.0.2" 5000) 0 1).
  - split; [repeat constructor; simpl; tauto |]. split; [repeat constructor; simpl; tauto |].
    intros b; simpl; tauto.
  - vm_compute; reflexivity.
  - vm_compute; reflexivity.
  - cbv; reflexivity.
Defined.

(** Extra property: in every state the [GameServer] hooks reach from
    [GameServer()], no two addresses are mapped to the same id, and every
    id in [address_to_id], [scope.players] or [pressed_keys] is below
    [next_id]. *)
Theorem address_ids_distinct (g : Game.GameServer) :
  KeyFacts.reachable g ->
  (forall a b i, Game.id_of g a = Some i -> Game.id_of g b = Some i -> a = b)
  /\ (forall a i, Game.id_of g a = Some i -> (i < Game.next_id g)%Z)
  /\ (forall i, In i (map fst (players (Game.scope g))) -> (i < Game.next_id g)%Z)
  /\ (forall i, In i (map fst (Game.pressed_keys g)) -> (i < Game.next_id g)%Z).
Proof.
  intros Hr; destruct (GameFacts.reachable_ids g Hr) as (N & Va & Vp & Vk).
  split; [| split; [| split; assumption]].
  - intros a b i Ha Hb. unfold Game.id_of in Ha, Hb.
    exact (GameFacts.in_pairs_inj _ a b i N (GameFacts.get_in addr_eqb addr_eqb_spec _ _ _ Ha)
             (GameFacts.get_in addr_eqb addr_eqb_spec _ _ _ Hb)).
  - intros a i Ha; apply Va, in_map_iff; exists (a, i); split; [reflexivity |].
    exact (GameFacts.get_in addr_eqb addr_eqb_spec _ _ _ Ha).
Qed.

Lemma address_ids_distinct_witness :
  exists g0 a0, Game.handle_connect Game.GameServer_new (mkAddr "10.0.0.2" 5000) = Some (g0, a0)
  /\ forall a b i, Game.id_of g0 a = Some i -> Game.id_of g0 b = Some i -> a = b.
Proof.
  destruct (Game.handle_connect Game.GameServer_new (mkAddr "10.0.0.2" 5000)) as [[g0 a0] |] eqn:E0;
    [| vm_compute in E0; discriminate].
  exists g0, a0; split; [reflexivity |].
  exact (proj1 (address_ids_distinct g0 (KeyFacts.reach_connect _ _ _ _ KeyFacts.reach_new E0))).
Defined.

(** Extra property: in every state the [GameServer] hooks reach from
    [GameServer()], [handle_connect(a)] succeeds and gives [a] the id
    [next_id], which no address, player or pressed-keys entry uses yet: it
    appends [Player(next_id)] to the players and an empty key set to
    [pressed_keys], increments [next_id], leaves the ids of the other
    addresses unchanged and sends [SetIdCommand(next_id)] to [a] alone. *)
Theorem connect_fresh_id (g : Game.GameServer) (a : Addr) :
  KeyFacts.reachable g ->
  exists g', Game.handle_connect g a = Some (g', [SendTo a (OCommand (SetIdCommand (Game.next_id g)))])
  /\ Game.next_id g' = (Game.next_id g + 1)%Z
  /\ Game.id_of g' a = Some (Game.next_id g)
  /\ (forall b, b <> a -> Game.id_of g' b = Game.id_of g b)
  /\ ~ In (Game.next_id g) (map snd (Game.address_to_id g))
  /\ players (Game.scope g') = players (Game.scope g) ++ [(Game.next_id g, Player.new (Game.next_id g))]
  /\ Game.pressed_keys g' = Game.pressed_keys g ++ [(Game.next_id g, [])].
Proof.
  intros Hr; destruct (GameFacts.reachable_ids g Hr) as (N & Va & Vp & Vk).
  rewrite GameFacts.connect_shape. eexists; split; [reflexivity |]; simpl.
  split; [reflexivity |].
  split; [unfold Game.id_of; simpl; apply (PyDictFacts.get_set_eq addr_eqb addr_eqb_spec) |].
  split; [intros b Hb; unfold Game.id_of; simpl; apply (PyDictFacts.get_set_ne addr_eqb addr_eqb_spec); congruence |].
  split; [intros Hin; specialize (Va _ Hin); lia |].
  split; apply (GameFacts.set_fresh Z.eqb Z_eqb_spec'); intros Hin;
    [specialize (Vp _ Hin) | specialize (Vk _ Hin)]; lia.
Qed.

Lemma connect_fresh_id_witness :
  exists g', Game.handle_connect Game.GameServer_new (mkAddr "10.0.0.2" 5000)
             = Some (g', [SendTo (mkAddr "10.0.0.2" 5000) (OCommand (SetIdCommand 1))])
  /\ Game.next_id g' = 2%Z /\ Game.id_of g' (mkAddr "10.0.0.2" 5000) = Some 1%Z
  /\ players (Game.scope g') = [(1%Z, Player.new 1)] /\ Game.pressed_keys g' = [(1%Z, [])].
Proof.
  destruct (connect_fresh_id Game.GameServer_new (mkAddr "10.0.0.2" 5000) KeyFacts.reach_new)
    as (g' & E & N & I & _ & _ & P & K).
  exists g'; split; [exact E |]. split; [exact N |]. split; [exact I |]. split; [exact P | exact K].
Defined.

(** Extra property: after a [GameServer.update] tick (players with distinct
    ids), no player left in the scope is outside the circle: for each one,
    [circle_radius < position.length()] is false. A player's own iteration
    eliminates it or leaves it inside, and the later iterations change only
    velocities of other players, never their positions. *)
Theorem update_inside_circle (g g' : Game.GameServer) (dt : float) (acts : list Action) :
  NoDup (map fst (players (Game.scope g))) -> Game.update g dt = Some (g', acts) ->
  forall j p, PyDict.get Z.eqb (players (Game.scope g')) j = Some p ->
    (circle_radius (Game.scope g') <? Vec.length (Player.position p)) = false.
Proof.
  intros Hnd H. unfold Game.update in H.
  destruct (Game.shrink g dt) as [g1 a1] eqn:S.
  destruct (KeyFacts.shrink_keeps g g1 dt a1 S) as [P1 _].
  destruct (Game.update_players dt (map fst (players (Game.scope g1))) g1) as [[g2 a2] |] eqn:U;
    [| discriminate].
  inversion H; subst; clear H. intros j.
  apply (GameFacts.update_players_inside dt _ g1 g' a2 U); [rewrite P1; exact Hnd |].
  intros i Hi; left; exact Hi.
Qed.

Lemma update_inside_circle_witness :
  NoDup (map fst (players (Game.scope Scenario.two_players)))
  /\ exists g' acts, Game.update Scenario.two_players 0.1 = Some (g', acts)
     /\ forall j p, PyDict.get Z.eqb (players (Game.scope g')) j = Some p ->
          (circle_radius (Game.scope g') <? Vec.length (Player.position p)) = false.
Proof.
  assert (Hnd : NoDup (map fst (players (Game.scope Scenario.two_players)))).
  { vm_compute. constructor; [simpl; intuition discriminate | constructor; [simpl; tauto | constructor]]. }
  split; [exact Hnd |].
  destruct (Game.update Scenario.two_players 0.1) as [[g' acts] |] eqn:E;
    [| vm_compute in E; discriminate].
  exists g', acts; split; [reflexivity |].
  exact (update_inside_circle Scenario.two_players g' 0.1 acts Hnd E).
Defined.

(** Extra property: the server never changes a player's [last_acceleration]
    from the [Vector2(0, 0)] of [Player.__post_init__]: in every state the
    [GameServer] hooks reach, all players have it, and every
    [SetPositionCommand] an update tick broadcasts carries (0, 0) as its
    [last_acceleration]. *)
Theorem server_last_acceleration_zero (g : Game.GameServer) :
  KeyFacts.reachable g ->
  (forall j p, PyDict.get Z.eqb (players (Game.scope g)) j = Some p -> Player.last_acceleration p = Vec.zero)
  /\ forall dt g' acts, Game.update g dt = Some (g', acts) ->
       forall n i pos acc vel, In (SendToAll (OCommand (SetPositionCommand n i pos acc vel))) acts ->
       acc = Vec.zero.
Proof.
  intros Hr. pose proof (GameFacts.la_reachable g Hr) as L.
  split.
  - intros j p Gp; exact (L (j, p) (GameFacts.get_in Z.eqb Z_eqb_spec' _ _ _ Gp)).
  - intros dt g' acts U; exact (proj2 (GameFacts.la_game_update g g' dt acts L U)).
Qed.

Lemma server_last_acceleration_zero_witness :
  exists g0 a0, Game.handle_connect Game.GameServer_new (mkAddr "10.0.0.2" 5000) = Some (g0, a0)
  /\ forall g' acts, Game.update g0 0.1 = Some (g', acts) ->
       forall n i pos acc vel, In (SendToAll (OCommand (SetPositionCommand n i pos acc vel))) acts ->
       acc = Vec.zero.
Proof.
  destruct (Game.handle_connect Game.GameServer_new (mkAddr "10.0.0.2" 5000)) as [[g0 a0] |] eqn:E0;
    [| vm_compute in E0; discriminate].
  exists g0, a0; split; [reflexivity |].
  exact (proj2 (server_last_acceleration_zero g0 (KeyFacts.reach_connect _ _ _ _ KeyFacts.reach_new E0)) 0.1).
Defined.

Module ClientFacts.
Import Commands Net ClientLoop.

Lemma recive_good (decode : list byte -> option Obj) (c : Client) (a : Addr) (p : list byte) (o : Obj) :
  ip a = host c -> pickle_loads decode p = Some o ->
  recive decode c (Some (Datagram (PROTOCOL_HEADER ++ p) a))
  = (Returned o, if is_acknowledged o then [OAcknowledge o] else []).
Proof.
  intros Hip Hd; unfold recive; cbv beta iota.
  rewrite Hip, String.eqb_refl, WireFacts.startswith_app, WireFacts.removeprefix_app, Hd.
  reflexivity.
Qed.

Lemma drain_prefix (decode : list byte -> option Obj) (c : Client) (a : Addr)
    (ps : list (list byte)) (cmds : list Command) (tail : list Recv) (w : Counts) (scope : Scope) :
  ip a = host c -> Forall2 (fun p cmd => pickle_loads decode p = Some (OCommand cmd)) ps cmds ->
  drain decode c (map (fun p => Datagram (PROTOCOL_HEADER ++ p) a) ps ++ tail) w scope
  = match run_all w cmds scope with
    | None => None
    | Some (w1, s1) =>
        match drain decode c tail w1 s1 with
        | None => None
        | Some (q, w2, s2, sent) => Some (q, w2, s2, acks_of cmds ++ sent)
        end
    end.
Proof.
  intros Hip HF; revert w scope; induction HF as [| p cmd ps cmds Hp HF IH]; intros w scope;
    cbn [map app drain run_all].
  - destruct (drain decode c tail w scope) as [[[[q w2] s2] sent] |]; reflexivity.
  - rewrite (recive_good decode c a p (OCommand cmd) Hip Hp).
    destruct (run w cmd scope) as [[w1 s1] |]; [| reflexivity].
    rewrite IH. destruct (run_all w1 cmds s1) as [[w3 s3] |]; [| reflexivity].
    destruct (drain decode c tail w3 s3) as [[[[q w2] s2] sent] |]; [| reflexivity].
    unfold acks_of; cbn [flat_map]; rewrite app_assoc; reflexivity.
Qed.

Lemma run_radius (w : Counts) (m : nat) (x : float) (scope : Scope) :
  run w (SetRadiusCommand m x) scope
  = if Nat.leb (radius_max_count w) m then Some (set_radius_max w m, set_circle_radius scope x)
    else Some (w, scope).
Proof. reflexivity. Qed.

Lemma run_all_stale (w : Counts) (cmds : list (nat * float)) (scope : Scope) :
  (forall m, In m (map fst cmds) -> (m < radius_max_count w)%nat) ->
  run_all w (map (fun mx => SetRadiusCommand (fst mx) (snd mx)) cmds) scope = Some (w, scope).
Proof.
  revert w scope; induction cmds as [| [m x] cmds IH]; intros w scope H; simpl; [reflexivity |].
  replace (Nat.leb (radius_max_count w) m) with false
    by (symmetry; apply Nat.leb_gt; apply H; left; reflexivity).
  apply IH; intros m' Hm'; apply H; right; exact Hm'.
Qed.

Lemma acks_radius (cmds : list (nat * float)) :
  acks_of (map (fun mx => SetRadiusCommand (fst mx) (snd mx)) cmds) = [].
Proof. induction cmds as [| mx cmds IH]; [reflexivity | exact IH]. Qed.

Lemma set_radius_max_twice (w : Counts) (m n : nat) :
  set_radius_max (set_radius_max w m) n = set_radius_max w n.
Proof. reflexivity. Qed.

Lemma radius_latest (w : Counts) (scope : Scope) (cmds : list (nat * float)) (n : nat) (r : float) :
  NoDup (map fst cmds) -> In (n, r) cmds -> (forall m, In m (map fst cmds) -> (m <= n)%nat) ->
  (radius_max_count w <= n)%nat ->
  exists s', run_all w (map (fun mx => SetRadiusCommand (fst mx) (snd mx)) cmds) scope
             = Some (set_radius_max w n, s')
  /\ circle_radius s' = r /\ id_ s' = id_ scope /\ players s' = players scope.
Proof.
  revert w scope; induction cmds as [| [m x] cmds IH]; intros w scope Hnd Hin Hmax Hw; [destruct Hin |].
  simpl in Hnd; inversion Hnd as [| ? ? Hm Hnd']; subst.
  cbn [map run_all]; rewrite run_radius; cbn [fst snd].
  destruct Hin as [Hin | Hin].
  - inversion Hin; subst.
    replace (Nat.leb (radius_max_count w) n) with true by (symmetry; apply Nat.leb_le; exact Hw).
    rewrite (run_all_stale (set_radius_max w n) cmds (set_circle_radius scope r)).
    + eexists; split; [reflexivity |]. repeat split; reflexivity.
    + intros m' Hm'. simpl. assert (m' <= n)%nat by (apply Hmax; right; exact Hm').
      assert (m' <> n) by (intros ->; contradiction). lia.
  - assert (Hmn : (m <= n)%nat) by (apply Hmax; left; reflexivity).
    assert (Hmax' : forall m', In m' (map fst cmds) -> (m' <= n)%nat) by (intros m' H'; apply Hmax; right; exact H').
    destruct (Nat.leb (radius_max_count w) m).
    + destruct (IH (set_radius_max w m) (set_circle_radius scope x) Hnd' Hin Hmax' Hmn)
        as (s' & E & R & I & P).
      rewrite E, set_radius_max_twice. exists s'; repeat split; assumption.
    + exact (IH w scope Hnd' Hin Hmax' Hw).
Qed.

End ClientFacts.

Module CountFacts.
Import Commands Net.

Lemma position_counts_app (a b : list Action) : position_counts (a ++ b) = position_counts a ++ position_counts b.
Proof. unfold position_counts; apply flat_map_app. Qed.

Lemma radius_counts_app (a b : list Action) : radius_counts (a ++ b) = radius_counts a ++ radius_counts b.
Proof. unfold radius_counts; apply flat_map_app. Qed.

Lemma update_player_counts (dt : float) (g g1 : Game.GameServer) (i : Z) (a : list Action) :
  Game.update_player dt g i = Some (g1, a) ->
  position_counts a = [position_counter (Game.counts g)] /\ radius_counts a = []
  /\ position_counter (Game.counts g1) = S (position_counter (Game.counts g))
  /\ radius_counter (Game.counts g1) = radius_counter (Game.counts g).
Proof.
  unfold Game.update_player.
  destruct (PyDict.get Z.eqb (players (Game.scope g)) i); [| discriminate].
  destruct (PyDict.get Z.eqb (Game.pressed_keys g) i); [| discriminate].
  destruct (Player.collision _ _) as [p2 ps].
  unfold new_SetPositionCommand; cbn -[Vec.length PyDict.set PyDict.del].
  destruct (_ <? _); [destruct (PyDict.del _ _ _); [| discriminate] |];
    intros H; inversion H; subst; repeat split; reflexivity.
Qed.

Lemma update_players_counts (dt : float) (ids : list Z) (g g' : Game.GameServer) (a : list Action) :
  Game.update_players dt ids g = Some (g', a) ->
  position_counts a = seq (position_counter (Game.counts g)) (List.length (position_counts a))
  /\ radius_counts a = []
  /\ position_counter (Game.counts g') = (position_counter (Game.counts g) + List.length (position_counts a))%nat
  /\ radius_counter (Game.counts g') = radius_counter (Game.counts g).
Proof.
  revert g a; induction ids as [| i ids IH]; intros g a; simpl.
  - intros H; inversion H; subst; simpl; repeat split; lia.
  - destruct (Game.update_player dt g i) as [[g1 a1] |] eqn:U; [| discriminate].
    destruct (Game.update_players dt ids g1) as [[g2 a2] |] eqn:U2; [| discriminate].
    intros H; inversion H; subst; clear H.
    destruct (update_player_counts dt g g1 i a1 U) as (P1 & R1 & C1 & D1).
    destruct (IH g1 a2 U2) as (P2 & R2 & C2 & D2).
    rewrite position_counts_app, radius_counts_app, P1, R1, R2, C1 in *. simpl.
    split; [rewrite <- P2; reflexivity |]. split; [reflexivity |]. split; [lia | congruence].
Qed.

End CountFacts.

(** Extra property: when every datagram queued on the client's socket comes
    from the server's host, starts with the protocol header and unpickles to
    a command, one pass of the loop [while cmd := self.client.recive():
    cmd.run(self.scope)] runs all these commands on the scope in arrival
    order, sends back an [Acknowledge] for each [Acknowledged] one, and
    leaves nothing queued. *)
Theorem drain_runs_commands_in_order (decode : list byte -> option Obj) (c : Client) (a : Addr)
    (ps : list (list byte)) (cmds : list Command) (w : Counts) (scope : Scope) :
  ip a = host c -> Forall2 (fun p cmd => pickle_loads decode p = Some (OCommand cmd)) ps cmds ->
  ClientLoop.drain decode c (map (fun p => Datagram (PROTOCOL_HEADER ++ p) a) ps) w scope
  = match ClientLoop.run_all w cmds scope with
    | None => None
    | Some (w1, s1) => Some ([], w1, s1, ClientLoop.acks_of cmds)
    end.
Proof.
  intros Hip HF.
  rewrite <- (app_nil_r (map _ ps)), (ClientFacts.drain_prefix decode c a ps cmds [] w scope Hip HF).
  destruct (ClientLoop.run_all w cmds scope) as [[w1 s1] |]; [| reflexivity].
  simpl; rewrite app_nil_r; reflexivity.
Qed.

Lemma drain_runs_commands_in_order_witness :
  ClientLoop.drain (fun p => match p with [Byte.x01] => Some (OCommand (SetIdCommand 1))
                                        | [Byte.x02] => Some (OCommand (SetRadiusCommand 0 19.5))
                                        | _ => None end)
    (mkClient "10.0.0.1")
    (map (fun p => Datagram (PROTOCOL_HEADER ++ p) (mkAddr "10.0.0.1" PORT)) [[Byte.x01]; [Byte.x02]])
    Counts_init Scope_new
  = Some ([], set_radius_max Counts_init 0, mkScope (Some 1%Z) 19.5 [],
          [OAcknowledge (OCommand (SetIdCommand 1))]).
Proof.
  rewrite (drain_runs_commands_in_order
             (fun p => match p with [Byte.x01] => Some (OCommand (SetIdCommand 1))
                                  | [Byte.x02] => Some (OCommand (SetRadiusCommand 0 19.5))
                                  | _ => None end)
             (mkClient "10.0.0.1") (mkAddr "10.0.0.1" PORT) [[Byte.x01]; [Byte.x02]]
             [SetIdCommand 1; SetRadiusCommand 0 19.5] Counts_init Scope_new);
    [vm_compute; reflexivity | reflexivity |].
  repeat constructor.
Defined.

(** Extra property: the client's receive loop stops at the first datagram
    that does not come from the server's host or lacks the protocol header:
    the commands before it have been run, that datagram is dropped, and
    every datagram after it stays queued until the next frame. *)
Theorem drain_stops_at_foreign (decode : list byte -> option Obj) (c : Client) (a b : Addr)
    (ps : list (list byte)) (cmds : list Command) (d : list byte) (rest : list Recv)
    (w : Counts) (scope : Scope) :
  ip a = host c -> Forall2 (fun p cmd => pickle_loads decode p = Some (OCommand cmd)) ps cmds ->
  (String.eqb (ip b) (host c) && startswith d PROTOCOL_HEADER) = false ->
  ClientLoop.drain decode c (map (fun p => Datagram (PROTOCOL_HEADER ++ p) a) ps ++ Datagram d b :: rest) w scope
  = match ClientLoop.run_all w cmds scope with
    | None => None
    | Some (w1, s1) => Some (rest, w1, s1, ClientLoop.acks_of cmds)
    end.
Proof.
  intros Hip HF Hb. rewrite (ClientFacts.drain_prefix decode c a ps cmds _ w scope Hip HF).
  destruct (ClientLoop.run_all w cmds scope) as [[w1 s1] |]; [| reflexivity].
  cbn [ClientLoop.drain]. unfold recive; cbv beta iota. rewrite Hb.
  rewrite app_nil_r; reflexivity.
Qed.

Lemma drain_stops_at_foreign_witness :
  ClientLoop.drain (fun _ => Some (OCommand (SetIdCommand 1))) (mkClient "10.0.0.1")
    ([Datagram (PROTOCOL_HEADER ++ [Byte.x01]) (mkAddr "10.0.0.1" PORT);
      Datagram (PROTOCOL_HEADER ++ [Byte.x01]) (mkAddr "10.6.6.6" PORT);
      Datagram (PROTOCOL_HEADER ++ [Byte.x01]) (mkAddr "10.0.0.1" PORT)])
    Counts_init Scope_new
  = Some ([Datagram (PROTOCOL_HEADER ++ [Byte.x01]) (mkAddr "10.0.0.1" PORT)], Counts_init,
          mkScope (Some 1%Z) 20 [], [OAcknowledge (OCommand (SetIdCommand 1))]).
Proof.
  exact (drain_stops_at_foreign (fun _ => Some (OCommand (SetIdCommand 1))) (mkClient "10.0.0.1")
           (mkAddr "10.0.0.1" PORT) (mkAddr "10.6.6.6" PORT) [[Byte.x01]] [SetIdCommand 1]
           (PROTOCOL_HEADER ++ [Byte.x01]) [Datagram (PROTOCOL_HEADER ++ [Byte.x01]) (mkAddr "10.0.0.1" PORT)]
           Counts_init Scope_new eq_refl
           (ltac:(constructor; [vm_compute; reflexivity | constructor]))
           (ltac:(vm_compute; reflexivity))).
Defined.

(** Extra property: when the datagrams of one frame carry [SetRadiusCommand]s
    with distinct counts, in any arrival order, the receive loop ends with
    the radius of the one with the greatest count [n], and with [n] as
    [SetRadiusCommand._max_count], provided [n] is at least the class's
    [_max_count] before the frame; the scope's id and players are kept and
    nothing is sent back. *)
Theorem drain_radius_latest_wins (decode : list byte -> option Obj) (c : Client) (a : Addr)
    (ps : list (list byte)) (cmds : list (nat * float)) (n : nat) (r : float) (w : Counts) (scope : Scope) :
  ip a = host c ->
  Forall2 (fun p mx => pickle_loads decode p = Some (OCommand (SetRadiusCommand (fst mx) (snd mx)))) ps cmds ->
  NoDup (map fst cmds) -> In (n, r) cmds -> (forall m, In m (map fst cmds) -> (m <= n)%nat) ->
  (radius_max_count w <= n)%nat ->
  exists s', ClientLoop.drain decode c (map (fun p => Datagram (PROTOCOL_HEADER ++ p) a) ps) w scope
             = Some ([], set_radius_max w n, s', [])
  /\ circle_radius s' = r /\ id_ s' = id_ scope /\ players s' = players scope.
Proof.
  intros Hip HF Hnd Hin Hmax Hw.
  assert (HF' : Forall2 (fun p cmd => pickle_loads decode p = Some (OCommand cmd)) ps
                  (map (fun mx => SetRadiusCommand (fst mx) (snd mx)) cmds)).
  { clear -HF; induction HF; constructor; auto. }
  rewrite <- (app_nil_r (map _ ps)), (ClientFacts.drain_prefix decode c a ps _ [] w scope Hip HF').
  destruct (ClientFacts.radius_latest w scope cmds n r Hnd Hin Hmax Hw) as (s' & E & R & I & P).
  rewrite E. exists s'; split; [| auto].
  simpl; rewrite ClientFacts.acks_radius; reflexivity.
Qed.

Lemma drain_radius_latest_wins_witness :
  exists s', ClientLoop.drain
               (fun p => match p with [Byte.x03] => Some (OCommand (SetRadiusCommand 3 18))
                                    | [Byte.x01] => Some (OCommand (SetRadiusCommand 1 19))
                                    | _ => None end)
               (mkClient "10.0.0.1")
               (map (fun p => Datagram (PROTOCOL_HEADER ++ p) (mkAddr "10.0.0.1" PORT)) [[Byte.x03]; [Byte.x01]])
               Counts_init Scope_new
             = Some ([], set_radius_max Counts_init 3, s', [])
  /\ circle_radius s' = 18 /\ id_ s' = id_ Scope_new /\ players s' = players Scope_new.
Proof.
  apply (drain_radius_latest_wins
           (fun p => match p with [Byte.x03] => Some (OCommand (SetRadiusCommand 3 18))
                                | [Byte.x01] => Some (OCommand (SetRadiusCommand 1 19))
                                | _ => None end)
           (mkClient "10.0.0.1") (mkAddr "10.0.0.1" PORT) [[Byte.x03]; [Byte.x01]]
           [(3%nat, 18); (1%nat, 19)] 3 18 Counts_init Scope_new).
  - reflexivity.
  - constructor; [vm_compute; reflexivity | constructor; [vm_compute; reflexivity | constructor]].
  - simpl; constructor; [simpl; lia | constructor; [simpl; tauto | constructor]].
  - simpl; left; reflexivity.
  - simpl; intros m [<- | [<- | []]]; lia.
  - simpl; lia.
Defined.

(** Extra property: the [SetRadiusCommand]s and [SetPositionCommand]s one
    [GameServer.update] tick broadcasts carry consecutive counts, in the
    order they are sent, starting at the next value of their class's
    [_global_counter], and the counter advances by exactly the number of
    commands sent; so counts are never reused and grow along the run. *)
Theorem update_counts_consecutive (g g' : Game.GameServer) (dt : float) (acts : list Action) :
  Game.update g dt = Some (g', acts) ->
  position_counts acts = seq (position_counter (Game.counts g)) (List.length (position_counts acts))
  /\ position_counter (Game.counts g') = (position_counter (Game.counts g) + List.length (position_counts acts))%nat
  /\ radius_counts acts = seq (radius_counter (Game.counts g)) (List.length (radius_counts acts))
  /\ radius_counter (Game.counts g') = (radius_counter (Game.counts g) + List.length (radius_counts acts))%nat.
Proof.
  unfold Game.update. destruct (Game.shrink g dt) as [g1 a1] eqn:S.
  destruct (Game.update_players dt _ g1) as [[g2 a2] |] eqn:U; [| discriminate].
  intros H; inversion H; subst; clear H.
  destruct (CountFacts.update_players_counts dt _ g1 g' a2 U) as (P2 & R2 & C2 & D2).
  rewrite CountFacts.position_counts_app, CountFacts.radius_counts_app, R2, app_nil_r.
  unfold Game.shrink in S; destruct (2 <? circle_radius (Game.scope g)); inversion S; subst; clear S;
    simpl in *; rewrite C2, D2; repeat split; try lia; exact P2.
Qed.

Lemma update_counts_consecutive_witness :
  exists g' acts, Game.update Scenario.two_players 0.1 = Some (g', acts)
  /\ position_counts acts = [0%nat; 1%nat] /\ radius_counts acts = [0%nat]
  /\ position_counts acts = seq (position_counter (Game.counts Scenario.two_players)) (List.length (position_counts acts))
  /\ radius_counts acts = seq (radius_counter (Game.counts Scenario.two_players)) (List.length (radius_counts acts)).
Proof.
  destruct (Game.update Scenario.two_players 0.1) as [[g' acts] |] eqn:E;
    [| vm_compute in E; discriminate].
  destruct (update_counts_consecutive Scenario.two_players g' 0.1 acts E) as (P & _ & R & _).
  exists g', acts; split; [reflexivity |].
  split; [vm_compute in E; inversion E; reflexivity |].
  split; [vm_compute in E; inversion E; reflexivity |].
  split; [exact P | exact R].
Defined.

Module CoupleFacts.
Import Commands Net.

(** A property of the registered clients and the subclass state together,
    kept by every hook call the server makes. *)
Section Couple.
Variable decode : list byte -> option Obj.
Context {Sub : Type}.
Variable hooks : Srv.Hooks (Sub := Sub).
Variable Q : list Addr -> Sub -> Prop.
Hypothesis Q_connect : forall cl u a u' acts, NoDup cl -> Q cl u -> ~ In a cl ->
  Srv.on_connect hooks u a = Some (u', acts) -> Q (cl ++ [a]) u'.
Hypothesis Q_disconnect : forall l1 l2 u a u' acts, NoDup (l1 ++ a :: l2) -> Q (l1 ++ a :: l2) u ->
  Srv.on_disconnect hooks u a = Some (u', acts) -> Q (l1 ++ l2) u'.
Hypothesis Q_handle : forall cl u a o u' acts, Q cl u -> In a cl ->
  Srv.on_handle hooks u a o = Some (u', acts) -> Q cl u'.
Hypothesis Q_update : forall cl u dt u' acts, Q cl u ->
  Srv.on_update hooks u dt = Some (u', acts) -> Q cl u'.

Definition J (s : @Srv.St Sub) : Prop := NoDup (clients (Srv.srv s)) /\ Q (clients (Srv.srv s)) (Srv.sub s).

Lemma handle_message_J (a : Addr) (data : list byte) (now : float) (s s' : @Srv.St Sub) :
  J s -> In a (clients (Srv.srv s)) -> Srv.handle_message decode hooks a data now s = Some s' -> J s'.
Proof.
  intros [N Hq] Ha H.
  destruct (PeerFacts.handle_message_ct decode hooks a data now s s' H) as (C & _ & _ & _).
  unfold J; rewrite C; split; [exact N |].
  unfold Srv.handle_message in H.
  destruct (pickle_loads decode data) as [o |]; [| discriminate].
  destruct o as [c | o | k | k |];
    try (destruct (SrvFacts.run_hook_sub _ _ _ H) as (u & acts & E & Su); rewrite Su;
         exact (Q_handle _ _ _ _ _ _ Hq Ha E)).
  destruct (negb (hashable o)); [first [discriminate | intros ?; discriminate] |].
  destruct (set_remove _ _); inversion H; subst; exact Hq.
Qed.

Lemma handle_connect_J (a : Addr) (data : list byte) (now : float) (s s' : @Srv.St Sub) :
  J s -> ~ In a (clients (Srv.srv s)) -> Srv.handle_connect decode hooks a data now s = Some s' -> J s'.
Proof.
  intros [N Hq] Ha. unfold Srv.handle_connect, Srv.bind.
  destruct (Srv.run_hook _ _) as [s2 |] eqn:E; [| discriminate].
  destruct (PeerFacts.run_hook_ct _ _ _ E) as [(C & _ & _) _]; simpl in C.
  destruct (SrvFacts.run_hook_sub _ _ _ E) as (u & acts & Eu & Su).
  apply handle_message_J; [| rewrite C; apply in_or_app; right; left; reflexivity].
  unfold J; rewrite C, Su; split; [exact (PeerFacts.nodup_snoc _ _ N Ha) |].
  exact (Q_connect _ _ _ _ _ N Hq Ha Eu).
Qed.

Lemma handle_messages_J (inbox : list (float * Recv)) (s s' : @Srv.St Sub) :
  J s -> Srv.handle_messages decode hooks inbox s = Some s' -> J s'.
Proof.
  revert s; induction inbox as [| [now [data a |]] inbox IH]; intros s H; simpl.
  - intros E; inversion E; subst; exact H.
  - destruct (startswith data PROTOCOL_HEADER); [| apply IH; exact H].
    unfold Srv.bind.
    destruct (existsb (addr_eqb a) (clients (Srv.srv s))) eqn:X.
    + destruct (Srv.handle_message decode hooks a _ now s) as [s1 |] eqn:E; [| discriminate].
      apply IH. exact (handle_message_J _ _ _ _ _ H (proj1 (PeerFacts.existsb_addr a _) X) E).
    + destruct (Srv.handle_connect decode hooks a _ now s) as [s1 |] eqn:E; [| discriminate].
      apply IH. refine (handle_connect_J _ _ _ _ _ H _ E).
      intros Hin; apply (PeerFacts.existsb_addr a) in Hin; congruence.
  - apply IH; exact H.
Qed.

Lemma handle_disconnect_J (a : Addr) (s s' : @Srv.St Sub) :
  J s -> Srv.handle_disconnect hooks a s = Some s' -> J s'.
Proof.
  intros [N Hq]. unfold Srv.handle_disconnect.
  destruct (list_remove (clients (Srv.srv s)) a) as [cl |] eqn:L; [| discriminate].
  destruct (PyDict.del addr_eqb (timeouts (Srv.srv s)) a) as [tm |]; [| discriminate].
  intros H. destruct (PeerFacts.run_hook_ct _ _ _ H) as [(C & _ & _) _]; simpl in C.
  destruct (SrvFacts.run_hook_sub _ _ _ H) as (u & acts & Eu & Su).
  destruct (PeerFacts.list_remove_split _ _ _ L) as (l1 & l2 & El & ->).
  unfold J; rewrite C, Su. rewrite El in N, Hq.
  split; [exact (NoDup_remove_1 _ _ _ N) | exact (Q_disconnect _ _ _ _ _ _ N Hq Eu)].
Qed.

Lemma disconnect_expired_J (now : float) (entries : list (Addr * float)) (s s' : @Srv.St Sub) :
  J s -> Srv.disconnect_expired hooks now entries s = Some s' -> J s'.
Proof.
  revert s; induction entries as [| [a t] entries IH]; intros s H; simpl.
  - intros E; inversion E; subst; exact H.
  - destruct (_ <? _); [| apply IH; exact H].
    unfold Srv.bind; destruct (Srv.handle_disconnect hooks a s) as [s1 |] eqn:E; [| discriminate].
    apply IH; exact (handle_disconnect_J _ _ _ H E).
Qed.

Lemma update_J (dt : float) (s s' : @Srv.St Sub) :
  J s -> Srv.update hooks dt s = Some s' -> J s'.
Proof.
  intros [N Hq]. unfold Srv.update. intros H.
  destruct (PeerFacts.run_hook_ct _ _ _ H) as [(C & _ & _) _].
  destruct (SrvFacts.run_hook_sub _ _ _ H) as (u & acts & Eu & Su).
  rewrite (PeerFacts.resend_srv _ s) in C. rewrite (SrvFacts.resend_sub _ s) in Eu.
  unfold J; rewrite C, Su; split; [exact N | exact (Q_update _ _ _ _ _ Hq Eu)].
Qed.

Lemma step_J (inbox : list (float * Recv)) (now dt : float) (s s' : @Srv.St Sub) :
  J s -> Srv.step decode hooks inbox now dt s = Some s' -> J s'.
Proof.
  intros H; unfold Srv.step, Srv.bind.
  destruct (Srv.handle_messages decode hooks inbox s) as [s1 |] eqn:E1; [| discriminate].
  unfold Srv.check_disconnects.
  destruct (Srv.disconnect_expired hooks now _ s1) as [s2 |] eqn:E2; [| discriminate].
  apply update_J. apply (disconnect_expired_J now (timeouts (Srv.srv s1)) s1 s2); [| exact E2].
  exact (handle_messages_J _ _ _ H E1).
Qed.

Lemma steps_J (inputs : list (list (float * Recv) * float * float)) (s s' : @Srv.St Sub) :
  J s -> Srv.steps decode hooks inputs s = Some s' -> J s'.
Proof.
  revert s; induction inputs as [| [[inbox now] dt] inputs IH]; intros s H; simpl.
  - intros E; inversion E; subst; exact H.
  - unfold Srv.bind; destruct (Srv.step decode hooks inbox now dt s) as [s1 |] eqn:E; [| discriminate].
    apply IH; exact (step_J _ _ _ _ _ H E).
Qed.
End Couple.

(** Every registered client of a [GameServer] has an id with a
    pressed-keys entry. *)
Definition game_reg (cl : list Addr) (g : Game.GameServer) : Prop :=
  KeyFacts.reachable g
  /\ forall a, In a cl -> exists i, Game.id_of g a = Some i /\ In i (map fst (Game.pressed_keys g)).

Lemma reg_connect (cl : list Addr) (g : Game.GameServer) (a : Addr) (g' : Game.GameServer) (acts : list Action) :
  game_reg cl g -> ~ In a cl -> Game.handle_connect g a = Some (g', acts) -> game_reg (cl ++ [a]) g'.
Proof.
  intros [Hr Hcl] Ha H. split; [exact (KeyFacts.reach_connect _ _ _ _ Hr H) |].
  rewrite GameFacts.connect_shape in H; inversion H; subst; clear H.
  intros b Hb; apply in_app_or in Hb. unfold Game.id_of; simpl.
  destruct Hb as [Hb | [<- | []]].
  - destruct (Hcl b Hb) as (i & Hi & Hk). exists i.
    assert (Hne : a <> b) by (intros ->; contradiction).
    rewrite (PyDictFacts.get_set_ne addr_eqb addr_eqb_spec _ _ _ _ Hne). split; [exact Hi |].
    apply (KeyFacts.in_keys_set Z.eqb Z_eqb_spec'); left; exact Hk.
  - exists (Game.next_id g). rewrite (PyDictFacts.get_set_eq addr_eqb addr_eqb_spec). split; [reflexivity |].
    apply (KeyFacts.in_keys_set Z.eqb Z_eqb_spec'); right; reflexivity.
Qed.

Lemma reg_disconnect (l1 l2 : list Addr) (g : Game.GameServer) (a : Addr) (g' : Game.GameServer) (acts : list Action) :
  NoDup (l1 ++ a :: l2) -> game_reg (l1 ++ a :: l2) g -> Game.handle_disconnect g a = Some (g', acts) ->
  game_reg (l1 ++ l2) g'.
Proof.
  intros N [Hr Hcl] H. split; [exact (KeyFacts.reach_disconnect _ _ _ _ Hr H) |].
  destruct (GameFacts.reachable_ids g Hr) as (Nv & _).
  unfold Game.handle_disconnect in H.
  destruct (Game.id_of g a) as [i |] eqn:Hi; [| discriminate].
  inversion H; subst; clear H.
  intros b Hb.
  assert (Hba : b <> a) by (intros ->; exact (NoDup_remove_2 _ _ _ N Hb)).
  assert (Hb' : In b (l1 ++ a :: l2)) by (apply in_app_or in Hb; apply in_or_app; simpl; tauto).
  destruct (Hcl b Hb') as (j & Hj & Hk).
  assert (Hji : j <> i).
  { intros ->. apply Hba. unfold Game.id_of in Hj, Hi.
    exact (GameFacts.in_pairs_inj _ b a i Nv (GameFacts.get_in addr_eqb addr_eqb_spec _ _ _ Hj)
             (GameFacts.get_in addr_eqb addr_eqb_spec _ _ _ Hi)). }
  exists j.
  destruct (PyDict.del Z.eqb (players (Game.scope g)) i) as [ps |]; [| split; assumption].
  simpl. destruct (PyDict.del Z.eqb (Game.pressed_keys g) i) as [pk |] eqn:D; split;
    try exact Hj; try exact Hk.
  exact (proj2 (KeyFacts.in_keys_del Z.eqb Z_eqb_spec' _ _ i j D) Hk Hji).
Qed.

Lemma reg_handle (cl : list Addr) (g : Game.GameServer) (a : Addr) (o : Obj) (g' : Game.GameServer) (acts : list Action) :
  game_reg cl g -> Game.handle g a o = Some (g', acts) -> game_reg cl g'.
Proof.
  intros [Hr Hcl] H. split; [exact (KeyFacts.reach_handle _ _ _ _ _ Hr H) |].
  unfold Game.handle in H.
  destruct (Game.id_of g a) as [i |]; [| discriminate].
  destruct o as [c | o | k | k |]; try discriminate;
    try (inversion H; subst; exact Hcl);
    destruct (PyDict.get Z.eqb (Game.pressed_keys g) i); try discriminate;
    inversion H; subst; clear H; intros b Hb; destruct (Hcl b Hb) as (j & Hj & Hk);
    exists j; split; [exact Hj | apply (KeyFacts.in_keys_set Z.eqb Z_eqb_spec'); left; exact Hk |
                     exact Hj | apply (KeyFacts.in_keys_set Z.eqb Z_eqb_spec'); left; exact Hk].
Qed.

Lemma reg_update (cl : list Addr) (g : Game.GameServer) (dt : float) (g' : Game.GameServer) (acts : list Action) :
  game_reg cl g -> Game.update g dt = Some (g', acts) -> game_reg cl g'.
Proof.
  intros [Hr Hcl] H. split; [exact (KeyFacts.reach_update _ _ _ _ Hr H) |].
  destruct (GameFacts.update_keeps g g' dt acts H) as (_ & A & P & _).
  intros b Hb; unfold Game.id_of; rewrite A, P; exact (Hcl b Hb).
Qed.

Lemma steps_reg (decode : list byte -> option Obj) inputs (s : @Srv.St Game.GameServer) :
  Srv.steps decode Game.hooks inputs (Srv.mkSt Server_new Game.GameServer_new []) = Some s ->
  game_reg (clients (Srv.srv s)) (Srv.sub s).
Proof.
  intros H.
  refine (proj2 (steps_J decode Game.hooks game_reg _ _ _ _ inputs _ s _ H)).
  - intros cl u a u' acts _ Hq Ha E; exact (reg_connect cl u a u' acts Hq Ha E).
  - intros l1 l2 u a u' acts N Hq E; exact (reg_disconnect l1 l2 u a u' acts N Hq E).
  - intros cl u a o u' acts Hq _ E; exact (reg_handle cl u a o u' acts Hq E).
  - intros cl u dt u' acts Hq E; exact (reg_update cl u dt u' acts Hq E).
  - split; [constructor |]. split; [exact KeyFacts.reach_new | intros a []].
Qed.

End CoupleFacts.

(** Extra property: in every state a [GameServer] reaches through
    successive [step()]s from a fresh server, each registered client has an
    id with a pressed-keys entry; so its [KeyDownInput], [KeyUpInput] and
    its disconnect are handled without a [KeyError]. *)
Theorem registered_clients_have_keys (decode : list byte -> option Obj) inputs (s : @Srv.St Game.GameServer) :
  Srv.steps decode Game.hooks inputs (Srv.mkSt Server_new Game.GameServer_new []) = Some s ->
  forall a, In a (clients (Srv.srv s)) ->
  exists i, Game.id_of (Srv.sub s) a = Some i /\ In i (map fst (Game.pressed_keys (Srv.sub s)))
  /\ (forall k, exists g', Game.handle (Srv.sub s) a (OKeyDownInput k) = Some (g', []))
  /\ (forall k, exists g', Game.handle (Srv.sub s) a (OKeyUpInput k) = Some (g', []))
  /\ exists g', Game.handle_disconnect (Srv.sub s) a = Some (g', [SendToAll (OCommand (RemovePlayerCommand i))]).
Proof.
  intros H a Ha. destruct (CoupleFacts.steps_reg decode inputs s H) as [_ Hcl].
  destruct (Hcl a Ha) as (i & Hi & Hk). exists i. split; [exact Hi |]. split; [exact Hk |].
  destruct (KeyFacts.mem_of_in Z.eqb Z_eqb_spec' _ _ Hk) as [ks Gk].
  unfold Game.handle, Game.handle_disconnect; rewrite Hi, Gk.
  split; [intros k; eexists; reflexivity |]. split; [intros k; eexists; reflexivity |].
  eexists; reflexivity.
Qed.

Lemma registered_clients_have_keys_witness :
  exists s, Srv.steps Scenario.decode_ping Game.hooks
      [([(0, Datagram (PROTOCOL_HEADER ++ Scenario.ping_pickle) (mkAddr "10.0.0.2" 5000))], 0, 0.01)]
      (Srv.mkSt Server_new Game.GameServer_new []) = Some s
  /\ In (mkAddr "10.0.0.2" 5000) (clients (Srv.srv s))
  /\ exists i, Game.id_of (Srv.sub s) (mkAddr "10.0.0.2" 5000) = Some i
     /\ In i (map fst (Game.pressed_keys (Srv.sub s))).
Proof.
  destruct (Srv.steps Scenario.decode_ping Game.hooks
      [([(0, Datagram (PROTOCOL_HEADER ++ Scenario.ping_pickle) (mkAddr "10.0.0.2" 5000))], 0, 0.01)]
      (Srv.mkSt Server_new Game.GameServer_new [])) as [s |] eqn:E; [| vm_compute in E; discriminate].
  assert (Ha : In (mkAddr "10.0.0.2" 5000) (clients (Srv.srv s))).
  { vm_compute in E; inversion E; subst; simpl; left; reflexivity. }
  exists s; split; [reflexivity |]. split; [exact Ha |].
  destruct (registered_clients_have_keys Scenario.decode_ping _ s E _ Ha) as (i & Hi & Hk & _).
  exists i; split; assumption.
Defined.
